(** * A shallow embedding of the traffic-sign CNN stack

    Source files embedded here:
    - [common/layers.py]: Relu, SoftmaxWithLoss, BatchNormalization,
      Convolution, Pooling;
    - [models/CNN.py] and [models/VGG16.py]: accuracy_f1score, load_params
      and the part of the VGG16 constructor that binds parameters to layers.
    [common/util.py] (im2col, col2im) and [common/functions.py] are not
    among the sources; im2col and col2im are parameters of the layers that
    call them.

    Modelling conventions.
    - Entries of float tensors are real numbers: rounding is outside the
      model, and so are the nan and infinities of tensors (the square root
      is only taken of non-negative numbers, batches are not empty).
      Values of numpy's float64 scalars in the evaluation code carry the
      IEEE special values explicitly, see [np_float]; zero is unsigned.
    - A tensor is a shape and its entries in row-major order; a
      well-formed tensor has as many entries as its shape says.
    - Sizes and counts stay below 2^53, where Python's float quotient of
      two ints followed by [int()] is the quotient truncated toward zero
      and a float64 holds a count exactly.
    - Python objects that are shared and mutated in place live in a store
      indexed by object identity ([loc]); a Python variable holding a tensor
      is a [loc].
    - A Python exception is [None]. *)

From Stdlib Require Import Reals Lra ZArith String.
From Stdlib Require Import DecimalString.
From stdpp Require Import base option list gmap strings.

(** ** Tensors *)

Record tensor (A : Type) := Tensor { shape : list nat; data : list A }.
Arguments Tensor {A} _ _.
Arguments shape {A} _.
Arguments data {A} _.

(** Number of entries of a tensor of the given shape. *)
Definition numel (s : list nat) : nat := foldr Nat.mul 1 s.

Definition tmap {A B} (f : A → B) (t : tensor A) : tensor B :=
  Tensor (shape t) (f <$> data t).

(** [x <= 0] on reals, as a boolean. *)
Definition Rle0b (x : R) : bool := if Rle_dec x 0 then true else false.

(** [a < b] on reals, as a boolean. *)
Definition Rltb (a b : R) : bool := if Rlt_dec a b then true else false.

(** ** The object store *)

Abbreviation loc := positive.

(** The three element types the layers use: float tensors, integer (long)
    tensors and boolean masks. *)
Inductive object :=
| FloatT (t : tensor R)
| LongT (t : tensor Z)
| BoolT (t : tensor bool).

Record heap := Heap { objs : gmap loc object; next : loc }.

(** Computations that read and write the store and may raise. *)
Definition Py (A : Type) : Type := heap → option (A * heap).

Definition ret {A} (a : A) : Py A := λ h, Some (a, h).
Definition raise {A} : Py A := λ _, None.
Definition bind {A B} (c : Py A) (k : A → Py B) : Py B :=
  λ h, match c h with Some (a, h') => k a h' | None => None end.

Notation "x <- c1 ;; c2" := (bind c1 (λ x, c2))
  (at level 100, c1 at next level, right associativity).

Definition deref (l : loc) : Py object :=
  λ h, match objs h !! l with Some o => Some (o, h) | None => None end.

Definition assign (l : loc) (o : object) : Py unit :=
  λ h, Some (tt, Heap (<[l:=o]> (objs h)) (next h)).

(** A new object gets an identity no live object has. *)
Definition alloc (o : object) : Py loc :=
  λ h, Some (next h, Heap (<[next h:=o]> (objs h)) (Pos.succ (next h))).

(** ** Boolean-mask assignment [x[mask] = v]

    The mask's shape has to be a prefix of the tensor's shape; a true entry
    selects the whole sub-tensor below it.  [mask = None] is Python's
    [x[None] = v], which views [x] with one more leading axis and so assigns
    every entry. *)
Definition expand_mask (m : tensor bool) (s : list nat) : list bool :=
  data m ≫= replicate (numel (drop (length (shape m)) s)).

Definition masked_fill {A} (t : tensor A) (mask : option (tensor bool)) (v : A)
  : option (tensor A) :=
  match mask with
  | None => Some (Tensor (shape t) (const v <$> data t))
  | Some m =>
      if decide (shape m `prefix_of` shape t) then
        let em := expand_mask m (shape t) in
        Some (Tensor (shape t)
                (imap (λ i x, if default false (em !! i) then v else x) (data t)))
      else None
  end.

Definition setitem_mask (l : loc) (mask : option (tensor bool)) : Py unit :=
  o <- deref l ;;
  match o with
  | FloatT t =>
      match masked_fill t mask 0%R with
      | Some t' => assign l (FloatT t')
      | None => raise
      end
  | LongT t =>
      match masked_fill t mask 0%Z with
      | Some t' => assign l (LongT t')
      | None => raise
      end
  | BoolT t =>
      match masked_fill t mask false with
      | Some t' => assign l (BoolT t')
      | None => raise
      end
  end.

(** ** Relu (layers.py, lines 9-24) *)

Module Relu.

Record t := Make { mask : option (tensor bool) }.

Definition __init__ : t := Make None.

(** [x.clone().detach()] makes a new object; the input is not written.
    Activations are float tensors; other element types are outside the
    model. *)
Definition forward (self : t) (x : loc) : Py (loc * t) :=
  o <- deref x ;;
  match o with
  | FloatT xt =>
      let m := tmap Rle0b xt in
      out <- alloc (FloatT xt) ;;
      _ <- setitem_mask out (Some m) ;;
      ret (out, Make (Some m))
  | _ => raise
  end.

(** [dout[self.mask] = 0; dx = dout; return dx]: the argument is written
    and handed back. *)
Definition backward (self : t) (dout : loc) : Py loc :=
  _ <- setitem_mask dout (mask self) ;;
  let dx := dout in
  ret dx.

End Relu.

(** ** numpy float64 scalars

    A float64 is a real number or one of the IEEE special values; zero is
    unsigned.  Dividing by zero does not raise in numpy: it yields nan for
    0/0 and an infinity otherwise. *)

Inductive np_float := Fin (r : R) | PInf | NInf | NaN.

Definition Req0b (x : R) : bool := if Req_dec_T x 0 then true else false.

Definition np_add (a b : np_float) : np_float :=
  match a, b with
  | NaN, _ | _, NaN => NaN
  | Fin x, Fin y => Fin (x + y)
  | PInf, NInf | NInf, PInf => NaN
  | PInf, _ | _, PInf => PInf
  | NInf, _ | _, NInf => NInf
  end.

(** Sign of the product of an infinity (negative iff [neg]) and a real. *)
Definition inf_times (neg : bool) (y : R) : np_float :=
  if Req0b y then NaN
  else if xorb neg (Rltb y 0) then NInf else PInf.

Definition np_mul (a b : np_float) : np_float :=
  match a, b with
  | NaN, _ | _, NaN => NaN
  | Fin x, Fin y => Fin (x * y)
  | PInf, Fin y | Fin y, PInf => inf_times false y
  | NInf, Fin y | Fin y, NInf => inf_times true y
  | PInf, PInf | NInf, NInf => PInf
  | PInf, NInf | NInf, PInf => NInf
  end.

Definition np_div (a b : np_float) : np_float :=
  match a, b with
  | NaN, _ | _, NaN => NaN
  | Fin x, Fin y =>
      if Req0b y then
        if Req0b x then NaN else if Rltb x 0 then NInf else PInf
      else Fin (x / y)
  | Fin _, (PInf | NInf) => Fin 0
  | PInf, Fin y => if Rltb y 0 then NInf else PInf
  | NInf, Fin y => if Rltb y 0 then PInf else NInf
  | (PInf | NInf), (PInf | NInf) => NaN
  end.

Definition Rsum (l : list R) : R := foldr Rplus 0%R l.

(** [np.mean] of a list of float64 numbers: their sum over their count.  A
    nan among the numbers makes the sum nan; the mean of no numbers is
    nan. *)
Definition np_sum (l : list np_float) : np_float := foldr np_add (Fin 0) l.

Definition np_mean (l : list np_float) : np_float :=
  np_div (np_sum l) (Fin (INR (length l))).

(** ** argmax along the last axis: the first index of a largest entry *)

Fixpoint argmax_from (best_i : nat) (best : R) (i : nat) (l : list R) : nat :=
  match l with
  | [] => best_i
  | x :: l' =>
      if Rltb best x then argmax_from i x (S i) l'
      else argmax_from best_i best (S i) l'
  end.

Definition argmax (l : list R) : option nat :=
  match l with
  | [] => None
  | x :: l' => Some (argmax_from 0 x 1 l')
  end.

(** ** Integer indexing of a numpy axis of length [n]: negative indices count
    from the end, anything outside [-n, n) raises IndexError. *)
Definition np_index (n : nat) (i : Z) : option nat :=
  if ((0 <=? i) && (i <? Z.of_nat n))%Z then Some (Z.to_nat i)
  else if ((- Z.of_nat n <=? i) && (i <? 0))%Z then Some (Z.to_nat (Z.of_nat n + i))
  else None.

(** ** Confusion matrices *)

(** Entries are counts: the float64 matrix made by [np.zeros] is only ever
    incremented by one. *)
Abbreviation matrix := (list (list nat)).

Definition cm_zeros (labels : nat) : matrix := replicate labels (replicate labels 0).

Definition cm_get (cm : matrix) (i j : nat) : nat :=
  default 0 (row ← cm !! i; row !! j).

(** [confusion_matrix[r][c] += 1] *)
Definition cm_incr (cm : matrix) (r : Z) (c : nat) : option matrix :=
  ri ← np_index (length cm) r;
  row ← cm !! ri;
  v ← row !! c;
  Some (<[ri := <[c := S v]> row]> cm).

(** [for j in range(len(y)): confusion_matrix[tt[j]][y[j]] += 1], with [j]
    the index of the head of [y]. *)
Fixpoint count_batch (cm : matrix) (tt : list Z) (j : nat) (y : list nat)
  : option matrix :=
  match y with
  | [] => Some cm
  | yj :: y' =>
      tj ← tt !! j;
      cm' ← cm_incr cm tj yj;
      count_batch cm' tt (S j) y'
  end.

Definition Nsum (l : list nat) : nat := foldr Nat.add 0 l.

(** [np.sum(confusion_matrix, axis=0)[i]] and [np.sum(confusion_matrix, axis=1)[i]] *)
Definition col_sum (cm : matrix) (i : nat) : nat :=
  Nsum ((λ row, default 0 (row !! i)) <$> cm).

Definition row_sum (cm : matrix) (i : nat) : nat :=
  Nsum (default [] (cm !! i)).

(** The precision loop (CNN.py lines 117-126): entry [i] is 0 when the
    column sum is 0 and otherwise the quotient of two float64 numbers of
    the matrix, [confusion_matrix[i][i] / precision_devider[i]]. *)
Definition precision (labels : nat) (cm : matrix) : list np_float :=
  (λ i, if col_sum cm i =? 0 then Fin 0
        else np_div (Fin (INR (cm_get cm i i))) (Fin (INR (col_sum cm i))))
  <$> seq 0 labels.

(** The recall loop (CNN.py lines 130-139). *)
Definition recall (labels : nat) (cm : matrix) : list np_float :=
  (λ i, if row_sum cm i =? 0 then Fin 0
        else np_div (Fin (INR (cm_get cm i i))) (Fin (INR (row_sum cm i))))
  <$> seq 0 labels.

Definition precision_avg (labels : nat) (cm : matrix) : np_float :=
  np_mean (precision labels cm).

Definition recall_avg (labels : nat) (cm : matrix) : np_float :=
  np_mean (recall labels cm).

(** [2 * precision_avg * recall_avg / (precision_avg + recall_avg)] *)
Definition f1score (p r : np_float) : np_float :=
  np_div (np_mul (np_mul (Fin 2) p) r) (np_add p r).

(** The accuracy loop and the division by [x.shape[0]] (CNN.py lines
    111-114).  [accuracy] starts as the Python float 0.0 and becomes a numpy
    scalar with the first [+=]; with no class at all it still is a Python
    float when divided, and Python raises on a zero divisor. *)
Definition diag_sum (labels : nat) (cm : matrix) : nat :=
  Nsum ((λ i, cm_get cm i i) <$> seq 0 labels).

Definition accuracy (labels : nat) (cm : matrix) (n : nat) : option np_float :=
  if labels =? 0 then
    if n =? 0 then None else Some (Fin (0 / INR n))
  else Some (np_div (Fin (INR (diag_sum labels cm))) (Fin (INR n))).

(** Labels come as class indices (one axis) or as rows to be reduced by
    [torch.argmax(t, dim=1)]. *)
Inductive target :=
| ClassIndices (l : list Z)
| OneHotRows (m : list (list R)).

Definition class_labels (t : target) : option (list Z) :=
  match t with
  | ClassIndices l => Some l
  | OneHotRows m => fmap (M:=list) Z.of_nat <$> mapM argmax m
  end.

(** ** accuracy_f1score (CNN.py lines 80-145, VGG16.py lines 112-174) *)

Section Evaluation.

(** Samples, and the state of the network's layers, which every forward
    pass overwrites. *)
Context {X net : Type}.

(** [self.predict(tx, is_final=...)] with [train_flg] at its default: the
    score rows of the batch and the new state of the layers, or an
    exception. *)
Variable predict : net → list X → bool → option (list (list R) * net).

(** One round of the batch loop (CNN.py lines 96-108). *)
Definition eval_batch (x : list X) (t : list Z) (batch_size : nat) (is_final : bool)
    (acc : option (matrix * net)) (i : nat) : option (matrix * net) :=
  '(cm, self) ← acc;
  let tx := take batch_size (drop (i * batch_size) x) in
  let tt := take batch_size (drop (i * batch_size) t) in
  '(scores, self') ← predict self tx (is_final && (i =? 0));
  y ← mapM argmax scores;
  cm' ← count_batch cm tt 0 y;
  Some (cm', self').

Definition eval_batches (x : list X) (t : list Z) (batch_size : nat) (is_final : bool)
    (labels : nat) (self : net) : option (matrix * net) :=
  foldl (eval_batch x t batch_size is_final) (Some (cm_zeros labels, self))
    (seq 0 (length x / batch_size)).

(** [int(x.shape[0] / batch_size)] raises ZeroDivisionError for a zero
    batch size; sizes are below 2^53, where truncating the float quotient
    is integer division. *)
Definition accuracy_f1score (output_size : nat) (self : net) (x : list X) (t : target)
    (batch_size : nat) (is_final : bool)
  : option (np_float * np_float * matrix * net) :=
  tl ← class_labels t;
  let labels := output_size in
  if batch_size =? 0 then None
  else
    '(cm, self') ← eval_batches x tl batch_size is_final labels self;
    acc ← accuracy labels cm (length x);
    Some (acc,
          f1score (precision_avg labels cm) (recall_avg labels cm),
          cm, self').

(** VGG16 overrides the method with the same body, without [is_final]. *)
Definition VGG16_accuracy_f1score (output_size : nat) (self : net) (x : list X)
    (t : target) (batch_size : nat) :=
  accuracy_f1score output_size self x t batch_size false.

(** The classes predicted in the rounds [i, i + n) of the batch loop, in
    the order of the loop and with the state threaded as the loop does. *)
Fixpoint predicted_classes (x : list X) (batch_size : nat) (is_final : bool)
    (self : net) (i n : nat) : option (list (list nat)) :=
  match n with
  | 0 => Some []
  | S n' =>
      '(scores, self') ← predict self (take batch_size (drop (i * batch_size) x))
                                  (is_final && (i =? 0));
      y ← mapM argmax scores;
      ys ← predicted_classes x batch_size is_final self' (S i) n';
      Some (y :: ys)
  end.

End Evaluation.

(** ** Confusion matrices that count on the diagonal *)

(** A [labels] x [labels] matrix. *)
Definition square (labels : nat) (cm : matrix) : Prop :=
  length cm = labels ∧ Forall (λ row, length row = labels) cm.

(** How often class [c] occurs among the labels [l]. *)
Definition occurrences (c : nat) (l : list Z) : nat :=
  count_occ Z.eq_dec l (Z.of_nat c).

(** The matrix counts the labels [l] on its diagonal and nothing else. *)
Definition counts_on_diagonal (cm : matrix) (l : list Z) : Prop :=
  ∀ i j, cm_get cm i j = if decide (i = j) then occurrences i l else 0.

(** ** Broadcasting

    Two axes combine when they are equally long or one of them has length
    one, which is then repeated; anything else raises. *)
Definition broadcast {A B C} (f : A → B → C) (a : list A) (b : list B)
  : option (list C) :=
  if decide (length a = length b) then Some (zip_with f a b)
  else match a, b with
       | [u], _ => Some (f u <$> b)
       | _, [v] => Some ((λ u, f u v) <$> a)
       | _, _ => None
       end.

(** A batch of feature rows, shape (N, D), combined with a vector over the
    features: the vector is aligned with the last axis.  Batches are not
    empty: the statistics of an empty batch are nan, which real entries do
    not model. *)
Definition rows_with {A B C} (f : A → B → C) (x : list (list A)) (v : list B)
  : option (list (list C)) :=
  mapM (λ row, broadcast f row v) x.

Definition with_rows {A B C} (f : A → B → C) (v : list A) (x : list (list B))
  : option (list (list C)) :=
  mapM (λ row, broadcast f v row) x.

Definition ncols {A} (x : list (list A)) : nat := length (default [] (head x)).

(** [torch.mean(x, dim=0)]: entry [j] is the mean of column [j]. *)
Definition mean0 (x : list (list R)) : list R :=
  (λ j, (Rsum ((λ row, default 0%R (row !! j)) <$> x) / INR (length x))%R)
    <$> seq 0 (ncols x).

Definition square_entries (x : list (list R)) : list (list R) :=
  fmap (M:=list) (λ v, (v * v)%R) <$> x.

(** [torch.sum(x, dim=0)]: entry [j] is the sum of column [j]. *)
Definition sum0 (x : list (list R)) : list R :=
  (λ j, Rsum ((λ row, default 0%R (row !! j)) <$> x)) <$> seq 0 (ncols x).

(** Two batches combined entry by entry, each of the two axes broadcast. *)
Definition rows_zip {A B C} (f : A → B → C) (x : list (list A)) (y : list (list B))
  : option (list (list C)) :=
  match broadcast (broadcast f) x y with
  | Some rows => mapM (λ row : option (list C), row) rows
  | None => None
  end.

(** [a += b] on batches: [b] is broadcast, and the sum has to have the
    shape of [a], which the assignment keeps. *)
Definition rows_iadd (a b : list (list R)) : option (list (list R)) :=
  s ← rows_zip Rplus a b;
  if decide (length <$> s = length <$> a) then Some s else None.

(** ** BatchNormalization (layers.py, lines 116-200) *)

Module BatchNormalization.

Record t := Make {
  gamma : list R;
  beta : list R;
  momentum : R;
  input_shape : option (list nat);
  running_mean : option (list R);
  running_var : option (list R);
  batch_size : option nat;
  xc : option (list (list R));
  xn : option (list (list R));
  std : option (list R);
  dgamma : option (list R);
  dbeta : option (list R)
}.

Definition __init__ (gamma beta : list R) (momentum : R)
    (running_mean running_var : option (list R)) : t :=
  Make gamma beta momentum None running_mean running_var None None None None None None.

(** The literal [10e-7] of lines 155 and 170. *)
Definition eps : R := (10 * / 10 ^ 7)%R.

Definition set_running (self : t) (rm rv : list R) : t :=
  Make (gamma self) (beta self) (momentum self) (input_shape self)
    (Some rm) (Some rv)
    (batch_size self) (xc self) (xn self) (std self) (dgamma self) (dbeta self).

Definition set_cache (self : t) (n : nat) (c nrm : list (list R)) (s : list R) : t :=
  Make (gamma self) (beta self) (momentum self) (input_shape self)
    (running_mean self) (running_var self)
    (Some n) (Some c) (Some nrm) (Some s) (dgamma self) (dbeta self).

(** [torch.sqrt(v + 10e-7)] *)
Definition sqrt_eps (v : list R) : list R := (λ u, sqrt (u + eps)) <$> v.

(** [self.momentum * r + (1 - self.momentum) * m] *)
Definition moving_average (self : t) (r m : list R) : option (list R) :=
  broadcast Rplus ((λ u, momentum self * u)%R <$> r)
                  ((λ u, (1 - momentum self) * u)%R <$> m).

(** Lines 144-173, on an input of two axes. *)
Definition __forward (self : t) (x : list (list R)) (train_flg : bool)
  : option (list (list R) * t) :=
  let self :=
    match running_mean self with
    | None => set_running self (replicate (ncols x) 0%R) (replicate (ncols x) 0%R)
    | Some _ => self
    end in
  '(xn, self) ←
    (if train_flg || bool_decide (batch_size self = None) then
       let mu := mean0 x in
       xc ← rows_with Rminus x mu;
       let var := mean0 (square_entries xc) in
       let std := sqrt_eps var in
       xn ← rows_with Rdiv xc std;
       let self := set_cache self (length x) xc xn std in
       if train_flg then
         rm ← running_mean self;
         rv ← running_var self;
         rm' ← moving_average self rm mu;
         rv' ← moving_average self rv var;
         Some (xn, set_running self rm' rv')
       else Some (xn, self)
     else
       rm ← running_mean self;
       rv ← running_var self;
       xc ← rows_with Rminus x rm;
       xn ← rows_with Rdiv xc (sqrt_eps rv);
       Some (xn, self));
  scaled ← with_rows Rmult (gamma self) xn;
  out ← rows_with Rplus scaled (beta self);
  Some (out, self).

Definition set_grads (self : t) (dg db : list R) : t :=
  Make (gamma self) (beta self) (momentum self) (input_shape self)
    (running_mean self) (running_var self)
    (batch_size self) (xc self) (xn self) (std self) (Some dg) (Some db).

(** Lines 185-200, on a gradient of two axes.  The cache of the last
    forward pass is read; an attribute that still is None raises, and so
    does [2.0 / self.batch_size] for a batch size of 0. *)
Definition __backward (self : t) (dout : list (list R))
  : option (list (list R) * t) :=
  let dbeta := sum0 dout in
  xn ← xn self;
  prod ← rows_zip Rmult xn dout;
  let dgamma := sum0 prod in
  dxn ← with_rows Rmult (gamma self) dout;
  std ← std self;
  dxc ← rows_with Rdiv dxn std;
  xc ← xc self;
  num ← rows_zip Rmult dxn xc;
  std2 ← broadcast Rmult std std;
  quot ← rows_with Rdiv num std2;
  let dstd := Ropp <$> sum0 quot in
  dvar ← broadcast Rdiv ((λ u, (5 / 10) * u)%R <$> dstd) std;
  n ← batch_size self;
  if n =? 0 then None
  else
    let scaled := fmap (M:=list) (λ u, (2 / INR n) * u)%R <$> xc in
    term ← rows_with Rmult scaled dvar;
    dxc ← rows_iadd dxc term;
    let dmu := sum0 dxc in
    dx ← rows_with Rminus dxc ((λ u, u / INR n)%R <$> dmu);
    Some (dx, set_grads self dgamma dbeta).

End BatchNormalization.

(** The normalisation the specification words: [xn = (x - mu) / sqrt(var + e)]
    with the batch mean [mu] and the batch variance [var] of every feature. *)
Definition normalized (e : R) (x : list (list R)) : list (list R) :=
  let mu := mean0 x in
  let xc := (λ row, zip_with Rminus row mu) <$> x in
  let var := mean0 (square_entries xc) in
  (λ row, zip_with Rdiv row ((λ v, sqrt (v + e)) <$> var)) <$> xc.

(** What inference mode is specified to return: the input normalised with
    the stored statistics, then scaled and shifted. *)
Definition normalized_with_running (self : BatchNormalization.t)
    (rm rv : list R) (x : list (list R)) : list (list R) :=
  (λ row,
     zip_with Rplus
       (zip_with Rmult (BatchNormalization.gamma self)
          (zip_with Rdiv (zip_with Rminus row rm)
             ((λ v, sqrt (v + BatchNormalization.eps)) <$> rv)))
       (BatchNormalization.beta self)) <$> x.

(** ** Tensor operations on the row-major layout

    Tensors are well formed: [data] has [numel shape] entries.  Positions
    are looked up with [omap], which for well-formed tensors finds every
    entry. *)

(** The multi-index of the flat position [p] in a tensor of shape [s]. *)
Fixpoint unravel (s : list nat) (p : nat) : list nat :=
  match s with
  | [] => []
  | _ :: s' => p / numel s' :: unravel s' (p mod numel s')
  end.

(** The flat position of a multi-index. *)
Definition ravel (s idx : list nat) : nat :=
  foldl (λ acc di, acc * di.1 + di.2) 0 (zip s idx).

(** Shapes are aligned at their last axis; an axis of length one is
    repeated, a missing leading axis counts as length one. *)
Fixpoint broadcast_axes (r1 r2 : list nat) : option (list nat) :=
  match r1, r2 with
  | [], r | r, [] => Some r
  | a :: r1', b :: r2' =>
      rest ← broadcast_axes r1' r2';
      if decide (a = b) then Some (a :: rest)
      else if decide (a = 1) then Some (b :: rest)
      else if decide (b = 1) then Some (a :: rest)
      else None
  end.

Definition broadcast_shapes (s1 s2 : list nat) : option (list nat) :=
  reverse <$> broadcast_axes (reverse s1) (reverse s2).

(** Where the entry at multi-index [idx] of the broadcast result comes
    from in a tensor of shape [s]. *)
Definition source_position (s idx : list nat) : nat :=
  ravel s (zip_with (λ d i, if d =? 1 then 0 else i) s
             (drop (length idx - length s) idx)).

Definition broadcast_to {A} (t : tensor A) (s : list nat) : list A :=
  omap (λ p, data t !! source_position (shape t) (unravel s p)) (seq 0 (numel s)).

(** An elementwise binary operation with broadcasting. *)
Definition tensor_zip {A B C} (f : A → B → C) (a : tensor A) (b : tensor B)
  : option (tensor C) :=
  s ← broadcast_shapes (shape a) (shape b);
  Some (Tensor s (zip_with f (broadcast_to a s) (broadcast_to b s))).

Definition Zprod (l : list Z) : Z := foldr Z.mul 1%Z l.

(** [t.reshape(dims)]: at most one entry of [dims] is -1 and is inferred,
    which needs the other entries to have a positive product dividing the
    number of entries. *)
Definition reshape {A} (t : tensor A) (dims : list Z) : option (tensor A) :=
  let n := Z.of_nat (numel (shape t)) in
  let known := Zprod (filter (λ d, d ≠ (-1)%Z) dims) in
  if negb (forallb (λ d, (-1 <=? d)%Z) dims) then None
  else
    match length (filter (λ d, d = (-1)%Z) dims) with
    | 0 => if decide (known = n)
           then Some (Tensor (Z.to_nat <$> dims) (data t)) else None
    | 1 => if ((0 <? known) && (n mod known =? 0))%Z
           then Some (Tensor ((λ d, if decide (d = (-1)%Z) then Z.to_nat (n / known)
                                    else Z.to_nat d) <$> dims)
                             (data t))
           else None
    | _ => None
    end.

(** The multi-index in the permuted tensor [idx'] seen from the original
    axes: axis [a] of the original is axis [i] of the result when
    [perm[i] = a]. *)
Definition inverse_permuted (perm idx' : list nat) (rank : nat) : list nat :=
  (λ a, default 0 (i ← fst <$> list_find (λ k, k = a) perm; idx' !! i)) <$> seq 0 rank.

(** [t.permute(perm)]: axis [k] of the result is axis [perm[k]] of [t]. *)
Definition permute {A} (t : tensor A) (perm : list nat) : option (tensor A) :=
  if decide (perm ≡ₚ seq 0 (length (shape t))) then
    let s' := (λ k, default 0 (shape t !! k)) <$> perm in
    Some (Tensor s'
            (omap (λ p, data t !! ravel (shape t)
                                    (inverse_permuted perm (unravel s' p)
                                       (length (shape t))))
                  (seq 0 (numel s'))))
  else None.

(** [m.T] of a matrix. *)
Definition transpose {A} (t : tensor A) : option (tensor A) :=
  match shape t with
  | [_; _] => permute t [1; 0]
  | _ => None
  end.

(** Entry [(i, j)] of the product of a matrix with [c] columns and a matrix
    with [k] columns. *)
Definition matmul_entry (a b : list R) (c k i j : nat) : R :=
  Rsum ((λ l, Rmult (default 0%R (a !! (i * c + l))) (default 0%R (b !! (l * k + j))))
          <$> seq 0 c).

(** [torch.matmul] of two matrices. *)
Definition matmul (a b : tensor R) : option (tensor R) :=
  match shape a, shape b with
  | [r; c], [c'; k] =>
      if decide (c = c') then
        Some (Tensor [r; k]
                (mjoin ((λ i, matmul_entry (data a) (data b) c k i <$> seq 0 k)
                          <$> seq 0 r)))
      else None
  | _, _ => None
  end.

(** [int(a / b)] on Python ints: the float quotient is truncated toward
    zero, a zero divisor raises. *)
Definition py_int_div (a b : Z) : option Z :=
  if (b =? 0)%Z then None else Some (a ÷ b)%Z.

(** [torch.sum(t, dim=0)]: the first axis is summed away; a tensor without
    axes is its own sum. *)
Definition sum_dim0 (t : tensor R) : tensor R :=
  match shape t with
  | [] => t
  | n :: rest =>
      Tensor rest
        ((λ p, Rsum ((λ i, default 0%R (data t !! (i * numel rest + p))) <$> seq 0 n))
           <$> seq 0 (numel rest))
  end.

(** ** Convolution (layers.py, lines 203-250) *)

Module Convolution.

Record t := Make {
  W : tensor R;
  b : tensor R;
  stride : Z;
  pad : Z;
  x : option (tensor R);
  col : option (tensor R);
  col_W : option (tensor R)
}.

Definition __init__ (W b : tensor R) (stride pad : Z) : t :=
  Make W b stride pad None None None.

Section Forward.

(** [im2col(x, FH, FW, stride, pad)] of common/util.py, which is not among
    the sources: a parameter of the layer. *)
Variable im2col : tensor R → Z → Z → Z → Z → option (tensor R).

(** Lines 219-235. *)
Definition forward (self : t) (x : tensor R) : option (tensor R * t) :=
  match shape (W self), shape x with
  | [FN; _; FH; FW], [N; C; H; W_] =>
      qh ← py_int_div (Z.of_nat H + 2 * pad self - Z.of_nat FH) (stride self);
      qw ← py_int_div (Z.of_nat W_ + 2 * pad self - Z.of_nat FW) (stride self);
      let out_h := (1 + qh)%Z in
      let out_w := (1 + qw)%Z in
      col ← im2col x (Z.of_nat FH) (Z.of_nat FW) (stride self) (pad self);
      w2 ← reshape (W self) [Z.of_nat FN; (-1)%Z];
      col_W ← transpose w2;
      prod ← matmul col col_W;
      out ← tensor_zip Rplus prod (b self);
      out ← reshape out [Z.of_nat N; out_h; out_w; (-1)%Z];
      out ← permute out [0; 3; 1; 2];
      Some (out, Make (W self) (b self) (stride self) (pad self)
                   (Some x) (Some col) (Some col_W))
  | _, _ => None
  end.

End Forward.

Section Backward.

(** [col2im(dcol, x.shape, FH, FW, stride, pad)] of common/util.py, a
    parameter as [im2col] is. *)
Variable col2im : tensor R → list nat → Z → Z → Z → Z → option (tensor R).

(** Lines 237-250.  The result is [dx] together with the values the call
    stores in the attributes [dW] and [db]; the intermediate data of the
    forward pass is read, and an attribute that still is None raises. *)
Definition backward (self : t) (dout : tensor R)
  : option (tensor R * tensor R * tensor R) :=
  match shape (W self) with
  | [FN; C; FH; FW] =>
      dout ← permute dout [0; 2; 3; 1];
      dout ← reshape dout [(-1)%Z; Z.of_nat FN];
      let db := sum_dim0 dout in
      col ← col self;
      colT ← transpose col;
      dW ← matmul colT dout;
      dW ← transpose dW;
      dW ← reshape dW [Z.of_nat FN; Z.of_nat C; Z.of_nat FH; Z.of_nat FW];
      col_W ← col_W self;
      col_WT ← transpose col_W;
      dcol ← matmul dout col_WT;
      x ← x self;
      dx ← col2im dcol (shape x) (Z.of_nat FH) (Z.of_nat FW) (stride self) (pad self);
      Some (dx, dW, db)
  | _ => None
  end.

End Backward.

End Convolution.

(** The spatial size the specification gives:
    [floor((H + 2 pad - kH) / stride) + 1]. *)
Definition conv_out_size (h pad k stride : Z) : Z :=
  ((h + 2 * pad - k) / stride + 1)%Z.

(** ** Rows of a matrix and integer-array assignment *)

(** The [n] rows of [c] entries of a row-major matrix. *)
Fixpoint chunks {A} (n c : nat) (l : list A) : list (list A) :=
  match n with
  | 0 => []
  | S n' => take c l :: chunks n' c (drop c l)
  end.

(** [torch.max(col, dim=1)[0]] of one row. *)
Definition row_max (r : list R) : option R := i ← argmax r; r !! i.

(** [acc[k, cols[0]] = vals[0]; acc[k + 1, cols[1]] = vals[1]; ...] on a
    matrix with [P] columns. *)
Fixpoint scatter (P k : nat) (cols : list nat) (vals acc : list R) : list R :=
  match cols, vals with
  | c :: cols', v :: vals' => scatter P (S k) cols' vals' (<[k * P + c := v]> acc)
  | _, _ => acc
  end.

(** [t[torch.arange(len(cols)), cols] = vals] on a matrix [t]: the values
    are as many as the indices, or a single one that is repeated; an index
    outside the matrix raises. *)
Definition index_put_rows (t : tensor R) (cols : list nat) (vals : list R)
  : option (tensor R) :=
  match shape t with
  | [M; P] =>
      vals' ← (if decide (length vals = length cols) then Some vals
               else match vals with
                    | [v] => Some (replicate (length cols) v)
                    | _ => None
                    end);
      if forallb (λ c, c <? P) cols && (length cols <=? M)
      then Some (Tensor [M; P] (scatter P 0 cols vals' (data t)))
      else None
  | _ => None
  end.

(** ** Pooling (layers.py, lines 253-296) *)

Module Pooling.

Record t := Make {
  pool_h : nat;
  pool_w : nat;
  stride : Z;
  pad : Z;
  x : option (tensor R);
  arg_max : option (list nat)
}.

Definition __init__ (pool_h pool_w : nat) (stride pad : Z) : t :=
  Make pool_h pool_w stride pad None None.

Section Layer.

(** [im2col] and [col2im] of common/util.py, which is not among the
    sources: parameters of the layer. *)
Variable im2col : tensor R → Z → Z → Z → Z → option (tensor R).
Variable col2im : tensor R → list nat → Z → Z → Z → Z → option (tensor R).

(** Lines 263-278.  [int(1 + a / s)] truncates the quotient [(s + a) / s]. *)
Definition forward (self : t) (x : tensor R) : option (tensor R * t) :=
  match shape x with
  | [N; C; H; W_] =>
      out_h ← py_int_div (stride self + (Z.of_nat H - Z.of_nat (pool_h self)))
                 (stride self);
      out_w ← py_int_div (stride self + (Z.of_nat W_ - Z.of_nat (pool_w self)))
                 (stride self);
      col ← im2col x (Z.of_nat (pool_h self)) (Z.of_nat (pool_w self))
              (stride self) (pad self);
      col ← reshape col [(-1)%Z; Z.of_nat (pool_h self * pool_w self)];
      match shape col with
      | [K; P] =>
          let rows := chunks K P (data col) in
          arg_max ← mapM argmax rows;
          out ← mapM row_max rows;
          out ← reshape (Tensor [K] out) [Z.of_nat N; out_h; out_w; Z.of_nat C];
          out ← permute out [0; 3; 1; 2];
          Some (out, Make (pool_h self) (pool_w self) (stride self) (pad self)
                       (Some x) (Some arg_max))
      | _ => None
      end
  | _ => None
  end.

(** Lines 280-293: the matrix handed to [col2im]. *)
Definition backward_dcol (self : t) (dout : tensor R) : option (tensor R) :=
  dout ← permute dout [0; 2; 3; 1];
  let pool_size := pool_h self * pool_w self in
  am ← arg_max self;
  let M := numel (shape dout) in
  dmax ← index_put_rows (Tensor [M; pool_size] (replicate (M * pool_size) 0%R))
           am (data dout);
  dmax ← reshape dmax (Z.of_nat <$> (shape dout ++ [pool_size]));
  match shape dmax with
  | d0 :: d1 :: d2 :: _ => reshape dmax [Z.of_nat (d0 * d1 * d2); (-1)%Z]
  | _ => None
  end.

(** Lines 280-296. *)
Definition backward (self : t) (dout : tensor R) : option (tensor R) :=
  dcol ← backward_dcol self dout;
  x ← x self;
  col2im dcol (shape x) (Z.of_nat (pool_h self)) (Z.of_nat (pool_w self))
    (stride self) (pad self).

End Layer.

End Pooling.

(** ** Attribute lookups that yield methods

    [size] is a method of torch tensors, so the expression [t.size], with no
    call, evaluates to a built-in method object bound to [t].  Python
    compares two such objects with [==] by the identity of the receiver and
    of the underlying function. *)
Inductive py_value :=
| BoundMethod (receiver : loc) (name : string).

Definition getattr_size (l : loc) : py_value := BoundMethod l "size".

Definition py_eq (a b : py_value) : bool :=
  match a, b with
  | BoundMethod r1 n1, BoundMethod r2 n2 =>
      bool_decide (r1 = r2) && bool_decide (n1 = n2)
  end.

(** ** Integer-array indexing [dx[rows, cols]] *)

(** The entries of a tensor as floats. *)
Definition float_entries (o : object) : tensor R :=
  match o with
  | FloatT t => t
  | LongT t => tmap IZR t
  | BoolT t => tmap (λ b : bool, if b then 1%R else 0%R) t
  end.

Definition object_shape (o : object) : list nat :=
  match o with
  | FloatT t => shape t
  | LongT t => shape t
  | BoolT t => shape t
  end.

(** The flat positions selected by [dx[rows, cols]] in a tensor of shape
    [s]: the two index arrays are broadcast against each other, each pair
    selects the sub-tensor below [(row, col)]; an index outside its axis
    raises, a negative column counts from the end. *)
Definition selected_positions (s : list nat) (rows : tensor nat) (cols : tensor Z)
  : option (list nat) :=
  match s with
  | n :: c :: rest =>
      bs ← broadcast_shapes (shape rows) (shape cols);
      pairs ← mapM (λ rc : nat * Z,
                      ci ← np_index c rc.2;
                      if rc.1 <? n then Some (rc.1, ci) else None)
                   (zip (broadcast_to rows bs) (broadcast_to cols bs));
      Some (pairs ≫= λ rc, (λ k, (rc.1 * c + rc.2) * numel rest + k) <$> seq 0 (numel rest))
  | _ => None
  end.

(** [dx[rows, cols] -= 1]: the selected entries are read, decremented, and
    written back, so an entry selected twice is decremented once. *)
Definition decrement_at (dx : tensor R) (positions : list nat) : tensor R :=
  Tensor (shape dx)
    (foldl (λ acc p, <[p := (default 0 (data dx !! p) - 1)%R]> acc) (data dx) positions).

(** ** SoftmaxWithLoss (layers.py, lines 72-94) *)

Module SoftmaxWithLoss.

(** [y] and [t] hold references to tensor objects. *)
Record layer := Make {
  loss : option R;
  y : option loc;
  t : option loc
}.

Definition __init__ : layer := Make None None None.

(** Lines 85-94; the result is a new tensor. *)
Definition backward (self : layer) (h : heap) : option (tensor R) :=
  t_ref ← t self;
  y_ref ← y self;
  t_obj ← objs h !! t_ref;
  y_obj ← objs h !! y_ref;
  batch_size ← object_shape t_obj !! 0;
  if py_eq (getattr_size t_ref) (getattr_size y_ref) then
    dx ← tensor_zip Rminus (float_entries y_obj) (float_entries t_obj);
    Some (tmap (λ v, v / INR batch_size)%R dx)
  else
    match y_obj, t_obj with
    | FloatT y_, LongT t_ =>
        positions ← selected_positions (shape y_)
                      (Tensor [batch_size] (seq 0 batch_size)) t_;
        let dx := decrement_at y_ positions in
        Some (tmap (λ v, v / INR batch_size)%R dx)
    | _, _ => None
    end.

End SoftmaxWithLoss.

(** The two gradients of the specification: for a one-hot target,
    [(y - t) / batch_size]; for class indices, [y] with 1 subtracted at the
    true class of each row, divided by [batch_size]. *)
Definition one_hot_gradient (y t : tensor R) (batch_size : nat) : option (tensor R) :=
  dx ← tensor_zip Rminus y t;
  Some (tmap (λ v, v / INR batch_size)%R dx).

Definition class_index_gradient (y : tensor R) (t : list nat) (batch_size : nat)
  : tensor R :=
  match shape y with
  | [n; c] =>
      Tensor [n; c]
        (imap (λ p v, Rdiv (if decide (t !! (p / c) = Some (p mod c))
                            then Rminus v 1 else v)
                           (INR batch_size))
              (data y))
  | _ => y
  end.

(** ** The network: parameters, layers, load_params
    (CNN.py lines 188-196, VGG16.py lines 57-97 and 227-235) *)

Module Network.

(** A layer object with the references it holds.  [W] and [b] of a
    parameterized layer are references to tensor objects of the store. *)
Inductive layer :=
| ConvolutionL (W b : loc) (stride pad : Z)
| ReluL
| PoolingL (pool_h pool_w : nat) (stride : Z)
| AffineL (W b : loc).

(** [self.params] is a dict from names to tensor objects, [self.layers] an
    OrderedDict from names to layers (insertion order is forward order). *)
Record t := Make {
  params : gmap string loc;
  layers : list (string * layer)
}.

(** [str(n)] *)
Definition str (n : nat) : string := NilEmpty.string_of_uint (Nat.to_uint n).

Definition layer_W (l : layer) : option loc :=
  match l with
  | ConvolutionL W _ _ _ | AffineL W _ => Some W
  | _ => None
  end.

Definition layer_b (l : layer) : option loc :=
  match l with
  | ConvolutionL _ b _ _ | AffineL _ b => Some b
  | _ => None
  end.

(** [layer.W = w] and [layer.b = b]; on a layer without parameters the
    assignment creates an attribute that nothing reads. *)
Definition set_W (l : layer) (w : loc) : layer :=
  match l with
  | ConvolutionL _ b s p => ConvolutionL w b s p
  | AffineL _ b => AffineL w b
  | _ => l
  end.

Definition set_b (l : layer) (b : loc) : layer :=
  match l with
  | ConvolutionL w _ s p => ConvolutionL w b s p
  | AffineL w _ => AffineL w b
  | _ => l
  end.

(** [self.layers[key]], a KeyError when absent. *)
Fixpoint layers_get (ls : list (string * layer)) (key : string) : option layer :=
  match ls with
  | [] => None
  | (k, l) :: ls' => if decide (k = key) then Some l else layers_get ls' key
  end.

(** The layer object under [key] replaced by its updated state. *)
Fixpoint layers_update (ls : list (string * layer)) (key : string) (l' : layer)
  : list (string * layer) :=
  match ls with
  | [] => []
  | (k, l) :: ls' =>
      if decide (k = key) then (k, l') :: ls' else (k, l) :: layers_update ls' key l'
  end.

(** [pickle.load]: every tensor of the file becomes a new object. *)
Fixpoint unpickle (file : list (string * tensor R)) : Py (list (string * loc)) :=
  match file with
  | [] => ret []
  | (key, val) :: file' =>
      l <- alloc (FloatT val) ;;
      rest <- unpickle file' ;;
      ret ((key, l) :: rest)
  end.

(** One round of the loop of lines 194-196 (233-235 in VGG16.py). *)
Definition rebind (params : gmap string loc) (ls : option (list (string * layer)))
    (ik : nat * string) : option (list (string * layer)) :=
  ls ← ls;
  w ← params !! ("W" +:+ str (ik.1 + 1));
  l ← layers_get ls ik.2;
  let ls := layers_update ls ik.2 (set_W l w) in
  b ← params !! ("b" +:+ str (ik.1 + 1));
  l ← layers_get ls ik.2;
  Some (layers_update ls ik.2 (set_b l b)).

(** [load_params], the same text in CNN and in VGG16. *)
Definition load_params (self : t) (file : list (string * tensor R)) : Py t :=
  loaded <- unpickle file ;;
  let params := foldl (λ m kv, <[kv.1 := kv.2]> m) (params self) loaded in
  match foldl (rebind params) (Some (layers self))
          (imap (λ i key, (i, key)) ["Conv1"; "Affine1"; "Affine2"]%string) with
  | Some ls => ret (Make params ls)
  | None => raise
  end.

(** The names of VGG16's parameters in the order of creation:
    W1, b1, ..., W16, b16. *)
Definition VGG16_param_names : list string :=
  seq 1 16 ≫= λ i, ["W" +:+ str i; "b" +:+ str i].

(** Lines 72-73: every initial array becomes a tensor object. *)
Fixpoint make_tensors (names : list string) (init : string → tensor R)
  : Py (list (string * loc)) :=
  match names with
  | [] => ret []
  | key :: names' =>
      l <- alloc (FloatT (init key)) ;;
      rest <- make_tensors names' init ;;
      ret ((key, l) :: rest)
  end.

(** Lines 82-85: [Conv idx] on [W idx] and [b idx], followed by [Relu idx]. *)
Definition conv_relu (params : gmap string loc) (idx : nat)
  : option (list (string * layer)) :=
  w ← params !! ("W" +:+ str idx);
  b ← params !! ("b" +:+ str idx);
  Some [("Conv" +:+ str idx, ConvolutionL w b 1 1); ("Relu" +:+ str idx, ReluL)].

(** Lines 79-88: stage [i] has two convolutions, three from the third
    stage on, and ends in a pooling layer; [idx_c] counts the
    convolutions made so far. *)
Fixpoint conv_stages (params : gmap string loc) (sizes : list nat) (i idx_c : nat)
  : option (list (string * layer)) :=
  match sizes with
  | [] => Some []
  | n :: sizes' =>
      convs ← mapM (conv_relu params) (seq (idx_c + 1) n);
      rest ← conv_stages params sizes' (S i) (idx_c + n);
      Some (mjoin convs ++ [("Pool" +:+ str i, PoolingL 2 2 2)] ++ rest)
  end.

(** Lines 91-96: [Affine i] on [W (13 + i)] and [b (13 + i)]. *)
Definition affine_relu (params : gmap string loc) (idx_c i : nat)
  : option (list (string * layer)) :=
  w ← params !! ("W" +:+ str (idx_c + i));
  b ← params !! ("b" +:+ str (idx_c + i));
  Some (("Affine" +:+ str i, AffineL w b)
          :: if decide (i = 3) then [] else [("Relu" +:+ str (idx_c + i), ReluL)]).

(** [VGG16.__init__]: [init] gives the initial value drawn for each
    parameter. *)
Definition VGG16_init (init : string → tensor R) : Py t :=
  refs <- make_tensors VGG16_param_names init ;;
  let params : gmap string loc := list_to_map refs in
  match conv_stages params [2; 2; 3; 3; 3] 1 0,
        mapM (affine_relu params 13) (seq 1 3) with
  | Some convs, Some affines => ret (Make params (convs ++ mjoin affines))
  | _, _ => raise
  end.

(** The parameter names a layer of VGG16 goes by: [Conv i] has [W i] and
    [b i], [Affine i] has [W (13 + i)] and [b (13 + i)] (the constructor,
    and [gradient], lines 207-216). *)
Definition VGG16_convention : list (string * nat) :=
  ((λ i, ("Conv" +:+ str i, i)) <$> seq 1 13)
  ++ ((λ i, ("Affine" +:+ str i, 13 + i)) <$> seq 1 3).

(** The names of the base network: [Conv1], [Affine1], [Affine2] have
    parameters 1, 2, 3 ([CNN.gradient], lines 175-177). *)
Definition CNN_convention : list (string * nat) :=
  [("Conv1", 1); ("Affine1", 2); ("Affine2", 3)]%string.

(** The invariant of the data model: every layer of the convention holds
    in [W] and [b] the very objects the parameter mapping holds under its
    names. *)
Definition shares_parameters (convention : list (string * nat)) (self : t) : Prop :=
  ∀ key i, (key, i) ∈ convention →
    ∃ l w b,
      layers_get (layers self) key = Some l
      ∧ params self !! ("W" +:+ str i) = Some w
      ∧ params self !! ("b" +:+ str i) = Some b
      ∧ layer_W l = Some w
      ∧ layer_b l = Some b.

(** The invariant as a test, one layer of the convention at a time. *)
Definition layer_shares (self : t) (ki : string * nat) : bool :=
  match layers_get (layers self) ki.1,
        params self !! ("W" +:+ str ki.2), params self !! ("b" +:+ str ki.2) with
  | Some l, Some w, Some b =>
      bool_decide (layer_W l = Some w) && bool_decide (layer_b l = Some b)
  | _, _, _ => false
  end.

(** A parameter file as [save_params] writes it for VGG16: one tensor under
    each of the 32 names. *)
Definition VGG16_file (saved : string → tensor R) : list (string * tensor R) :=
  (λ name, (name, saved name)) <$> VGG16_param_names.

(** What [load_params] leaves behind on VGG16, as a test. *)
Definition misbound_after_load (net : t) : bool :=
  negb (forallb (layer_shares net) VGG16_convention)
  && bool_decide ((layers_get (layers net) "Conv1" ≫= layer_W) = params net !! "W1"%string)
  && bool_decide ((layers_get (layers net) "Affine1" ≫= layer_W) = params net !! "W2"%string)
  && bool_decide ((layers_get (layers net) "Affine1" ≫= layer_W) ≠ params net !! "W14"%string)
  && bool_decide ((layers_get (layers net) "Conv2" ≫= layer_W) ≠ params net !! "W2"%string)
  && bool_decide ((layers_get (layers net) "Affine3" ≫= layer_b) ≠ params net !! "b16"%string).

End Network.

(** The store before any tensor exists. *)
Definition empty_heap : heap := Heap ∅ 1%positive.
(** ** Counting in confusion matrices *)

(** The number of samples a confusion matrix has counted: the sum of all
    its entries. *)
Definition cm_total (cm : matrix) : nat := Nsum (Nsum <$> cm).

(** ** Batches of feature rows *)

(** Column [j] of a batch. *)
Definition column (x : list (list R)) (j : nat) : list R :=
  (λ row, default 0%R (row !! j)) <$> x.

(** The batch with the mean of every feature subtracted, and the variance
    of every feature of the batch. *)
Definition centered (x : list (list R)) : list (list R) :=
  (λ row, zip_with Rminus row (mean0 x)) <$> x.

Definition batch_var (x : list (list R)) : list R :=
  mean0 (square_entries (centered x)).

(** [momentum * old + (1 - momentum) * new], entry by entry. *)
Definition moving_averages (momentum : R) (old new : list R) : list R :=
  zip_with (λ r m, momentum * r + (1 - momentum) * m)%R old new.

(** The running statistics a forward pass works with: zeros when
    [running_mean] still is None (layers.py lines 145-148), the stored
    ones otherwise. *)
Definition initial_statistics (self : BatchNormalization.t) (d : nat)
  : option (list R * list R) :=
  match BatchNormalization.running_mean self with
  | None => Some (replicate d 0%R, replicate d 0%R)
  | Some rm => rv ← BatchNormalization.running_var self; Some (rm, rv)
  end.

(** ** Affine (layers.py, lines 42-69)

    [W] and [b] are the tensors the layer was built on; [.type] and [.to]
    change element type and device, which entries modelled as reals do not
    have. *)

Module Affine.

Record t := Make {
  W : tensor R;
  b : tensor R;
  x : option (tensor R);
  original_x_shape : option (list nat);
  dW : option (tensor R);
  db : option (tensor R)
}.

Definition __init__ (W b : tensor R) : t := Make W b None None None None.

(** Lines 53-61. [x.shape[0]] raises on a tensor without axes. *)
Definition forward (self : t) (x : tensor R) : option (tensor R * t) :=
  let original_x_shape := shape x in
  n ← shape x !! 0;
  x ← reshape x [Z.of_nat n; (-1)%Z];
  prod ← matmul x (W self);
  out ← tensor_zip Rplus prod (b self);
  Some (out, Make (W self) (b self) (Some x) (Some original_x_shape)
               (dW self) (db self)).

(** Lines 63-69. *)
Definition backward (self : t) (dout : tensor R) : option (tensor R * t) :=
  WT ← transpose (W self);
  dx ← matmul dout WT;
  x ← x self;
  xT ← transpose x;
  dW ← matmul xT dout;
  let db := sum_dim0 dout in
  s ← original_x_shape self;
  dx ← reshape dx (Z.of_nat <$> s);
  Some (dx, Make (W self) (b self) (Some x) (original_x_shape self)
              (Some dW) (Some db)).

End Affine.

(** ** Dropout (layers.py, lines 97-113) *)

Module Dropout.

(** The state of the generator is the sequence of numbers it is going to
    yield, all of them in [0, 1). *)
Record t := Make {
  dropout_ratio : R;
  mask : option (tensor bool);
  rng : nat → R
}.

Section Seeded.

(** The numbers [np.random.default_rng(43)] yields, in order: every layer
    is built on the same seed. *)
Variable default_rng_43 : nat → R.

Definition __init__ (dropout_ratio : R) : t := Make dropout_ratio None default_rng_43.

End Seeded.

(** A float tensor times a boolean one: true counts as 1, false as 0. *)
Definition times_mask (v : R) (m : bool) : R := (v * (if m then 1 else 0))%R.

(** Lines 103-110.  [rng.random(size=x.shape)] takes as many numbers from
    the generator as [x] has entries. *)
Definition forward (self : t) (x : tensor R) (train_flg : bool)
  : option (tensor R * t) :=
  if train_flg then
    let k := numel (shape x) in
    let drawn := rng self <$> seq 0 k in
    let mask := Tensor (shape x) ((λ u, Rltb (dropout_ratio self) u) <$> drawn) in
    out ← tensor_zip times_mask x mask;
    Some (out, Make (dropout_ratio self) (Some mask) (λ i, rng self (k + i)))
  else
    Some (tmap (λ v, v * (1 - dropout_ratio self))%R x, self).

(** Lines 112-113; [dout * None] raises. *)
Definition backward (self : t) (dout : tensor R) : option (tensor R) :=
  mask ← mask self;
  tensor_zip times_mask dout mask.

End Dropout.
(** ** Concrete inputs used by the examples below *)

Definition dout_example : tensor R := Tensor [3] [1%R; (-2)%R; 3%R].
Definition mask_example : tensor bool := Tensor [3] [true; false; true].
Definition heap_example : heap := Heap {[ 1%positive := FloatT dout_example ]} 2%positive.


(** A two-class network for the examples: the sample 0 scores highest on
    class 0, every other sample on class 1; it has no state. *)
Definition toy_predict (self : unit) (tx : list nat) (is_final : bool)
  : option (list (list R) * unit) :=
  Some ((λ s : nat, if s =? 0 then [1%R; 0%R] else [0%R; 1%R]) <$> tx, tt).

(** A batch-normalisation layer over one feature, just constructed. *)
Definition fresh_bn : BatchNormalization.t :=
  BatchNormalization.__init__ [1%R] [0%R] (9 / 10)%R None None.

(** The same layer after a forward pass has run: statistics and cache are
    set. *)
Definition used_bn : BatchNormalization.t :=
  BatchNormalization.Make [1%R] [0%R] (9 / 10)%R None
    (Some [1%R]) (Some [3%R]) (Some 2) (Some [[0%R]]) (Some [[0%R]]) (Some [1%R])
    None None.

(** A stand-in for im2col on a 3x3 image and a 2x2 kernel: four windows of
    four entries. *)
Definition toy_im2col (x : tensor R) (fh fw stride pad : Z) : option (tensor R) :=
  Some (Tensor [4; 4] (replicate 16 0%R)).

Definition toy_conv : Convolution.t :=
  Convolution.__init__ (Tensor [2; 1; 2; 2] (replicate 8 1%R))
    (Tensor [2] [0%R; 0%R]) 1 0.

Definition toy_image : tensor R := Tensor [1; 1; 3; 3] (replicate 9 1%R).

(** One 2x2 window: the image [[1, 3], [2, 0]], whose largest entry is at
    position 1 of the window. *)
Definition window_image : tensor R := Tensor [1; 1; 2; 2] [1%R; 3%R; 2%R; 0%R].

Definition window_im2col (x : tensor R) (fh fw stride pad : Z) : option (tensor R) :=
  Some (Tensor [1; 4] (data x)).

Definition window_col2im (dcol : tensor R) (s : list nat) (fh fw stride pad : Z)
  : option (tensor R) :=
  Some (Tensor s (data dcol)).

Definition window_pool : Pooling.t := Pooling.__init__ 2 2 2 0.

Definition window_pool_after_forward : Pooling.t :=
  Pooling.Make 2 2 2 0 (Some window_image) (Some [1]).

(** A softmax output for two samples and two classes, and the one-hot
    target (classes 1 and 0) as an integer tensor: two different objects of
    the store, referenced by the loss layer. *)
Definition y_example : tensor R := Tensor [2; 2] [(7 / 10)%R; (3 / 10)%R; (2 / 10)%R; (8 / 10)%R].
Definition t_one_hot : tensor Z := Tensor [2; 2] [0%Z; 1%Z; 1%Z; 0%Z].
Definition t_indices : tensor Z := Tensor [2] [1%Z; 0%Z].

Definition loss_heap_one_hot : heap :=
  Heap (<[2%positive := LongT t_one_hot]> {[ 1%positive := FloatT y_example ]}) 3%positive.

Definition loss_heap_indices : heap :=
  Heap (<[2%positive := LongT t_indices]> {[ 1%positive := FloatT y_example ]}) 3%positive.

Definition loss_layer : SoftmaxWithLoss.layer :=
  SoftmaxWithLoss.Make None (Some 1%positive) (Some 2%positive).

(** An input and a gradient of the same shape, two objects of the store. *)
Definition relu_gradient : tensor R := Tensor [3] [5%R; 6%R; 7%R].

Definition relu_heap : heap :=
  Heap (<[2%positive := FloatT relu_gradient]> {[ 1%positive := FloatT dout_example ]})
    3%positive.

(** An affine layer with two inputs and one output, a batch of two samples
    of shape (1, 2), and a gradient for its output. *)
Definition affine_example : Affine.t :=
  Affine.__init__ (Tensor [2; 1] [1%R; 2%R]) (Tensor [1] [3%R]).

Definition affine_input : tensor R := Tensor [2; 1; 2] [1%R; 0%R; 0%R; 1%R].

Definition affine_gradient : tensor R := Tensor [2; 1] [1%R; 1%R].

(** A dropout layer with ratio 1/2 on a generator that yields 1/4, 3/4,
    1/4, 3/4, ... *)
Definition dropout_example : Dropout.t :=
  Dropout.__init__ (λ i, if Nat.even i then (1 / 4)%R else (3 / 4)%R) (1 / 2)%R.

(** The toy convolution after a forward pass on the toy image, a gradient
    for its output, and a stand-in for col2im that returns zeros of the
    requested shape. *)
Definition toy_conv_pass : tensor R * Convolution.t :=
  default (Tensor [] [], toy_conv) (Convolution.forward toy_im2col toy_conv toy_image).

Definition toy_conv_gradient : tensor R := Tensor [1; 2; 2; 2] (replicate 8 1%R).

Definition toy_col2im (dcol : tensor R) (s : list nat) (fh fw stride pad : Z)
  : option (tensor R) :=
  Some (Tensor s (replicate (numel s) 0%R)).
(** ** Facts about masks *)

Lemma bind_replicate_1 {A} (l : list A) : l ≫= replicate 1 = l.
Proof. induction l as [|a l IH]; [done | by rewrite bind_cons, IH]. Qed.

Lemma expand_mask_same_shape (m : tensor bool) :
  expand_mask m (shape m) = data m.
Proof.
  unfold expand_mask. rewrite drop_all. exact (bind_replicate_1 (data m)).
Qed.

Lemma masked_fill_same_shape {A} (t : tensor A) (m : tensor bool) (v : A) :
  shape m = shape t →
  masked_fill t (Some m) v =
    Some (Tensor (shape t)
            (imap (λ i x, if default false (data m !! i) then v else x) (data t))).
Proof.
  intros Hs. unfold masked_fill.
  rewrite decide_True by (rewrite Hs; done).
  by rewrite <- Hs, expand_mask_same_shape.
Qed.

(** ** What Relu.forward records *)

(** forward makes a new tensor for its output, leaves the input object as
    it is, and records as mask the positions where the input is <= 0. *)
Lemma Relu_forward_records_mask (self : Relu.t) (x : loc) (xt : tensor R) (h : heap) :
  objs h !! x = Some (FloatT xt) →
  ∃ out : tensor R,
    Relu.forward self x h
      = Some ((next h, Relu.Make (Some (tmap Rle0b xt))),
              Heap (<[next h:=FloatT out]> (objs h)) (Pos.succ (next h)))
    ∧ shape out = shape xt
    ∧ data out = (λ v, if Rle0b v then 0%R else v) <$> data xt.
Proof.
  intros Hx. eexists. split.
  - unfold Relu.forward, bind, deref. rewrite Hx.
    unfold alloc, setitem_mask, bind, deref. cbn [objs next].
    rewrite lookup_insert_eq.
    rewrite (masked_fill_same_shape xt (tmap Rle0b xt) 0%R eq_refl).
    unfold assign, ret. cbn [objs next]. rewrite insert_insert_eq. reflexivity.
  - split; [done|]. cbn [data tmap]. apply list_eq. intros i.
    rewrite list_lookup_imap, !list_lookup_fmap.
    destruct (data xt !! i) as [v|]; [|done]. done.
Qed.

(** ** Relu.backward writes its argument *)

(** C9: Relu.backward zeroes the caller's tensor [dout] in place at the
    positions of the mask recorded by forward and returns that same object:
    the returned reference is [dout], the store differs from the old one
    only at [dout], whose shape is kept, whose masked entries are 0 and
    whose other entries are unchanged. *)
Theorem Relu_backward_mutates_dout
    (self : Relu.t) (dout : loc) (d : tensor R) (m : tensor bool) (h : heap) :
  objs h !! dout = Some (FloatT d) →
  Relu.mask self = Some m →
  shape m = shape d →
  ∃ d' : tensor R,
    Relu.backward self dout h = Some (dout, Heap (<[dout:=FloatT d']> (objs h)) (next h))
    ∧ shape d' = shape d
    ∧ length (data d') = length (data d)
    ∧ (∀ i x, data d !! i = Some x → data m !! i = Some true →
              data d' !! i = Some 0%R)
    ∧ (∀ i x, data d !! i = Some x → data m !! i ≠ Some true →
              data d' !! i = Some x).
Proof.
  intros Hd Hm Hs.
  eexists. split.
  - unfold Relu.backward, bind, setitem_mask, bind, deref.
    rewrite Hd, Hm. rewrite (masked_fill_same_shape d m 0%R Hs).
    unfold assign, ret. reflexivity.
  - simpl. split; [done|]. split; [by rewrite length_imap|].
    split; intros i x Hx Hmi; rewrite list_lookup_imap, Hx; simpl.
    + by rewrite Hmi.
    + destruct (data m !! i) as [[]|]; simpl; congruence.
Qed.

Lemma Relu_backward_mutates_dout_witness :
  ∃ d' : tensor R,
    Relu.backward (Relu.Make (Some mask_example)) 1%positive heap_example
      = Some (1%positive,
              Heap (<[1%positive:=FloatT d']> (objs heap_example)) (next heap_example))
    ∧ shape d' = shape dout_example
    ∧ length (data d') = length (data dout_example)
    ∧ (∀ i x, data dout_example !! i = Some x → data mask_example !! i = Some true →
              data d' !! i = Some 0%R)
    ∧ (∀ i x, data dout_example !! i = Some x → data mask_example !! i ≠ Some true →
              data d' !! i = Some x).
Proof.
  apply (Relu_backward_mutates_dout (Relu.Make (Some mask_example)) 1%positive
           dout_example mask_example heap_example); reflexivity.
Defined.


(** ** Deciding comparisons of concrete reals *)

Lemma Req0b_true (x : R) : x = 0%R → Req0b x = true.
Proof. intros ->. unfold Req0b. by destruct (Req_dec_T 0 0). Qed.

Lemma Req0b_false (x : R) : x ≠ 0%R → Req0b x = false.
Proof. intros H. unfold Req0b. by destruct (Req_dec_T x 0). Qed.

Lemma Rltb_true (a b : R) : (a < b)%R → Rltb a b = true.
Proof. intros H. unfold Rltb. by destruct (Rlt_dec a b). Qed.

Lemma Rltb_false (a b : R) : ¬ (a < b)%R → Rltb a b = false.
Proof. intros H. unfold Rltb. by destruct (Rlt_dec a b). Qed.

Lemma Rle0b_true (x : R) : (x <= 0)%R → Rle0b x = true.
Proof. intros H. unfold Rle0b. by destruct (Rle_dec x 0). Qed.

Lemma Rle0b_false (x : R) : ¬ (x <= 0)%R → Rle0b x = false.
Proof. intros H. unfold Rle0b. by destruct (Rle_dec x 0). Qed.

Arguments Req0b : simpl never.
Arguments Rltb : simpl never.
Arguments Rle0b : simpl never.

(** Evaluates the comparisons of concrete reals left in the goal. *)
Ltac Reval :=
  repeat match goal with
    | |- context [Rltb ?a ?b] =>
        first [rewrite (Rltb_true a b) by lra | rewrite (Rltb_false a b) by lra]
    | |- context [Req0b ?a] =>
        first [rewrite (Req0b_true a) by lra | rewrite (Req0b_false a) by lra]
    | |- context [Rle0b ?a] =>
        first [rewrite (Rle0b_true a) by lra | rewrite (Rle0b_false a) by lra]
    end.

(** ** Degenerate classes *)

Lemma lookup_precision (labels : nat) (cm : matrix) (i : nat) :
  i < labels →
  precision labels cm !! i =
    Some (if col_sum cm i =? 0 then Fin 0
          else np_div (Fin (INR (cm_get cm i i))) (Fin (INR (col_sum cm i)))).
Proof.
  intros Hi. unfold precision. rewrite list_lookup_fmap, lookup_seq_lt by done.
  done.
Qed.

Lemma lookup_recall (labels : nat) (cm : matrix) (i : nat) :
  i < labels →
  recall labels cm !! i =
    Some (if row_sum cm i =? 0 then Fin 0
          else np_div (Fin (INR (cm_get cm i i))) (Fin (INR (row_sum cm i)))).
Proof.
  intros Hi. unfold recall. rewrite list_lookup_fmap, lookup_seq_lt by done.
  done.
Qed.

Lemma accuracy_total (labels : nat) (cm : matrix) (n : nat) :
  0 < labels → is_Some (accuracy labels cm n).
Proof.
  intros Hl. unfold accuracy.
  destruct (Nat.eqb_spec labels 0); [lia | eauto].
Qed.

(** An entry of a list of counts is at most the sum of the list. *)
Lemma lookup_le_Nsum (l : list nat) :
  ∀ (i v : nat), l !! i = Some v → v ≤ Nsum l.
Proof.
  induction l as [|a l IH]; intros [|i] v Hi; try done.
  - injection Hi as ->. unfold Nsum. cbn. lia.
  - specialize (IH i v Hi). unfold Nsum in *. cbn. lia.
Qed.

Lemma cm_get_le_row_sum (cm : matrix) (i j : nat) : cm_get cm i j ≤ row_sum cm i.
Proof.
  unfold cm_get, row_sum. destruct (cm !! i) as [row|]; cbn; [|lia].
  destruct (row !! j) as [v|] eqn:Hv; cbn; [|lia]. by eapply lookup_le_Nsum.
Qed.

Lemma cm_get_le_col_sum (cm : matrix) (i j : nat) : cm_get cm i j ≤ col_sum cm j.
Proof.
  unfold cm_get, col_sum. destruct (cm !! i) as [row|] eqn:Hrow; cbn; [|lia].
  apply (lookup_le_Nsum _ i). by rewrite list_lookup_fmap, Hrow.
Qed.

(** The float64 quotient of two counts: nan for 0/0, the real quotient
    for a divisor that is not zero. *)
Lemma np_div_zero_zero : np_div (Fin (INR 0)) (Fin (INR 0)) = NaN.
Proof. cbn. by rewrite !Req0b_true by lra. Qed.

Lemma np_div_counts (a b : nat) :
  b ≠ 0 → np_div (Fin (INR a)) (Fin (INR b)) = Fin (INR a / INR b).
Proof.
  intros Hb. cbn. rewrite Req0b_false; [done|]. by apply not_0_INR.
Qed.

Lemma quotient_of_counts_in_unit_interval (a b : nat) :
  a ≤ b → b ≠ 0 → (0 <= INR a / INR b <= 1)%R.
Proof.
  intros Hab Hb.
  assert (Hpos : (0 < INR b)%R) by (apply lt_0_INR; lia).
  assert (Ha : (0 <= INR a)%R) by apply pos_INR.
  assert (Hle : (INR a <= INR b)%R) by (by apply le_INR).
  split.
  - apply Rmult_le_pos; [done|]. left. by apply Rinv_0_lt_compat.
  - apply (Rmult_le_reg_r (INR b)); [done|].
    unfold Rdiv. rewrite Rmult_assoc, Rinv_l by lra. lra.
Qed.

(** Every entry of the two lists is a finite number between 0 and 1. *)
Lemma precision_entries (labels : nat) (cm : matrix) :
  Forall (λ v, ∃ q, v = Fin q ∧ (0 <= q <= 1)%R) (precision labels cm).
Proof.
  unfold precision. apply Forall_fmap, Forall_forall. intros i _. cbn.
  destruct (Nat.eqb_spec (col_sum cm i) 0) as [Hz|Hz].
  - exists 0%R. split; [done | lra].
  - exists (INR (cm_get cm i i) / INR (col_sum cm i))%R.
    split; [by apply np_div_counts|].
    apply quotient_of_counts_in_unit_interval; [apply cm_get_le_col_sum | done].
Qed.

Lemma recall_entries (labels : nat) (cm : matrix) :
  Forall (λ v, ∃ q, v = Fin q ∧ (0 <= q <= 1)%R) (recall labels cm).
Proof.
  unfold recall. apply Forall_fmap, Forall_forall. intros i _. cbn.
  destruct (Nat.eqb_spec (row_sum cm i) 0) as [Hz|Hz].
  - exists 0%R. split; [done | lra].
  - exists (INR (cm_get cm i i) / INR (row_sum cm i))%R.
    split; [by apply np_div_counts|].
    apply quotient_of_counts_in_unit_interval; [apply cm_get_le_row_sum | done].
Qed.

Lemma np_sum_unit_interval (l : list np_float) :
  Forall (λ v, ∃ q, v = Fin q ∧ (0 <= q <= 1)%R) l →
  ∃ s, np_sum l = Fin s ∧ (0 <= s <= INR (length l))%R.
Proof.
  induction 1 as [|v l (q & -> & Hq) _ (s & Hs & Hb)].
  - exists 0%R. split; [done|]. cbn. lra.
  - exists (q + s)%R. split.
    + unfold np_sum in *. cbn [foldr]. rewrite Hs. done.
    + cbn [length]. rewrite S_INR. lra.
Qed.

(** The mean of such a list, when it is not empty, is again a finite
    number between 0 and 1; a single nan in the list would make it nan. *)
Lemma np_mean_unit_interval (l : list np_float) :
  l ≠ [] →
  Forall (λ v, ∃ q, v = Fin q ∧ (0 <= q <= 1)%R) l →
  ∃ m, np_mean l = Fin m ∧ (0 <= m <= 1)%R.
Proof.
  intros Hne Hl. destruct (np_sum_unit_interval l Hl) as (s & Hs & Hb).
  assert (Hpos : (0 < INR (length l))%R).
  { apply lt_0_INR. destruct l; [done | cbn; lia]. }
  exists (s / INR (length l))%R. split.
  - unfold np_mean. rewrite Hs. cbn. rewrite Req0b_false by lra. done.
  - split.
    + apply Rmult_le_pos; [lra|]. left. by apply Rinv_0_lt_compat.
    + apply (Rmult_le_reg_r (INR (length l))); [done|].
      unfold Rdiv. rewrite Rmult_assoc, Rinv_l by lra. lra.
Qed.

Lemma np_mean_with_nan (l1 l2 : list np_float) : np_mean (l1 ++ NaN :: l2) = NaN.
Proof.
  unfold np_mean.
  assert (Hs : np_sum (l1 ++ NaN :: l2) = NaN).
  { induction l1 as [|v l1 IH]; unfold np_sum in *; cbn [app foldr].
    - done.
    - rewrite IH. by destruct v. }
  by rewrite Hs.
Qed.

(** C8: once the batch loop of accuracy_f1score has built the confusion
    matrix, the function returns (no exception comes from the metrics) and
    the F1 it returns is computed from the per-class precision and recall
    lists.  For a class whose column sum (resp. row sum) is zero the
    float64 quotient the other classes get would be 0/0 = nan; the guard
    puts exactly 0 in the list instead, and a class with a nonzero
    denominator gets the quotient.  So every entry of the two lists is a
    finite number, and both macro averages are finite numbers between 0
    and 1. *)
Theorem degenerate_classes_get_zero
    {X net : Type} (predict : net → list X → bool → option (list (list R) * net))
    (output_size : nat) (self self' : net) (x : list X) (t : target) (tl : list Z)
    (batch_size : nat) (is_final : bool) (cm : matrix) :
  0 < output_size →
  batch_size ≠ 0 →
  class_labels t = Some tl →
  eval_batches predict x tl batch_size is_final output_size self = Some (cm, self') →
  (∃ acc,
      accuracy_f1score predict output_size self x t batch_size is_final
      = Some (acc,
              f1score (np_mean (precision output_size cm))
                      (np_mean (recall output_size cm)),
              cm, self'))
  ∧ length (precision output_size cm) = output_size
  ∧ length (recall output_size cm) = output_size
  ∧ (∀ i, i < output_size →
      (col_sum cm i = 0 →
         precision output_size cm !! i = Some (Fin 0)
         ∧ np_div (Fin (INR (cm_get cm i i))) (Fin (INR (col_sum cm i))) = NaN)
      ∧ (row_sum cm i = 0 →
         recall output_size cm !! i = Some (Fin 0)
         ∧ np_div (Fin (INR (cm_get cm i i))) (Fin (INR (row_sum cm i))) = NaN)
      ∧ (col_sum cm i ≠ 0 →
         precision output_size cm !! i
         = Some (Fin (INR (cm_get cm i i) / INR (col_sum cm i))))
      ∧ (row_sum cm i ≠ 0 →
         recall output_size cm !! i
         = Some (Fin (INR (cm_get cm i i) / INR (row_sum cm i)))))
  ∧ (∃ p r,
      np_mean (precision output_size cm) = Fin p
      ∧ np_mean (recall output_size cm) = Fin r
      ∧ (0 <= p <= 1)%R ∧ (0 <= r <= 1)%R).
Proof.
  intros Hl Hb Ht Hrun.
  assert (Hseq : seq 0 output_size ≠ []) by (destruct output_size; [lia | done]).
  split; [|split; [|split; [|split]]].
  - destruct (accuracy_total output_size cm (length x) Hl) as [acc Hacc].
    exists acc. unfold accuracy_f1score. rewrite Ht. simpl.
    destruct (Nat.eqb_spec batch_size 0); [done|].
    rewrite Hrun. simpl. rewrite Hacc. done.
  - unfold precision. by rewrite length_fmap, length_seq.
  - unfold recall. by rewrite length_fmap, length_seq.
  - intros i Hi. split; [|split; [|split]].
    + intros Hz. split.
      * rewrite lookup_precision by done. by rewrite Hz.
      * pose proof (cm_get_le_col_sum cm i i) as Hle.
        replace (cm_get cm i i) with 0 by lia. rewrite Hz.
        apply np_div_zero_zero.
    + intros Hz. split.
      * rewrite lookup_recall by done. by rewrite Hz.
      * pose proof (cm_get_le_row_sum cm i i) as Hle.
        replace (cm_get cm i i) with 0 by lia. rewrite Hz.
        apply np_div_zero_zero.
    + intros Hz. rewrite lookup_precision by done.
      destruct (Nat.eqb_spec (col_sum cm i) 0); [done|].
      by rewrite np_div_counts.
    + intros Hz. rewrite lookup_recall by done.
      destruct (Nat.eqb_spec (row_sum cm i) 0); [done|].
      by rewrite np_div_counts.
  - destruct (np_mean_unit_interval (precision output_size cm)) as (p & Hp & Hpb).
    { unfold precision. by destruct (seq 0 output_size). }
    { apply precision_entries. }
    destruct (np_mean_unit_interval (recall output_size cm)) as (r & Hr & Hrb).
    { unfold recall. by destruct (seq 0 output_size). }
    { apply recall_entries. }
    by exists p, r.
Qed.

Lemma toy_run_one_hit :
  eval_batches toy_predict [0] [0%Z] 1 false 2 tt = Some ([[1; 0]; [0; 0]], tt).
Proof.
  unfold eval_batches, eval_batch, toy_predict. simpl. Reval. reflexivity.
Qed.

Lemma degenerate_classes_get_zero_witness :
  (∃ acc,
      accuracy_f1score toy_predict 2 tt [0] (ClassIndices [0%Z]) 1 false
      = Some (acc,
              f1score (np_mean (precision 2 [[1; 0]; [0; 0]]))
                      (np_mean (recall 2 [[1; 0]; [0; 0]])),
              [[1; 0]; [0; 0]], tt))
  ∧ length (precision 2 [[1; 0]; [0; 0]]) = 2
  ∧ length (recall 2 [[1; 0]; [0; 0]]) = 2
  ∧ (∀ i, i < 2 →
      (col_sum [[1; 0]; [0; 0]] i = 0 →
         precision 2 [[1; 0]; [0; 0]] !! i = Some (Fin 0)
         ∧ np_div (Fin (INR (cm_get [[1; 0]; [0; 0]] i i)))
                  (Fin (INR (col_sum [[1; 0]; [0; 0]] i))) = NaN)
      ∧ (row_sum [[1; 0]; [0; 0]] i = 0 →
         recall 2 [[1; 0]; [0; 0]] !! i = Some (Fin 0)
         ∧ np_div (Fin (INR (cm_get [[1; 0]; [0; 0]] i i)))
                  (Fin (INR (row_sum [[1; 0]; [0; 0]] i))) = NaN)
      ∧ (col_sum [[1; 0]; [0; 0]] i ≠ 0 →
         precision 2 [[1; 0]; [0; 0]] !! i
         = Some (Fin (INR (cm_get [[1; 0]; [0; 0]] i i)
                      / INR (col_sum [[1; 0]; [0; 0]] i))))
      ∧ (row_sum [[1; 0]; [0; 0]] i ≠ 0 →
         recall 2 [[1; 0]; [0; 0]] !! i
         = Some (Fin (INR (cm_get [[1; 0]; [0; 0]] i i)
                      / INR (row_sum [[1; 0]; [0; 0]] i)))))
  ∧ (∃ p r,
      np_mean (precision 2 [[1; 0]; [0; 0]]) = Fin p
      ∧ np_mean (recall 2 [[1; 0]; [0; 0]]) = Fin r
      ∧ (0 <= p <= 1)%R ∧ (0 <= r <= 1)%R).
Proof.
  apply (degenerate_classes_get_zero toy_predict 2 tt tt [0] (ClassIndices [0%Z])
           [0%Z] 1 false [[1; 0]; [0; 0]]).
  - lia.
  - discriminate.
  - reflexivity.
  - exact toy_run_one_hit.
Defined.

(** ** The unguarded F1 quotient *)

Lemma f1score_zero_zero : f1score (Fin 0) (Fin 0) = NaN.
Proof.
  unfold f1score. simpl.
  rewrite Req0b_true by lra. rewrite Req0b_true by lra. done.
Qed.

Lemma np_sum_zeros (l : list np_float) :
  Forall (λ v, v = Fin 0) l → np_sum l = Fin 0.
Proof.
  induction 1 as [|v l -> _ IH]; [done|].
  unfold np_sum in *. cbn [foldr]. rewrite IH. cbn. f_equal. lra.
Qed.

Lemma np_mean_zeros (l : list np_float) :
  l ≠ [] → Forall (λ v, v = Fin 0) l → np_mean l = Fin 0.
Proof.
  intros Hne Hz. unfold np_mean. rewrite (np_sum_zeros l Hz). simpl.
  rewrite Req0b_false.
  - f_equal. unfold Rdiv. lra.
  - destruct l; [done|]. apply not_0_INR. simpl. lia.
Qed.

(** With no hit on the diagonal both macro averages are 0. *)
Lemma averages_zero_without_hits (labels : nat) (cm : matrix) :
  0 < labels →
  (∀ i, i < labels → cm_get cm i i = 0) →
  precision_avg labels cm = Fin 0 ∧ recall_avg labels cm = Fin 0.
Proof.
  intros Hl Hd.
  assert (Hseq : seq 0 labels ≠ []) by (destruct labels; [lia | done]).
  split; apply np_mean_zeros.
  - unfold precision. by destruct (seq 0 labels).
  - unfold precision. apply Forall_fmap, Forall_forall. intros i Hi.
    apply elem_of_seq in Hi. unfold compose. cbn beta. rewrite Hd by lia.
    destruct (Nat.eqb_spec (col_sum cm i) 0); [done|].
    rewrite np_div_counts by done. f_equal. simpl. unfold Rdiv. lra.
  - unfold recall. by destruct (seq 0 labels).
  - unfold recall. apply Forall_fmap, Forall_forall. intros i Hi.
    apply elem_of_seq in Hi. unfold compose. cbn beta. rewrite Hd by lia.
    destruct (Nat.eqb_spec (row_sum cm i) 0); [done|].
    rewrite np_div_counts by done. f_equal. simpl. unfold Rdiv. lra.
Qed.

(** C10: the F1 quotient of accuracy_f1score has no guard: in every run
    that returns with macro-averaged precision and recall both 0, the
    quotient is 0/0 and the F1 returned is nan (neither 0 nor an
    exception). *)
Theorem f1score_is_nan_when_averages_vanish
    {X net : Type} (predict : net → list X → bool → option (list (list R) * net))
    (output_size : nat) (self self' : net) (x : list X) (t : target)
    (batch_size : nat) (is_final : bool) (acc f1 : np_float) (cm : matrix) :
  accuracy_f1score predict output_size self x t batch_size is_final
    = Some (acc, f1, cm, self') →
  precision_avg output_size cm = Fin 0 →
  recall_avg output_size cm = Fin 0 →
  f1 = NaN.
Proof.
  intros Hrun Hp Hr. unfold accuracy_f1score in Hrun.
  destruct (class_labels t) as [tl|]; [simpl in Hrun | done].
  destruct (batch_size =? 0); [done|].
  destruct (eval_batches _ _ _ _ _ _ _) as [[cm0 s0]|]; [simpl in Hrun | done].
  destruct (accuracy _ _ _) as [a|]; [simpl in Hrun | done].
  injection Hrun as <- <- <- <-.
  rewrite Hp, Hr. apply f1score_zero_zero.
Qed.

Lemma toy_run_one_miss :
  accuracy_f1score toy_predict 2 tt [0] (ClassIndices [1%Z]) 1 false
  = Some (Fin 0, NaN, [[0; 0]; [1; 0]], tt).
Proof.
  unfold accuracy_f1score, eval_batches, eval_batch, toy_predict. simpl.
  Reval. simpl.
  destruct (averages_zero_without_hits 2 [[0; 0]; [1; 0]]) as [-> ->].
  - lia.
  - intros [|[|i]] Hi; [done | done | lia].
  - rewrite f1score_zero_zero. unfold accuracy. simpl.
    replace (0 / 1)%R with 0%R by field. reflexivity.
Qed.

Lemma f1score_is_nan_when_averages_vanish_witness :
  ∃ f1,
    accuracy_f1score toy_predict 2 tt [0] (ClassIndices [1%Z]) 1 false
      = Some (Fin 0, f1, [[0; 0]; [1; 0]], tt)
    ∧ f1 = NaN.
Proof.
  exists NaN. split; [exact toy_run_one_miss|].
  apply (f1score_is_nan_when_averages_vanish toy_predict 2 tt tt [0]
           (ClassIndices [1%Z]) 1 false (Fin 0) NaN [[0; 0]; [1; 0]]).
  - exact toy_run_one_miss.
  - apply (averages_zero_without_hits 2 [[0; 0]; [1; 0]]); [lia|].
    intros [|[|i]] Hi; [done | done | lia].
  - apply (averages_zero_without_hits 2 [[0; 0]; [1; 0]]); [lia|].
    intros [|[|i]] Hi; [done | done | lia].
Defined.

(** ** Confusion matrices of perfect predictions *)

Lemma square_zeros (labels : nat) : square labels (cm_zeros labels).
Proof.
  unfold square, cm_zeros. split; [by rewrite length_replicate|].
  apply Forall_replicate. by rewrite length_replicate.
Qed.

Lemma cm_get_zeros (labels i j : nat) : cm_get (cm_zeros labels) i j = 0.
Proof.
  unfold cm_get, cm_zeros.
  destruct (decide (i < labels)) as [Hi|Hi].
  - rewrite lookup_replicate_2 by done. simpl.
    destruct (decide (j < labels)) as [Hj|Hj].
    + by rewrite lookup_replicate_2.
    + by rewrite (lookup_ge_None_2 _ j) by (rewrite length_replicate; lia).
  - by rewrite (lookup_ge_None_2 _ i) by (rewrite length_replicate; lia).
Qed.

Lemma np_index_of_nat (n r : nat) : r < n → np_index n (Z.of_nat r) = Some r.
Proof.
  intros Hr. unfold np_index.
  replace ((0 <=? Z.of_nat r)%Z && (Z.of_nat r <? Z.of_nat n)%Z) with true.
  - by rewrite Nat2Z.id.
  - symmetry. apply andb_true_iff. split; [apply Z.leb_le | apply Z.ltb_lt]; lia.
Qed.

Lemma cm_incr_square (labels : nat) (cm : matrix) (r c : nat) :
  square labels cm → r < labels → c < labels →
  ∃ cm', cm_incr cm (Z.of_nat r) c = Some cm'
         ∧ square labels cm'
         ∧ ∀ i j, cm_get cm' i j =
                  cm_get cm i j + (if decide (i = r ∧ j = c) then 1 else 0).
Proof.
  intros [Hlen Hrows] Hr Hc.
  destruct (lookup_lt_is_Some_2 cm r) as [row Hrow]; [lia|].
  assert (Hrl : length row = labels).
  { eapply Forall_lookup_1 in Hrows; [exact Hrows | exact Hrow]. }
  destruct (lookup_lt_is_Some_2 row c) as [v Hv]; [lia|].
  exists (<[r := <[c := S v]> row]> cm). split; [|split].
  - unfold cm_incr. rewrite np_index_of_nat by lia. simpl.
    rewrite Hrow. simpl. rewrite Hv. done.
  - split; [by rewrite length_insert|].
    apply Forall_insert; [done | by rewrite length_insert].
  - intros i j. unfold cm_get.
    destruct (decide (i = r)) as [->|Hir].
    + rewrite list_lookup_insert_eq by lia. rewrite Hrow. simpl.
      destruct (decide (j = c)) as [->|Hjc].
      * rewrite list_lookup_insert_eq by lia. rewrite Hv. simpl.
        rewrite decide_True by done. lia.
      * rewrite list_lookup_insert_ne by done.
        rewrite decide_False by (intros [_ ?]; done). lia.
    + rewrite list_lookup_insert_ne by done.
      rewrite decide_False by (intros [? _]; done). lia.
Qed.

Lemma occurrences_snoc (c : nat) (l : list Z) (r : nat) :
  occurrences c (l ++ [Z.of_nat r]) =
    occurrences c l + (if decide (c = r) then 1 else 0).
Proof.
  unfold occurrences. rewrite count_occ_app. simpl.
  destruct (Z.eq_dec (Z.of_nat r) (Z.of_nat c)) as [He|He];
    destruct (decide (c = r)) as [Hd|Hd]; try done; lia.
Qed.

(** Counting a batch whose predictions [y] equal its labels. *)
Lemma count_batch_perfect (labels : nat) (y : list nat) :
  ∀ (cm : matrix) (tt : list Z) (j : nat) (l : list Z),
    square labels cm →
    counts_on_diagonal cm l →
    drop j tt = Z.of_nat <$> y →
    Forall (λ c, c < labels) y →
    ∃ cm', count_batch cm tt j y = Some cm'
           ∧ square labels cm'
           ∧ counts_on_diagonal cm' (l ++ drop j tt).
Proof.
  induction y as [|c y IH]; intros cm tt j l Hsq Hcnt Hd Hy.
  - exists cm. simpl. rewrite Hd. simpl. by rewrite app_nil_r.
  - simpl in Hd. apply Forall_cons in Hy as [Hc Hy].
    assert (Htj : tt !! j = Some (Z.of_nat c)).
    { rewrite <- (Nat.add_0_r j), <- lookup_drop, Hd. done. }
    assert (Hd' : drop (S j) tt = Z.of_nat <$> y).
    { replace (S j) with (j + 1) by lia. rewrite <- drop_drop, Hd. done. }
    destruct (cm_incr_square labels cm c c Hsq Hc Hc) as (cm1 & Hincr & Hsq1 & Hget).
    destruct (IH cm1 tt (S j) (l ++ [Z.of_nat c]) Hsq1) as (cm' & Hrun & Hsq' & Hcnt');
      [ | done | done | ].
    + intros i k. rewrite Hget, Hcnt, occurrences_snoc.
      destruct (decide (i = k)) as [->|Hik].
      * destruct (decide (k = c)) as [->|Hkc].
        -- by rewrite decide_True.
        -- by rewrite decide_False by (intros [? _]; done).
      * rewrite decide_False by (intros [-> ->]; done). lia.
    + exists cm'. split; [|split; [done|]].
      * simpl. rewrite Htj. simpl. rewrite Hincr. simpl. done.
      * rewrite Hd. rewrite Hd' in Hcnt'. simpl.
        by rewrite <- app_assoc in Hcnt'.
Qed.

Lemma classes_in_range (labels : nat) (tl tt : list Z) (y : list nat) :
  Forall (λ c, (0 ≤ c < Z.of_nat labels)%Z) tl →
  tt ⊆ tl →
  Z.of_nat <$> y = tt →
  Forall (λ c, c < labels) y.
Proof.
  intros Hr Hsub <-. apply Forall_forall. intros c Hc.
  rewrite Forall_forall in Hr.
  assert (Hin : Z.of_nat c ∈ tl).
  { apply Hsub. apply list_elem_of_fmap. eauto. }
  specialize (Hr (Z.of_nat c) Hin). simpl in Hr. lia.
Qed.

Lemma take_drop_subseteq {A} (l : list A) (n m : nat) : take n (drop m l) ⊆ l.
Proof.
  etrans; [apply subseteq_take | apply subseteq_drop].
Qed.

Section PerfectRun.

Context {X net : Type}.
Variable predict : net → list X → bool → option (list (list R) * net).
Variables (x : list X) (tl : list Z) (batch_size labels : nat) (is_final : bool).
Hypothesis labels_in_range : Forall (λ c, (0 ≤ c < Z.of_nat labels)%Z) tl.

Lemma eval_batch_round (i : nat) (cm cm1 : matrix) (self self1 : net)
    (scores : list (list R)) (y : list nat) :
  predict self (take batch_size (drop (i * batch_size) x)) (is_final && (i =? 0))
    = Some (scores, self1) →
  mapM argmax scores = Some y →
  count_batch cm (take batch_size (drop (i * batch_size) tl)) 0 y = Some cm1 →
  eval_batch predict x tl batch_size is_final (Some (cm, self)) i = Some (cm1, self1).
Proof.
  intros Hp Hy Hc. unfold eval_batch. simpl. rewrite Hp. simpl.
  rewrite Hy. simpl. rewrite Hc. done.
Qed.

(** The rounds [i, i + n) of the batch loop, when each of them predicts the
    labels of its batch. *)
Lemma eval_rounds_perfect (n : nat) :
  ∀ (i : nat) (cm : matrix) (self : net) (ys : list (list nat)),
    square labels cm →
    counts_on_diagonal cm (take (i * batch_size) tl) →
    predicted_classes predict x batch_size is_final self i n = Some ys →
    (∀ k y, ys !! k = Some y →
            Z.of_nat <$> y = take batch_size (drop ((i + k) * batch_size) tl)) →
    ∃ cm' self',
      foldl (eval_batch predict x tl batch_size is_final) (Some (cm, self)) (seq i n)
        = Some (cm', self')
      ∧ square labels cm'
      ∧ counts_on_diagonal cm' (take ((i + n) * batch_size) tl).
Proof.
  induction n as [|n IH]; intros i cm self ys Hsq Hcnt Hpred Hys.
  - exists cm, self. simpl. by rewrite Nat.add_0_r.
  - simpl in Hpred.
    destruct (predict self (take batch_size (drop (i * batch_size) x))
                (is_final && (i =? 0))) as [[scores self1]|] eqn:Hp; [|done].
    simpl in Hpred.
    destruct (mapM argmax scores) as [y|] eqn:Hy; [|done]. simpl in Hpred.
    destruct (predicted_classes predict x batch_size is_final self1 (S i) n)
      as [ys'|] eqn:Hrest; [|done].
    simpl in Hpred. injection Hpred as <-.
    assert (Hy0 : Z.of_nat <$> y = take batch_size (drop (i * batch_size) tl)).
    { rewrite (Hys 0 y) by done. by rewrite Nat.add_0_r. }
    destruct (count_batch_perfect labels y cm
                (take batch_size (drop (i * batch_size) tl)) 0
                (take (i * batch_size) tl) Hsq Hcnt)
      as (cm1 & Hcount & Hsq1 & Hcnt1).
    { by rewrite drop_0. }
    { eapply classes_in_range; [exact labels_in_range | | exact Hy0].
      apply take_drop_subseteq. }
    rewrite drop_0, take_take_drop in Hcnt1.
    destruct (IH (S i) cm1 self1 ys' Hsq1) as (cm' & self' & Hfold & Hsq' & Hcnt').
    + replace (S i * batch_size) with (i * batch_size + batch_size) by lia. done.
    + done.
    + intros k y' Hk. rewrite (Hys (S k) y') by done.
      by replace (i + S k) with (S i + k) by lia.
    + exists cm', self'. split; [|split; [done|]].
      * cbn [seq foldl].
        rewrite (eval_batch_round i cm cm1 self self1 scores y Hp Hy Hcount).
        exact Hfold.
      * by replace (i + S n) with (S i + n) by lia.
Qed.

End PerfectRun.

(** ** Sums over the classes *)

Lemma Nsum_cons (a : nat) (l : list nat) : Nsum (a :: l) = a + Nsum l.
Proof. reflexivity. Qed.

Lemma Nsum_app (l k : list nat) : Nsum (l ++ k) = Nsum l + Nsum k.
Proof.
  induction l as [|a l IH]; [done|].
  rewrite <- app_comm_cons, !Nsum_cons, IH. lia.
Qed.

Lemma Nsum_fmap_zero (f : nat → nat) (l : list nat) :
  (∀ j, j ∈ l → f j = 0) → Nsum (f <$> l) = 0.
Proof.
  induction l as [|a l IH]; intros Hf; [done|].
  rewrite fmap_cons, Nsum_cons. rewrite Hf by left.
  rewrite IH; [done|]. intros j Hj. apply Hf. by right.
Qed.

Lemma Nsum_fmap_single (f : nat → nat) (n i : nat) :
  i < n → (∀ j, j ≠ i → f j = 0) → Nsum (f <$> seq 0 n) = f i.
Proof.
  induction n as [|n IH]; intros Hi Hz; [lia|].
  rewrite seq_S, fmap_app, Nsum_app.
  change (Nsum (f <$> [0 + n])) with (f n + 0).
  destruct (decide (i = n)) as [->|Hne].
  - rewrite Nsum_fmap_zero; [lia|].
    intros j Hj. apply elem_of_seq in Hj. apply Hz. lia.
  - rewrite IH by (done || lia). rewrite (Hz n) by done. lia.
Qed.

Lemma Nsum_fmap_plus (f g : nat → nat) (l : list nat) :
  Nsum ((λ j, f j + g j) <$> l) = Nsum (f <$> l) + Nsum (g <$> l).
Proof.
  induction l as [|a l IH]; [done|].
  rewrite !fmap_cons, !Nsum_cons, IH. lia.
Qed.

Lemma Nsum_by_index (l : list nat) :
  Nsum l = Nsum ((λ j, default 0 (l !! j)) <$> seq 0 (length l)).
Proof.
  f_equal. apply list_eq. intros k. rewrite list_lookup_fmap.
  destruct (decide (k < length l)) as [Hk|Hk].
  - rewrite lookup_seq_lt by done. simpl.
    destruct (lookup_lt_is_Some_2 l k Hk) as [v ->]. done.
  - rewrite lookup_seq_ge by lia. simpl. apply lookup_ge_None_2. lia.
Qed.

Lemma col_sum_by_index (cm : matrix) (i : nat) :
  col_sum cm i = Nsum ((λ r, cm_get cm r i) <$> seq 0 (length cm)).
Proof.
  unfold col_sum. f_equal. apply list_eq. intros k.
  rewrite !list_lookup_fmap.
  destruct (decide (k < length cm)) as [Hk|Hk].
  - rewrite lookup_seq_lt by done. simpl. unfold cm_get.
    destruct (lookup_lt_is_Some_2 cm k Hk) as [row ->]. done.
  - rewrite lookup_seq_ge by lia. rewrite lookup_ge_None_2 by lia. done.
Qed.

Lemma row_sum_by_index (labels : nat) (cm : matrix) (i : nat) :
  square labels cm → i < labels →
  row_sum cm i = Nsum ((λ j, cm_get cm i j) <$> seq 0 labels).
Proof.
  intros [Hlen Hrows] Hi. unfold row_sum, cm_get.
  destruct (lookup_lt_is_Some_2 cm i) as [row Hrow]; [lia|].
  rewrite Hrow. simpl.
  assert (Hrl : length row = labels).
  { eapply Forall_lookup_1 in Hrows; [exact Hrows | exact Hrow]. }
  rewrite (Nsum_by_index row), Hrl. done.
Qed.

Lemma occurrences_cons (c : nat) (v : Z) (l : list Z) :
  occurrences c (v :: l) =
    (if decide (v = Z.of_nat c) then 1 else 0) + occurrences c l.
Proof.
  unfold occurrences. simpl.
  destruct (Z.eq_dec v (Z.of_nat c)); destruct (decide (v = Z.of_nat c));
    try done; lia.
Qed.

Lemma occurrences_total (labels : nat) (l : list Z) :
  Forall (λ c, (0 ≤ c < Z.of_nat labels)%Z) l →
  Nsum ((λ i, occurrences i l) <$> seq 0 labels) = length l.
Proof.
  induction 1 as [|v l Hv _ IH].
  - apply Nsum_fmap_zero. done.
  - cbn [length]. rewrite <- IH.
    rewrite (list_fmap_ext _
               (λ i, (if decide (v = Z.of_nat i) then 1 else 0) + occurrences i l)
               (seq 0 labels))
      by (intros; apply occurrences_cons).
    rewrite (Nsum_fmap_plus (λ i, if decide (v = Z.of_nat i) then 1 else 0)).
    rewrite (Nsum_fmap_single _ labels (Z.to_nat v)); [ | lia | ].
    + rewrite decide_True by lia. done.
    + intros j Hj. rewrite decide_False by lia. done.
Qed.

Lemma occurrences_positive (c : nat) (l : list Z) :
  Z.of_nat c ∈ l → 0 < occurrences c l.
Proof.
  intros Hin. unfold occurrences. apply count_occ_In. by apply list_elem_of_In.
Qed.

Section PerfectMatrix.

Variables (labels : nat) (cm : matrix) (tl : list Z).
Hypothesis cm_square : square labels cm.
Hypothesis cm_counts : counts_on_diagonal cm tl.

Lemma perfect_diag (i : nat) : cm_get cm i i = occurrences i tl.
Proof. rewrite cm_counts. by rewrite decide_True. Qed.

Lemma perfect_off_diag (i j : nat) : i ≠ j → cm_get cm i j = 0.
Proof. intros Hne. rewrite cm_counts. by rewrite decide_False. Qed.

Lemma perfect_col_sum (i : nat) : i < labels → col_sum cm i = occurrences i tl.
Proof.
  intros Hi. rewrite col_sum_by_index. destruct cm_square as [-> _].
  rewrite (Nsum_fmap_single _ labels i Hi).
  - apply perfect_diag.
  - intros j Hj. by apply perfect_off_diag.
Qed.

Lemma perfect_row_sum (i : nat) : i < labels → row_sum cm i = occurrences i tl.
Proof.
  intros Hi. rewrite (row_sum_by_index labels) by done.
  rewrite (Nsum_fmap_single _ labels i Hi).
  - apply perfect_diag.
  - intros j Hj. by apply perfect_off_diag.
Qed.

Lemma perfect_diag_sum :
  Forall (λ c, (0 ≤ c < Z.of_nat labels)%Z) tl → diag_sum labels cm = length tl.
Proof.
  intros Hr. unfold diag_sum. rewrite <- (occurrences_total labels tl Hr).
  f_equal. apply list_fmap_ext. intros _ i _. apply perfect_diag.
Qed.

End PerfectMatrix.

(** ** The metrics of a perfect run *)

Lemma np_div_self (n : nat) : 0 < n → np_div (Fin (INR n)) (Fin (INR n)) = Fin 1.
Proof.
  intros Hn. assert (INR n ≠ 0%R) by (apply not_0_INR; lia).
  simpl. rewrite Req0b_false by done. f_equal. by field.
Qed.

Lemma np_sum_ones (l : list np_float) :
  Forall (λ v, v = Fin 1) l → np_sum l = Fin (INR (length l)).
Proof.
  induction 1 as [|v l -> _ IH]; [done|].
  cbn [length]. rewrite S_INR. unfold np_sum in *. cbn [foldr]. rewrite IH.
  cbn. f_equal. lra.
Qed.

Lemma np_mean_ones (l : list np_float) :
  l ≠ [] → Forall (λ v, v = Fin 1) l → np_mean l = Fin 1.
Proof.
  intros Hne Hl. unfold np_mean. rewrite (np_sum_ones l Hl).
  apply np_div_self. destruct l; [done | simpl; lia].
Qed.

Lemma f1score_one_one : f1score (Fin 1) (Fin 1) = Fin 1.
Proof.
  unfold f1score. simpl. rewrite Req0b_false by lra. f_equal. field.
Qed.

Lemma perfect_averages (labels : nat) (cm : matrix) (tl : list Z) :
  0 < labels →
  square labels cm →
  counts_on_diagonal cm tl →
  (∀ c, c < labels → Z.of_nat c ∈ tl) →
  precision_avg labels cm = Fin 1 ∧ recall_avg labels cm = Fin 1.
Proof.
  intros Hl Hsq Hcnt Hall.
  assert (Hseq : seq 0 labels ≠ []) by (destruct labels; [lia | done]).
  assert (Hpos : ∀ i, i < labels → INR (occurrences i tl) ≠ 0%R).
  { intros i Hi. apply not_0_INR. specialize (occurrences_positive i tl (Hall i Hi)). lia. }
  split; apply np_mean_ones.
  - unfold precision. by destruct (seq 0 labels).
  - unfold precision. apply Forall_fmap, Forall_forall. intros i Hi.
    apply elem_of_seq in Hi. unfold compose. cbn beta.
    rewrite (perfect_col_sum labels cm tl Hsq Hcnt) by lia.
    rewrite (perfect_diag cm tl Hcnt).
    destruct (Nat.eqb_spec (occurrences i tl) 0) as [He|He].
    + specialize (occurrences_positive i tl (Hall i ltac:(lia))). lia.
    + apply np_div_self. lia.
  - unfold recall. by destruct (seq 0 labels).
  - unfold recall. apply Forall_fmap, Forall_forall. intros i Hi.
    apply elem_of_seq in Hi. unfold compose. cbn beta.
    rewrite (perfect_row_sum labels cm tl Hsq Hcnt) by lia.
    rewrite (perfect_diag cm tl Hcnt).
    destruct (Nat.eqb_spec (occurrences i tl) 0) as [He|He].
    + specialize (occurrences_positive i tl (Hall i ltac:(lia))). lia.
    + apply np_div_self. lia.
Qed.

(** C4 (amended): when [x] holds a positive whole number [k] of batches,
    its labels are classes below [output_size] and every round of the batch
    loop predicts exactly the labels of its batch, accuracy_f1score returns
    accuracy 1.0 and a confusion matrix that is zero off the diagonal and
    counts each class on it; the F1 it returns is 1.0 when moreover every
    one of the [output_size] classes occurs among the labels. *)
Theorem perfect_predictions_metrics
    {X net : Type} (predict : net → list X → bool → option (list (list R) * net))
    (output_size : nat) (self : net) (x : list X) (t : target) (tl : list Z)
    (batch_size k : nat) (is_final : bool) (ys : list (list nat)) :
  0 < batch_size →
  0 < k →
  length x = k * batch_size →
  class_labels t = Some tl →
  length tl = length x →
  Forall (λ c, (0 ≤ c < Z.of_nat output_size)%Z) tl →
  predicted_classes predict x batch_size is_final self 0 k = Some ys →
  (∀ i y, ys !! i = Some y →
          Z.of_nat <$> y = take batch_size (drop (i * batch_size) tl)) →
  ∃ f1 cm self',
    accuracy_f1score predict output_size self x t batch_size is_final
      = Some (Fin 1, f1, cm, self')
    ∧ (∀ i j, i ≠ j → cm_get cm i j = 0)
    ∧ (∀ i, cm_get cm i i = occurrences i tl)
    ∧ ((∀ c, c < output_size → Z.of_nat c ∈ tl) → f1 = Fin 1).
Proof.
  intros Hb Hk Hlen Ht Htl Hrange Hpred Hys.
  assert (Hlabels : 0 < output_size).
  { destruct tl as [|c tl']; [simpl in Htl; nia|].
    apply Forall_cons in Hrange as [Hc _]. lia. }
  destruct (eval_rounds_perfect predict x tl batch_size output_size is_final Hrange
              k 0 (cm_zeros output_size) self ys)
    as (cm & self' & Hfold & Hsq & Hcnt).
  { apply square_zeros. }
  { intros i j. rewrite cm_get_zeros. simpl. by destruct (decide (i = j)). }
  { done. }
  { done. }
  rewrite Nat.add_0_l in Hcnt.
  rewrite take_ge in Hcnt by lia.
  exists (f1score (precision_avg output_size cm) (recall_avg output_size cm)), cm, self'.
  split; [|split; [|split]].
  - unfold accuracy_f1score. rewrite Ht. simpl.
    destruct (Nat.eqb_spec batch_size 0); [lia|].
    unfold eval_batches. rewrite Hlen, Nat.div_mul by lia. rewrite Hfold. simpl.
    unfold accuracy. destruct (Nat.eqb_spec output_size 0); [lia|].
    rewrite (perfect_diag_sum output_size cm tl Hcnt Hrange).
    rewrite Htl, Hlen. rewrite np_div_self by nia. done.
  - intros i j Hij. by apply (perfect_off_diag cm tl Hcnt).
  - intros i. by apply (perfect_diag cm tl Hcnt).
  - intros Hall.
    destruct (perfect_averages output_size cm tl Hlabels Hsq Hcnt Hall) as [-> ->].
    apply f1score_one_one.
Qed.

Lemma perfect_predictions_metrics_witness :
  ∃ f1 cm self',
    accuracy_f1score toy_predict 2 tt [0; 1] (ClassIndices [0%Z; 1%Z]) 1 false
      = Some (Fin 1, f1, cm, self')
    ∧ (∀ i j, i ≠ j → cm_get cm i j = 0)
    ∧ (∀ i, cm_get cm i i = occurrences i [0%Z; 1%Z])
    ∧ ((∀ c, c < 2 → Z.of_nat c ∈ [0%Z; 1%Z]) → f1 = Fin 1).
Proof.
  apply (perfect_predictions_metrics toy_predict 2 tt [0; 1]
           (ClassIndices [0%Z; 1%Z]) [0%Z; 1%Z] 1 2 false [[0]; [1]]).
  - lia.
  - lia.
  - reflexivity.
  - reflexivity.
  - reflexivity.
  - repeat constructor; lia.
  - unfold toy_predict. simpl. unfold argmax, argmax_from. Reval. reflexivity.
  - intros [|[|i]] y Hy; simpl in Hy; [ | | done]; injection Hy as <-; reflexivity.
Defined.

(** C4 as stated fails: both samples are of class 0 and both are predicted
    right, class 1 never occurs, its precision and recall are set to 0, and
    the F1 returned is 1/2. *)
Lemma perfect_predictions_f1_below_one :
  predicted_classes toy_predict [0; 0] 2 false tt 0 1 = Some [[0; 0]]
  ∧ accuracy_f1score toy_predict 2 tt [0; 0] (ClassIndices [0%Z; 0%Z]) 2 false
    = Some (Fin 1, Fin (1 / 2), [[2; 0]; [0; 0]], tt)
  ∧ Fin (1 / 2) ≠ Fin 1.
Proof.
  split; [|split].
  - unfold toy_predict. simpl. unfold argmax, argmax_from. Reval. reflexivity.
  - unfold accuracy_f1score, eval_batches, eval_batch, toy_predict. simpl.
    unfold argmax, argmax_from. Reval. simpl.
    unfold accuracy, precision_avg, recall_avg, np_mean, np_sum, precision, recall,
      diag_sum, f1score.
    repeat progress (simpl; Reval). do 4 f_equal; f_equal; field.
  - intros H. injection H as H. lra.
Qed.

(** The batch loop runs [int(x.shape[0] / batch_size)] rounds only and the
    accuracy is divided by [x.shape[0]]: with three samples, all predicted
    right, and batches of two, the third sample is never counted and the
    accuracy returned is 2/3. *)
Lemma remainder_batch_is_dropped :
  accuracy_f1score toy_predict 2 tt [0; 1; 1] (ClassIndices [0%Z; 1%Z; 1%Z]) 2 false
  = Some (Fin (2 / 3), Fin 1, [[1; 0]; [0; 1]], tt).
Proof.
  unfold accuracy_f1score, eval_batches, eval_batch, toy_predict. simpl.
  unfold argmax, argmax_from. Reval. simpl.
  unfold accuracy, precision_avg, recall_avg, np_mean, np_sum, precision, recall,
    diag_sum, f1score.
  repeat progress (simpl; Reval). do 4 f_equal; f_equal; field.
Qed.

(** ** Broadcasting on equal lengths *)

Lemma broadcast_same_length {A B C} (f : A → B → C) (a : list A) (b : list B) :
  length a = length b → broadcast f a b = Some (zip_with f a b).
Proof. intros H. unfold broadcast. by rewrite decide_True. Qed.

Lemma rows_with_same_length {A B C} (f : A → B → C) (x : list (list A)) (v : list B) :
  Forall (λ row, length row = length v) x →
  rows_with f x v = Some ((λ row, zip_with f row v) <$> x).
Proof.
  unfold rows_with. induction 1 as [|row x Hrow _ IH]; [done|].
  cbn [mapM]. rewrite (broadcast_same_length f row v Hrow). simpl.
  rewrite IH. done.
Qed.

Lemma with_rows_same_length {A B C} (f : A → B → C) (v : list A) (x : list (list B)) :
  Forall (λ row, length row = length v) x →
  with_rows f v x = Some ((λ row, zip_with f v row) <$> x).
Proof.
  unfold with_rows. induction 1 as [|row x Hrow _ IH]; [done|].
  cbn [mapM]. rewrite (broadcast_same_length f v row) by done. simpl.
  rewrite IH. done.
Qed.

Lemma Forall_length_zip_with {A B C} (f : A → B → C) (x : list (list A)) (v : list B)
    (d : nat) :
  length v = d →
  Forall (λ row, length row = d) x →
  Forall (λ row, length row = d) ((λ row, zip_with f row v) <$> x).
Proof.
  intros Hv Hx. apply Forall_fmap. eapply Forall_impl; [exact Hx|].
  intros row Hrow. simpl in *. rewrite length_zip_with. lia.
Qed.

Lemma Forall_length_zip_with_l {A B C} (f : A → B → C) (v : list A) (x : list (list B))
    (d : nat) :
  length v = d →
  Forall (λ row, length row = d) x →
  Forall (λ row, length row = d) ((λ row, zip_with f v row) <$> x).
Proof.
  intros Hv Hx. apply Forall_fmap. eapply Forall_impl; [exact Hx|].
  intros row Hrow. simpl in *. rewrite length_zip_with. lia.
Qed.

(** ** Inference mode *)

Section Inference.

Import BatchNormalization.

(** C2 (amended): on a layer whose backward cache is already set
    ([batch_size] is not None), whose stored statistics, scale and shift
    have one entry per feature, a forward call with [train_flg = False]
    returns the input normalised with the stored running mean and variance
    and leaves the layer as it was: running statistics and cache
    ([batch_size], [xc], [xn], [std]) are unchanged. *)
Theorem inference_uses_running_statistics
    (self : t) (x : list (list R)) (rm rv : list R) (n d : nat) :
  batch_size self = Some n →
  running_mean self = Some rm →
  running_var self = Some rv →
  length rm = d → length rv = d →
  length (gamma self) = d → length (beta self) = d →
  Forall (λ row, length row = d) x →
  __forward self x false = Some (normalized_with_running self rm rv x, self).
Proof.
  intros Hbs Hrm Hrv Lrm Lrv Lg Lb Hx.
  unfold __forward. rewrite Hrm, Hbs, Hrm, Hrv. simpl.
  rewrite (rows_with_same_length Rminus x rm) by (by rewrite Lrm). simpl.
  rewrite (rows_with_same_length Rdiv _ (sqrt_eps rv)).
  2:{ unfold sqrt_eps. rewrite length_fmap, Lrv.
      by apply Forall_length_zip_with. }
  simpl.
  rewrite (with_rows_same_length Rmult (gamma self)).
  2:{ rewrite Lg. apply Forall_length_zip_with.
      - unfold sqrt_eps. by rewrite length_fmap.
      - by apply Forall_length_zip_with. }
  simpl.
  rewrite (rows_with_same_length Rplus _ (beta self)).
  2:{ rewrite Lb. apply Forall_length_zip_with_l; [done|].
      apply Forall_length_zip_with.
      - unfold sqrt_eps. by rewrite length_fmap.
      - by apply Forall_length_zip_with. }
  simpl. f_equal. f_equal. unfold normalized_with_running, sqrt_eps.
  rewrite <- !list_fmap_compose. done.
Qed.

Lemma inference_uses_running_statistics_witness :
  __forward used_bn [[1%R]; [5%R]] false
  = Some (normalized_with_running used_bn [1%R] [3%R] [[1%R]; [5%R]], used_bn).
Proof.
  apply (inference_uses_running_statistics used_bn [[1%R]; [5%R]] [1%R] [3%R] 2 1);
    try reflexivity.
  repeat constructor.
Defined.

End Inference.

(** ** The constant under the square root *)

Lemma eps_value : BatchNormalization.eps = (1 / 1000000)%R.
Proof. unfold BatchNormalization.eps. field. Qed.

Lemma eps_positive : (0 < BatchNormalization.eps)%R.
Proof. rewrite eps_value. lra. Qed.

Lemma sqrt_plus_eps_positive (v : R) :
  (0 <= v)%R → (0 < sqrt (v + BatchNormalization.eps))%R.
Proof. intros Hv. apply sqrt_lt_R0. pose proof eps_positive. lra. Qed.

(** ** A fresh layer in inference mode *)

Section FreshLayer.

Import BatchNormalization.

(** C2 as stated fails on a layer that has not run before: line 151 sends
    the call with [train_flg = False] through the batch-statistics branch
    when [batch_size] is None, so the cache is filled and the output is not
    the input normalised with the stored statistics. *)
Lemma inference_on_fresh_layer_fills_cache :
  ∃ out self',
    __forward fresh_bn [[1%R]; [3%R]] false = Some (out, self')
    ∧ batch_size fresh_bn = None ∧ batch_size self' = Some 2
    ∧ xc fresh_bn = None ∧ xc self' = Some [[(-1)%R]; [1%R]]
    ∧ running_mean self' = Some [0%R] ∧ running_var self' = Some [0%R]
    ∧ out ≠ normalized_with_running fresh_bn [0%R] [0%R] [[1%R]; [3%R]].
Proof.
  eexists _, _. split.
  { unfold __forward, fresh_bn, __init__. simpl.
    unfold rows_with, mean0, ncols, square_entries, sqrt_eps. simpl.
    unfold broadcast. simpl. reflexivity. }
  split; [done|]. split; [done|]. split; [done|].
  split. { simpl. do 2 f_equal; [|f_equal]; f_equal; field. }
  split; [done|]. split; [done|].
  unfold normalized_with_running. simpl. intros H.
  injection H as H _.
  match type of H with
  | (1 * (?a / sqrt ?e1) + 0 = 1 * (?b / sqrt ?e2) + 0)%R =>
      assert (Ha : a = (-1)%R) by field;
      assert (He1 : e1 = (1 + eps)%R) by field;
      assert (Hb : b = 1%R) by field;
      rewrite He1, Ha, Hb in H
  end.
  pose proof (sqrt_plus_eps_positive 1 ltac:(lra)) as H1.
  pose proof (sqrt_plus_eps_positive 0 ltac:(lra)) as H0.
  apply Rinv_0_lt_compat in H1, H0. unfold Rdiv in H. nra.
Qed.

End FreshLayer.

(** ** Training mode *)

Section Training.

Import BatchNormalization.

Lemma ncols_rows {A} (x : list (list A)) (d : nat) :
  x ≠ [] → Forall (λ row, length row = d) x → ncols x = d.
Proof.
  intros Hne Hx. destruct x as [|row x]; [done|].
  apply Forall_cons in Hx as [Hrow _]. done.
Qed.

Lemma length_mean0 (x : list (list R)) : length (mean0 x) = ncols x.
Proof. unfold mean0. by rewrite length_fmap, length_seq. Qed.

Lemma Forall_length_square_entries (x : list (list R)) (d : nat) :
  Forall (λ row, length row = d) x →
  Forall (λ row, length row = d) (square_entries x).
Proof.
  intros Hx. unfold square_entries. apply Forall_fmap.
  eapply Forall_impl; [exact Hx|]. intros row Hrow. simpl in *.
  by rewrite length_fmap.
Qed.

(** The lazy initialisation of lines 145-148. *)
Lemma forward_lazy_init (self : t) (x : list (list R)) (train_flg : bool) :
  running_mean self = None →
  __forward self x train_flg =
    __forward (set_running self (replicate (ncols x) 0%R) (replicate (ncols x) 0%R))
      x train_flg.
Proof. intros H. unfold __forward. rewrite H. done. Qed.

(** One training step on a layer whose statistics are initialised. *)
Lemma forward_training_initialised
    (self : t) (x : list (list R)) (rm rv : list R) (d : nat) :
  x ≠ [] →
  Forall (λ row, length row = d) x →
  length (gamma self) = d → length (beta self) = d →
  running_mean self = Some rm → running_var self = Some rv →
  length rm = d → length rv = d →
  ∃ out self',
    __forward self x true = Some (out, self')
    ∧ batch_size self' = Some (length x)
    ∧ xn self' = Some (normalized eps x)
    ∧ out = (λ row, zip_with Rplus (zip_with Rmult (gamma self) row) (beta self))
              <$> normalized eps x.
Proof.
  intros Hne Hx Lg Lb Hrm Hrv Lrm Lrv.
  pose proof (ncols_rows x d Hne Hx) as Hd.
  assert (Lmu : length (mean0 x) = d) by (by rewrite length_mean0).
  set (xc0 := (λ row, zip_with Rminus row (mean0 x)) <$> x).
  assert (Hxc : Forall (λ row, length row = d) xc0).
  { by apply Forall_length_zip_with. }
  assert (Hxc_ne : xc0 ≠ []) by (subst xc0; by destruct x).
  assert (Lvar : length (mean0 (square_entries xc0)) = d).
  { rewrite length_mean0. apply ncols_rows.
    - unfold square_entries. by destruct xc0.
    - by apply Forall_length_square_entries. }
  set (std0 := sqrt_eps (mean0 (square_entries xc0))).
  assert (Lstd : length std0 = d) by (subst std0; unfold sqrt_eps; by rewrite length_fmap).
  set (xn0 := (λ row, zip_with Rdiv row std0) <$> xc0).
  assert (Hxn : Forall (λ row, length row = d) xn0).
  { by apply Forall_length_zip_with. }
  eexists _, _. split; [|split; [|split]].
  - unfold __forward. rewrite Hrm. simpl.
    rewrite (rows_with_same_length Rminus x (mean0 x)) by (by rewrite Lmu).
    simpl. fold xc0.
    rewrite (rows_with_same_length Rdiv xc0 _) by (fold std0; by rewrite Lstd).
    simpl. fold std0. fold xn0.
    rewrite Hrm, Hrv. simpl.
    unfold moving_average. simpl.
    rewrite (broadcast_same_length Rplus) by (rewrite !length_fmap; lia).
    simpl.
    rewrite (broadcast_same_length Rplus) by (rewrite !length_fmap; lia).
    simpl.
    rewrite (with_rows_same_length Rmult (gamma self) xn0) by (by rewrite Lg).
    simpl.
    rewrite (rows_with_same_length Rplus _ (beta self)).
    2:{ rewrite Lb. by apply Forall_length_zip_with_l. }
    simpl. reflexivity.
  - done.
  - done.
  - unfold normalized. fold xc0. rewrite <- list_fmap_compose. done.
Qed.

(** C5 (amended): in training mode, on a non-empty batch of rows with one
    entry per feature, forward succeeds and caches as [xn] the
    normalisation [(x - mu) / sqrt(var + e)] of the batch with the constant
    [e = 10e-7], that is 1e-6 (one millionth), and returns [gamma * xn + beta]. *)
Theorem training_normalises_with_eps
    (self : t) (x : list (list R)) (d : nat) :
  x ≠ [] →
  Forall (λ row, length row = d) x →
  length (gamma self) = d → length (beta self) = d →
  match running_mean self with
  | None => True
  | Some rm => length rm = d ∧ ∃ rv, running_var self = Some rv ∧ length rv = d
  end →
  eps = (1 / 1000000)%R
  ∧ ∃ out self',
      __forward self x true = Some (out, self')
      ∧ xn self' = Some (normalized (1 / 1000000) x)
      ∧ out = (λ row, zip_with Rplus (zip_with Rmult (gamma self) row) (beta self))
                <$> normalized (1 / 1000000) x.
Proof.
  intros Hne Hx Lg Lb Hstats. split; [apply eps_value|].
  rewrite <- eps_value.
  destruct (running_mean self) as [rm|] eqn:Hrm.
  - destruct Hstats as (Lrm & rv & Hrv & Lrv).
    destruct (forward_training_initialised self x rm rv d)
      as (out & self' & Hf & _ & Hxn & Hout); try done.
    by exists out, self'.
  - rewrite forward_lazy_init by done.
    pose proof (ncols_rows x d Hne Hx) as Hd.
    destruct (forward_training_initialised
                (set_running self (replicate (ncols x) 0%R) (replicate (ncols x) 0%R))
                x (replicate (ncols x) 0%R) (replicate (ncols x) 0%R) d)
      as (out & self' & Hf & _ & Hxn & Hout); try done;
      try (by rewrite length_replicate).
    by exists out, self'.
Qed.

Lemma training_normalises_with_eps_witness :
  eps = (1 / 1000000)%R
  ∧ ∃ out self',
      __forward fresh_bn [[0%R]; [2%R]] true = Some (out, self')
      ∧ xn self' = Some (normalized (1 / 1000000) [[0%R]; [2%R]])
      ∧ out = (λ row, zip_with Rplus (zip_with Rmult (gamma fresh_bn) row) (beta fresh_bn))
                <$> normalized (1 / 1000000) [[0%R]; [2%R]].
Proof.
  apply (training_normalises_with_eps fresh_bn [[0%R]; [2%R]] 1).
  - discriminate.
  - repeat constructor.
  - reflexivity.
  - reflexivity.
  - exact I.
Defined.

End Training.

Section Epsilon.

Import BatchNormalization.

Lemma normalized_depends_on_epsilon :
  normalized eps [[0%R]; [2%R]] ≠ normalized (1 / 10000000) [[0%R]; [2%R]].
Proof.
  unfold normalized, mean0, ncols, square_entries. simpl. intros H.
  injection H as H _.
  match type of H with
  | (?a / sqrt ?e1 = _ / sqrt ?e2)%R =>
      assert (He1 : e1 = (1 + 1 / 1000000)%R) by (rewrite eps_value; field);
      assert (He2 : e2 = (1 + 1 / 10000000)%R) by field;
      rewrite He1, He2 in H;
      assert (Ha : a = (-1)%R) by field;
      rewrite Ha in H
  end.
  assert (H1 : (0 < sqrt (1 + 1 / 1000000))%R) by (apply sqrt_lt_R0; lra).
  assert (H2 : (0 < sqrt (1 + 1 / 10000000))%R) by (apply sqrt_lt_R0; lra).
  assert (Hs : sqrt (1 + 1 / 1000000) = sqrt (1 + 1 / 10000000)).
  { apply Rinv_eq_reg. unfold Rdiv in H. lra. }
  apply sqrt_inj in Hs; lra.
Qed.

(** C5 as stated fails: the constant is [10e-7], ten times the 1e-7 of the
    claim, and on the batch [[0], [2]] the cached [xn] is not the
    normalisation with 1e-7. *)
Lemma training_epsilon_is_not_1e_7 :
  eps ≠ (1 / 10000000)%R
  ∧ ∃ out self',
      __forward fresh_bn [[0%R]; [2%R]] true = Some (out, self')
      ∧ xn self' ≠ Some (normalized (1 / 10000000) [[0%R]; [2%R]]).
Proof.
  split; [rewrite eps_value; lra|].
  rewrite forward_lazy_init by done.
  destruct (forward_training_initialised
              (set_running fresh_bn (replicate (ncols [[0%R]; [2%R]]) 0%R)
                 (replicate (ncols [[0%R]; [2%R]]) 0%R))
              [[0%R]; [2%R]] [0%R] [0%R] 1)
    as (out & self' & Hf & _ & Hxn & _); try done.
  { repeat constructor. }
  exists out, self'. split; [done|]. rewrite Hxn. intros H.
  apply normalized_depends_on_epsilon. congruence.
Qed.

End Epsilon.

(** ** Shapes of the tensor operations *)

Lemma py_int_div_floor (a s : Z) :
  (0 ≤ a)%Z → (0 < s)%Z → py_int_div a s = Some (a / s)%Z.
Proof.
  intros Ha Hs. unfold py_int_div.
  destruct (Z.eqb_spec s 0); [lia|]. by rewrite Z.quot_div_nonneg.
Qed.

Lemma Zprod_of_nat (ks : list nat) : Zprod (Z.of_nat <$> ks) = Z.of_nat (numel ks).
Proof.
  induction ks as [|k ks IH]; [done|].
  rewrite fmap_cons. unfold Zprod, numel in *. cbn [foldr]. rewrite IH. lia.
Qed.

Lemma filter_inferred_of_nat (ks : list nat) :
  filter (λ d, d = (-1)%Z) (Z.of_nat <$> ks) = [].
Proof.
  induction ks as [|k ks IH]; [done|].
  rewrite fmap_cons, filter_cons_False by lia. done.
Qed.

Lemma filter_known_of_nat (ks : list nat) :
  filter (λ d, d ≠ (-1)%Z) (Z.of_nat <$> ks) = Z.of_nat <$> ks.
Proof.
  induction ks as [|k ks IH]; [done|].
  rewrite fmap_cons, filter_cons_True by lia. by rewrite IH.
Qed.

Lemma forallb_of_nat (ks : list nat) :
  forallb (λ d, (-1 <=? d)%Z) ((Z.of_nat <$> ks) ++ [(-1)%Z]) = true.
Proof.
  apply forallb_forall. intros d Hd. apply Z.leb_le.
  apply in_app_or in Hd as [Hd|[<-|[]]]; [|lia].
  apply list_elem_of_In, list_elem_of_fmap in Hd as (k & -> & _). lia.
Qed.

(** The last axis of a reshape inferred from the others. *)
Lemma reshape_last_inferred {A} (t : tensor A) (ks : list nat) (m : nat) :
  numel (shape t) = numel ks * m →
  0 < numel ks →
  reshape t ((Z.of_nat <$> ks) ++ [(-1)%Z]) = Some (Tensor (ks ++ [m]) (data t)).
Proof.
  intros Hn Hk. unfold reshape.
  rewrite forallb_of_nat. cbn [negb].
  rewrite !filter_app, filter_inferred_of_nat, filter_known_of_nat.
  rewrite filter_cons_True, filter_cons_False by lia.
  rewrite !filter_nil, app_nil_r. cbn [length app].
  rewrite Zprod_of_nat, Hn.
  replace ((0 <? Z.of_nat (numel ks))%Z
           && (Z.of_nat (numel ks * m) `mod` Z.of_nat (numel ks) =? 0)%Z) with true.
  2:{ symmetry. apply andb_true_iff. split; [apply Z.ltb_lt; lia|].
      apply Z.eqb_eq. rewrite Nat2Z.inj_mul, Z.mul_comm. apply Z_mod_mult. }
  f_equal. f_equal. rewrite fmap_app. f_equal.
  - rewrite <- list_fmap_compose. rewrite <- (list_fmap_id ks) at 2.
    apply list_fmap_ext. intros _ k _. simpl.
    destruct (decide (Z.of_nat k = (-1)%Z)); [lia|]. apply Nat2Z.id.
  - simpl. destruct (decide ((-1)%Z = (-1)%Z)); [|done]. f_equal.
    rewrite Nat2Z.inj_mul, Z.mul_comm, Z_div_mult by lia. apply Nat2Z.id.
Qed.

Lemma permute_shape {A} (t t' : tensor A) (perm : list nat) :
  permute t perm = Some t' →
  shape t' = (λ k, default 0 (shape t !! k)) <$> perm.
Proof.
  unfold permute. destruct (decide _); [|done]. by intros [= <-].
Qed.

Lemma permute_is_Some {A} (t : tensor A) (perm : list nat) :
  perm ≡ₚ seq 0 (length (shape t)) → is_Some (permute t perm).
Proof. intros H. unfold permute. rewrite decide_True by done. eauto. Qed.

Lemma transpose_shape {A} (t : tensor A) (r c : nat) :
  shape t = [r; c] →
  ∃ t', transpose t = Some t' ∧ shape t' = [c; r].
Proof.
  intros Hs. unfold transpose. rewrite Hs.
  destruct (permute_is_Some t [1; 0]) as [t' Ht'].
  { rewrite Hs. simpl. apply Permutation_swap. }
  exists t'. split; [done|]. rewrite (permute_shape t t' _ Ht'), Hs. done.
Qed.

Lemma matmul_shape (a b : tensor R) (r c k : nat) :
  shape a = [r; c] → shape b = [c; k] →
  ∃ p, matmul a b = Some p ∧ shape p = [r; k].
Proof.
  intros Ha Hb. unfold matmul. rewrite Ha, Hb, decide_True by done. eauto.
Qed.

Lemma add_bias_shape (p b : tensor R) (r k : nat) :
  shape p = [r; k] → shape b = [k] →
  ∃ out, tensor_zip Rplus p b = Some out ∧ shape out = [r; k].
Proof.
  intros Hp Hb. unfold tensor_zip, broadcast_shapes. rewrite Hp, Hb.
  cbn. rewrite decide_True by done. cbn. eauto.
Qed.

(** Where the kernel does not fit the padded input the numerator is
    negative, and the truncation of the code is not the floor. *)
Lemma py_int_div_truncates :
  py_int_div (-1) 2 = Some 0%Z ∧ ((-1) / 2 = -1)%Z.
Proof. split; reflexivity. Qed.

(** ** The output shape of Convolution.forward *)

(** C6: for a 4D input of shape (N, C, H, W) and a kernel of shape
    (FN, C, FH, FW) with bias of shape (FN,) that fits the padded input,
    with positive stride, and an im2col that returns one row per window
    and one column per kernel entry, Convolution.forward returns an output
    of shape (N, FN, out_h, out_w) with
    out_h = floor((H + 2 pad - FH) / stride) + 1 and out_w likewise. *)
Theorem convolution_output_shape
    (im2col : tensor R → Z → Z → Z → Z → option (tensor R))
    (self : Convolution.t) (x col : tensor R) (FN C FH FW N H W_ : nat) :
  let out_h := Z.to_nat (conv_out_size (Z.of_nat H) (Convolution.pad self)
                           (Z.of_nat FH) (Convolution.stride self)) in
  let out_w := Z.to_nat (conv_out_size (Z.of_nat W_) (Convolution.pad self)
                           (Z.of_nat FW) (Convolution.stride self)) in
  shape (Convolution.W self) = [FN; C; FH; FW] →
  shape (Convolution.b self) = [FN] →
  shape x = [N; C; H; W_] →
  0 < FN → 0 < N →
  (0 < Convolution.stride self)%Z →
  (Z.of_nat FH ≤ Z.of_nat H + 2 * Convolution.pad self)%Z →
  (Z.of_nat FW ≤ Z.of_nat W_ + 2 * Convolution.pad self)%Z →
  im2col x (Z.of_nat FH) (Z.of_nat FW) (Convolution.stride self) (Convolution.pad self)
    = Some col →
  shape col = [N * out_h * out_w; C * FH * FW] →
  ∃ out self',
    Convolution.forward im2col self x = Some (out, self')
    ∧ shape out = [N; FN; out_h; out_w].
Proof.
  intros out_h out_w HW Hb Hx HFN HN Hs HH HWd Hcol Hcs.
  set (ah := (Z.of_nat H + 2 * Convolution.pad self - Z.of_nat FH)%Z).
  set (aw := (Z.of_nat W_ + 2 * Convolution.pad self - Z.of_nat FW)%Z).
  assert (Hqh : (0 ≤ ah / Convolution.stride self)%Z) by (apply Z.div_pos; lia).
  assert (Hqw : (0 ≤ aw / Convolution.stride self)%Z) by (apply Z.div_pos; lia).
  assert (Hoh : Z.of_nat out_h = (1 + ah / Convolution.stride self)%Z).
  { subst out_h. unfold conv_out_size. fold ah. lia. }
  assert (How : Z.of_nat out_w = (1 + aw / Convolution.stride self)%Z).
  { subst out_w. unfold conv_out_size. fold aw. lia. }
  pose proof (reshape_last_inferred (Convolution.W self) [FN] (C * FH * FW)) as Hw2.
  rewrite HW in Hw2. specialize (Hw2 ltac:(simpl; lia) ltac:(simpl; lia)).
  destruct (transpose_shape (Tensor [FN; C * FH * FW] (data (Convolution.W self)))
              FN (C * FH * FW) eq_refl) as (cw & Hcw & Scw).
  destruct (matmul_shape col cw _ _ _ Hcs Scw) as (p & Hp & Sp).
  destruct (add_bias_shape p (Convolution.b self) _ _ Sp Hb) as (o1 & Ho1 & So1).
  pose proof (reshape_last_inferred o1 [N; out_h; out_w] FN) as Ho2.
  rewrite So1 in Ho2. specialize (Ho2 ltac:(simpl; lia)).
  assert (Hpos : 0 < numel [N; out_h; out_w]) by (simpl; nia).
  specialize (Ho2 Hpos).
  destruct (permute_is_Some (Tensor ([N; out_h; out_w] ++ [FN]) (data o1)) [0; 3; 1; 2])
    as [o3 Ho3].
  { simpl. apply (bool_decide_unpack _). vm_compute. exact I. }
  exists o3. eexists. split.
  - unfold Convolution.forward. rewrite HW, Hx.
    fold ah aw.
    rewrite (py_int_div_floor ah) by (subst ah; lia).
    rewrite (py_int_div_floor aw) by (subst aw; lia).
    cbn [mbind option_bind]. rewrite Hcol. cbn [mbind option_bind].
    change [Z.of_nat FN; (-1)%Z] with ((Z.of_nat <$> [FN]) ++ [(-1)%Z]).
    rewrite Hw2. cbn [mbind option_bind app]. rewrite Hcw. cbn [mbind option_bind].
    rewrite Hp. cbn [mbind option_bind]. rewrite Ho1. cbn [mbind option_bind].
    rewrite <- Hoh, <- How.
    change [Z.of_nat N; Z.of_nat out_h; Z.of_nat out_w; (-1)%Z]
      with ((Z.of_nat <$> [N; out_h; out_w]) ++ [(-1)%Z]).
    rewrite Ho2. cbn [mbind option_bind]. rewrite Ho3. cbn [mbind option_bind].
    reflexivity.
  - rewrite (permute_shape _ _ _ Ho3). done.
Qed.

Lemma convolution_output_shape_witness :
  ∃ out self',
    Convolution.forward toy_im2col toy_conv toy_image = Some (out, self')
    ∧ shape out = [1; 2; 2; 2].
Proof.
  apply (convolution_output_shape toy_im2col toy_conv toy_image
           (Tensor [4; 4] (replicate 16 0%R)) 2 1 2 2 1 3 3);
    try reflexivity; simpl; lia.
Defined.

(** ** Scattering gradients to the recorded positions *)

Lemma scatter_lookup (P : nat) (cols : list nat) :
  ∀ (k : nat) (vals acc : list R) (j p : nat),
    Forall (λ c, c < P) cols →
    length vals = length cols →
    (k + length cols) * P ≤ length acc →
    p < P →
    scatter P k cols vals acc !! (j * P + p) =
      if decide (k ≤ j < k + length cols ∧ cols !! (j - k) = Some p)
      then vals !! (j - k) else acc !! (j * P + p).
Proof.
  induction cols as [|c cols IH]; intros k vals acc j p Hc Hv Hacc Hp.
  - simpl. rewrite decide_False; [done|]. simpl. lia.
  - destruct vals as [|v vals]; [done|].
    apply Forall_cons in Hc as [Hc Hcs]. simpl in Hv, Hacc.
    cbn [scatter]. rewrite IH; [ | done | lia | rewrite length_insert; lia | done].
    destruct (decide (j = k)) as [->|Hjk].
    + rewrite decide_False by lia. rewrite Nat.sub_diag. cbn [lookup list_lookup].
      destruct (decide (c = p)) as [->|Hcp].
      * rewrite decide_True by (cbn [length]; split; [lia | done]).
        apply list_lookup_insert_eq. nia.
      * rewrite decide_False by (intros [_ [= ?]]; done).
        apply list_lookup_insert_ne. nia.
    + destruct (decide (k ≤ j)) as [Hle|Hlt].
      * replace (j - k) with (S (j - S k)) by lia. cbn [lookup list_lookup length].
        destruct (decide (S k ≤ j < S k + length cols ∧ cols !! (j - S k) = Some p))
          as [[H1 H2]|Hn].
        -- by rewrite decide_True by (split; [lia | done]).
        -- rewrite decide_False by (intros [? ?]; apply Hn; split; [lia | done]).
           apply list_lookup_insert_ne. nia.
      * rewrite decide_False by lia. rewrite decide_False by lia.
        apply list_lookup_insert_ne. nia.
Qed.

Lemma length_scatter (P : nat) (cols : list nat) :
  ∀ (k : nat) (vals acc : list R),
    length (scatter P k cols vals acc) = length acc.
Proof.
  induction cols as [|c cols IH]; intros k vals acc; [done|].
  destruct vals as [|v vals]; [done|]. cbn [scatter].
  by rewrite IH, length_insert.
Qed.

(** ** What forward records *)

Lemma argmax_from_bound (l : list R) :
  ∀ (best_i : nat) (best : R) (i : nat),
    best_i < i → argmax_from best_i best i l < i + length l.
Proof.
  induction l as [|y l IH]; intros best_i best i Hb; simpl; [lia|].
  destruct (Rltb best y).
  - specialize (IH i y (S i)). lia.
  - specialize (IH best_i best (S i)). lia.
Qed.

Lemma argmax_bound (r : list R) (i : nat) : argmax r = Some i → i < length r.
Proof.
  destruct r as [|y r]; [done|]. intros [= <-]. simpl.
  pose proof (argmax_from_bound r 0 y 1). lia.
Qed.

Lemma length_chunks {A} (n c : nat) (l : list A) : length (chunks n c l) = n.
Proof. revert l. induction n as [|n IH]; intros l; simpl; [done | by rewrite IH]. Qed.

Lemma chunks_row_length {A} (n c : nat) (l : list A) :
  Forall (λ r, length r ≤ c) (chunks n c l).
Proof.
  revert l. induction n as [|n IH]; intros l; simpl; constructor; [|done].
  rewrite length_take. lia.
Qed.

Lemma argmax_rows_bound (rows : list (list R)) (am : list nat) (P : nat) :
  Forall (λ r, length r ≤ P) rows →
  mapM argmax rows = Some am →
  Forall (λ c, c < P) am.
Proof.
  intros Hrows Ham. apply mapM_Some_1 in Ham.
  induction Ham as [|r c rows am Hrc _ IH]; [done|].
  apply Forall_cons in Hrows as [Hr Hrows]. constructor; [|by apply IH].
  apply argmax_bound in Hrc. lia.
Qed.

(** ** Reshaping keeps the entries and their number *)

Lemma numel_cons (d : nat) (s : list nat) : numel (d :: s) = d * numel s.
Proof. reflexivity. Qed.

Lemma numel_app (s1 s2 : list nat) : numel (s1 ++ s2) = numel s1 * numel s2.
Proof.
  induction s1 as [|d s1 IH]; [simpl; lia|].
  rewrite <- app_comm_cons, !numel_cons, IH. lia.
Qed.

(** The shape a reshape produces when the inferred axis gets length [q]. *)
Lemma numel_inferred (q : nat) (dims : list Z) :
  Forall (λ d, (-1 ≤ d)%Z) dims →
  numel ((λ d, if decide (d = (-1)%Z) then q else Z.to_nat d) <$> dims) =
    q ^ length (filter (λ d, d = (-1)%Z) dims)
    * Z.to_nat (Zprod (filter (λ d, d ≠ (-1)%Z) dims)).
Proof.
  induction 1 as [|d dims Hd _ IH]; [done|].
  rewrite fmap_cons, numel_cons, IH.
  destruct (decide (d = (-1)%Z)) as [->|Hne].
  - rewrite filter_cons_True, filter_cons_False by congruence. cbn [length]. simpl. lia.
  - rewrite filter_cons_False, filter_cons_True by done.
    unfold Zprod at 2. cbn [foldr]. fold (Zprod (filter (λ d, d ≠ (-1)%Z) dims)).
    set (Pz := Zprod (filter (λ d, d ≠ (-1)%Z) dims)).
    assert (Hmul : Z.to_nat (d * Pz) = Z.to_nat d * Z.to_nat Pz).
    { destruct (Z_le_gt_dec 0 Pz); [apply Z2Nat.inj_mul; lia | nia]. }
    rewrite Hmul. lia.
Qed.

Lemma filter_no_inferred (dims : list Z) :
  length (filter (λ d, d = (-1)%Z) dims) = 0 →
  filter (λ d, d ≠ (-1)%Z) dims = dims
  ∧ (λ d, if decide (d = (-1)%Z) then 0 else Z.to_nat d) <$> dims = Z.to_nat <$> dims.
Proof.
  induction dims as [|d dims IH]; [done|].
  destruct (decide (d = (-1)%Z)) as [->|Hne].
  - rewrite filter_cons_True by done. done.
  - rewrite filter_cons_False by done. intros H. destruct (IH H) as [IH1 IH2].
    rewrite filter_cons_True by done. rewrite IH1, !fmap_cons, IH2.
    by destruct (decide (d = (-1)%Z)).
Qed.

Lemma reshape_keeps_entries {A} (t t' : tensor A) (dims : list Z) :
  reshape t dims = Some t' →
  data t' = data t
  ∧ length (shape t') = length dims
  ∧ numel (shape t') = numel (shape t).
Proof.
  unfold reshape.
  destruct (forallb (λ d, (-1 <=? d)%Z) dims) eqn:Hall; [|done]. cbn [negb].
  assert (Hge : Forall (λ d, (-1 ≤ d)%Z) dims).
  { apply Forall_forall. intros d Hd. apply Z.leb_le.
    rewrite forallb_forall in Hall. apply Hall. by apply list_elem_of_In. }
  destruct (length (filter (λ d, d = (-1)%Z) dims)) as [|[|n]] eqn:Hcount; [| |done].
  - destruct (decide _) as [Hk|]; [|done]. intros [= <-]. simpl.
    destruct (filter_no_inferred dims Hcount) as [Hf Hm].
    split; [done|]. split; [by rewrite length_fmap|].
    rewrite <- Hm, (numel_inferred 0 dims Hge), Hcount, Hk. simpl.
    rewrite Nat2Z.id. lia.
  - destruct (_ && _) eqn:Hc; [|done]. intros [= <-]. simpl.
    apply andb_true_iff in Hc as [Hpos Hmod].
    apply Z.ltb_lt in Hpos. apply Z.eqb_eq in Hmod.
    split; [done|]. split; [by rewrite length_fmap|].
    rewrite (numel_inferred _ dims Hge), Hcount. simpl.
    rewrite Nat.mul_1_r, <- Z2Nat.inj_mul by (try apply Z.div_pos; lia).
    rewrite <- (Nat2Z.id (numel (shape t))) at 2. f_equal.
    rewrite Z.mul_comm. symmetry. by apply Z_div_exact_full_2; lia.
Qed.

Lemma reshape_exact {A} (t : tensor A) (ks : list nat) :
  numel (shape t) = numel ks →
  reshape t (Z.of_nat <$> ks) = Some (Tensor ks (data t)).
Proof.
  intros Hn. unfold reshape.
  replace (forallb (λ d, (-1 <=? d)%Z) (Z.of_nat <$> ks)) with true.
  2:{ symmetry. apply forallb_forall. intros d Hd. apply Z.leb_le.
      apply list_elem_of_In, list_elem_of_fmap in Hd as (k & -> & _). lia. }
  cbn [negb]. rewrite filter_inferred_of_nat, filter_known_of_nat. cbn [length].
  rewrite Zprod_of_nat, Hn, decide_True by done.
  f_equal. f_equal. rewrite <- list_fmap_compose. rewrite <- (list_fmap_id ks) at 2.
  apply list_fmap_ext. intros _ k _. simpl. apply Nat2Z.id.
Qed.

Lemma permute_keeps_numel_4 {A} (t t' : tensor A) (perm : list nat) :
  length (shape t) = 4 →
  perm = [0; 3; 1; 2] ∨ perm = [0; 2; 3; 1] →
  permute t perm = Some t' →
  length (shape t') = 4 ∧ numel (shape t') = numel (shape t).
Proof.
  intros Hlen Hperm Hp. rewrite (permute_shape t t' perm Hp).
  destruct (shape t) as [|a [|b [|c [|d [|]]]]]; try done.
  destruct Hperm as [-> | ->]; simpl; split; (done || lia).
Qed.

(** ** The view [dout.permute(0, 2, 3, 1)] *)

Lemma omap_lookup_total {A B} (f : A → option B) (l : list A) :
  Forall (λ x, is_Some (f x)) l →
  ∀ i, omap f l !! i = l !! i ≫= f.
Proof.
  induction 1 as [|x l [y Hy] _ IH]; intros i; [done|].
  change (omap f (x :: l)) with (match f x with Some y => y :: omap f l | None => omap f l end).
  rewrite Hy. destruct i as [|i]; simpl; [done | apply IH].
Qed.

Lemma length_omap_total {A B} (f : A → option B) (l : list A) :
  Forall (λ x, is_Some (f x)) l → length (omap f l) = length l.
Proof.
  induction 1 as [|x l [y Hy] _ IH]; [done|].
  change (omap f (x :: l)) with (match f x with Some y => y :: omap f l | None => omap f l end).
  rewrite Hy. simpl. by rewrite IH.
Qed.

Lemma inverse_permuted_0231 (i0 i1 i2 i3 : nat) :
  inverse_permuted [0; 2; 3; 1] [i0; i1; i2; i3] 4 = [i0; i3; i1; i2].
Proof. reflexivity. Qed.

Lemma ravel_4 (a b c d i0 i1 i2 i3 : nat) :
  ravel [a; b; c; d] [i0; i1; i2; i3] = ((i0 * b + i1) * c + i2) * d + i3.
Proof. unfold ravel. cbn [zip zip_with foldl fst snd]. lia. Qed.

Lemma unravel_4 (a b c d p : nat) :
  unravel [a; b; c; d] p =
    [p / (b * (c * d)); p mod (b * (c * d)) / (c * d);
     p mod (b * (c * d)) mod (c * d) / d; p mod (b * (c * d)) mod (c * d) mod d].
Proof.
  cbn [unravel numel foldr]. rewrite !Nat.mul_1_r, Nat.div_1_r. done.
Qed.

Lemma flat_position_step (x y i c : nat) : x < y → i < c → x * c + i < y * c.
Proof. nia. Qed.

Lemma ravel_4_bound (a b c d i0 i1 i2 i3 : nat) :
  i0 < a → i1 < b → i2 < c → i3 < d →
  ((i0 * b + i1) * c + i2) * d + i3 < a * b * c * d.
Proof.
  intros H0 H1 H2 H3.
  by repeat apply flat_position_step.
Qed.

(** The coordinates of a flat position written out from its indices. *)
Lemma unravel_4_position (a b c d i0 i1 i2 i3 : nat) :
  i1 < b → i2 < c → i3 < d →
  unravel [a; b; c; d] (((i0 * b + i1) * c + i2) * d + i3) = [i0; i1; i2; i3].
Proof.
  intros H1 H2 H3. rewrite unravel_4.
  set (p := ((i0 * b + i1) * c + i2) * d + i3).
  assert (B2 : i2 * d + i3 < c * d) by nia.
  assert (B1' : i1 * c + i2 < b * c) by nia.
  assert (B1 : (i1 * c + i2) * d + i3 < b * (c * d)) by nia.
  assert (E0 : p / (b * (c * d)) = i0).
  { symmetry. apply (Nat.div_unique p _ i0 ((i1 * c + i2) * d + i3)); [done|].
    subst p. lia. }
  assert (E0' : p mod (b * (c * d)) = (i1 * c + i2) * d + i3).
  { symmetry. apply (Nat.mod_unique p _ i0); [done|]. subst p. lia. }
  rewrite E0, E0'.
  assert (E1 : ((i1 * c + i2) * d + i3) / (c * d) = i1).
  { symmetry. apply (Nat.div_unique _ _ i1 (i2 * d + i3)); [done | lia]. }
  assert (E1' : ((i1 * c + i2) * d + i3) mod (c * d) = i2 * d + i3).
  { symmetry. apply (Nat.mod_unique _ _ i1); [done | lia]. }
  rewrite E1, E1'.
  assert (E2 : (i2 * d + i3) / d = i2).
  { symmetry. apply (Nat.div_unique _ _ i2 i3); [done | lia]. }
  assert (E2' : (i2 * d + i3) mod d = i3).
  { symmetry. apply (Nat.mod_unique _ _ i2); [done | lia]. }
  by rewrite E2, E2'.
Qed.

(** Every flat position below the size has coordinates inside the axes. *)
Lemma unravel_4_bounds (a b c d p : nat) :
  p < a * (b * (c * d)) →
  ∃ i0 i1 i2 i3,
    unravel [a; b; c; d] p = [i0; i1; i2; i3]
    ∧ i0 < a ∧ i1 < b ∧ i2 < c ∧ i3 < d.
Proof.
  intros Hp. rewrite unravel_4.
  assert (Hb : b * (c * d) ≠ 0) by nia.
  assert (Hc : c * d ≠ 0) by nia.
  assert (Hd : d ≠ 0) by nia.
  eexists _, _, _, _. split; [done|].
  pose proof (Nat.mod_upper_bound p (b * (c * d)) Hb) as M0.
  pose proof (Nat.mod_upper_bound (p mod (b * (c * d))) (c * d) Hc) as M1.
  pose proof (Nat.mod_upper_bound (p mod (b * (c * d)) mod (c * d)) d Hd) as M2.
  repeat split.
  - apply Nat.Div0.div_lt_upper_bound. lia.
  - apply Nat.Div0.div_lt_upper_bound. lia.
  - apply Nat.Div0.div_lt_upper_bound. lia.
  - done.
Qed.

(** [permute(0, 2, 3, 1)] of a well-formed (N, C, H, W) tensor is the
    well-formed (N, H, W, C) tensor with the same entries. *)
Lemma permute_0231 {A} (t : tensor A) (a b c d : nat) :
  shape t = [a; b; c; d] →
  length (data t) = a * b * c * d →
  ∃ t',
    permute t [0; 2; 3; 1] = Some t'
    ∧ shape t' = [a; c; d; b]
    ∧ length (data t') = a * c * d * b
    ∧ ∀ n h w ch, n < a → h < c → w < d → ch < b →
        data t' !! (((n * c + h) * d + w) * b + ch)
        = data t !! (((n * b + ch) * c + h) * d + w).
Proof.
  intros Hs Hlen. unfold permute. rewrite Hs.
  rewrite decide_True by (apply (bool_decide_unpack _); vm_compute; exact I).
  change ((λ k, default 0 ([a; b; c; d] !! k)) <$> [0; 2; 3; 1]) with [a; c; d; b].
  cbn [length].
  set (F := λ p, data t !! ravel [a; b; c; d]
                   (inverse_permuted [0; 2; 3; 1] (unravel [a; c; d; b] p) 4)).
  assert (Htot : Forall (λ p, is_Some (F p)) (seq 0 (numel [a; c; d; b]))).
  { apply Forall_forall. intros p Hp. apply elem_of_seq in Hp.
    assert (Hp' : p < a * (c * (d * b))) by (simpl in Hp; lia).
    destruct (unravel_4_bounds a c d b p Hp') as (i0 & i1 & i2 & i3 & Hu & ? & ? & ? & ?).
    subst F. cbv beta. rewrite Hu, inverse_permuted_0231, ravel_4.
    apply lookup_lt_is_Some_2. rewrite Hlen. by apply ravel_4_bound. }
  eexists. split; [reflexivity|]. split; [done|]. cbn [data]. split.
  - rewrite (length_omap_total F _ Htot), length_seq. simpl. lia.
  - intros n h w ch Hn Hh Hw Hch.
    rewrite (omap_lookup_total F _ Htot).
    pose proof (ravel_4_bound a c d b n h w ch Hn Hh Hw Hch) as Hpos.
    rewrite lookup_seq_lt by (simpl; lia). cbn [mbind option_bind Nat.add].
    subst F. cbv beta.
    by rewrite unravel_4_position, inverse_permuted_0231, ravel_4.
Qed.

Section PoolingFacts.

Import Pooling.

Variable im2col : tensor R → Z → Z → Z → Z → option (tensor R).
Variable col2im : tensor R → list nat → Z → Z → Z → Z → option (tensor R).

(** After forward the layer holds the input and one argmax per window, each
    a position inside the window, as many as the output has entries. *)
Lemma forward_records_argmax (self self' : t) (x out : tensor R) :
  forward im2col self x = Some (out, self') →
  pool_h self' = pool_h self ∧ pool_w self' = pool_w self
  ∧ stride self' = stride self ∧ pad self' = pad self
  ∧ Pooling.x self' = Some x
  ∧ length (shape out) = 4
  ∧ ∃ am, arg_max self' = Some am
          ∧ length am = numel (shape out)
          ∧ Forall (λ c, c < pool_h self * pool_w self) am.
Proof.
  unfold forward. intros Hf.
  destruct (shape x) as [|N [|C [|H [|W_ [|]]]]]; try done.
  simplify_option_eq.
  match goal with
  | Hr : reshape _ [(-1)%Z; _] = Some ?c |- _ =>
      rename Hr into Hcol2;
      destruct (shape c) as [|K [|P [|]]] eqn:Hs2; try done
  end.
  simplify_option_eq.
  match goal with
  | Ha : mapM argmax _ = Some ?a, Hr : reshape (Tensor [K] _) _ = Some ?o,
    Hp : permute ?o _ = Some _ |- _ =>
      rename Ha into Ham; rename Hr into Ho1; rename Hp into Ho2;
      rename a into am; rename o into o1
  end.
  cbn.
  destruct (reshape_keeps_entries _ _ _ Ho1) as (_ & Hl1 & Hn1).
  destruct (permute_keeps_numel_4 o1 out _ Hl1 (or_introl eq_refl) Ho2) as [Hl2 Hn2].
  repeat (split; [done|]).
  exists am. split; [done|]. split.
  - rewrite Hn2, Hn1. simpl. apply length_mapM in Ham.
    rewrite length_chunks in Ham. lia.
  - assert (HP : P = pool_h self * pool_w self).
    { unfold reshape in Hcol2.
      destruct (negb _); [done|].
      rewrite filter_cons_True, filter_cons_False in Hcol2 by lia.
      rewrite filter_nil in Hcol2. cbn [length] in Hcol2.
      destruct (_ && _); [|done]. injection Hcol2 as <-. simpl in Hs2.
      destruct (decide (Z.of_nat (pool_h self * pool_w self) = (-1)%Z)); [lia|].
      injection Hs2 as _ <-. by rewrite Nat2Z.id. }
    rewrite <- HP. eapply argmax_rows_bound; [|exact Ham]. apply chunks_row_length.
Qed.

End PoolingFacts.

Lemma forallb_ltb (P : nat) (l : list nat) :
  Forall (λ c, c < P) l → forallb (λ c, c <? P) l = true.
Proof.
  intros H. apply forallb_forall. intros c Hc. apply Nat.ltb_lt.
  rewrite Forall_forall in H. apply H. by apply list_elem_of_In.
Qed.

(** ** Pooling.backward *)

(** The window matrix in terms of the permuted view of [dout]: row [k]
    holds the [k]-th entry of the view at the argmax of window [k] and 0
    elsewhere. *)
Lemma pooling_backward_scatter
    (im2col : tensor R → Z → Z → Z → Z → option (tensor R))
    (col2im : tensor R → list nat → Z → Z → Z → Z → option (tensor R))
    (self self' : Pooling.t) (x out dout dperm : tensor R) (N C oh ow : nat) :
  Pooling.forward im2col self x = Some (out, self') →
  shape out = [N; C; oh; ow] →
  0 < N * oh * ow →
  shape dout = shape out →
  permute dout [0; 2; 3; 1] = Some dperm →
  length (data dperm) = numel (shape dperm) →
  ∃ am dcol,
    Pooling.arg_max self' = Some am
    ∧ length am = N * oh * ow * C
    ∧ Pooling.backward_dcol self' dout = Some dcol
    ∧ Pooling.backward col2im self' dout =
        col2im dcol (shape x) (Z.of_nat (Pooling.pool_h self))
          (Z.of_nat (Pooling.pool_w self)) (Pooling.stride self) (Pooling.pad self)
    ∧ shape dcol = [N * oh * ow; C * (Pooling.pool_h self * Pooling.pool_w self)]
    ∧ ∀ k p g,
        data dperm !! k = Some g →
        p < Pooling.pool_h self * Pooling.pool_w self →
        data dcol !! (k * (Pooling.pool_h self * Pooling.pool_w self) + p)
        = Some (if decide (am !! k = Some p) then g else 0%R).
Proof.
  intros Hf Hout Hpos Hdout Hperm Hwf.
  destruct (forward_records_argmax im2col self self' x out Hf)
    as (Hph & Hpw & Hst & Hpd & Hx & _ & am & Ham & Hlam & Hbound).
  set (P := Pooling.pool_h self * Pooling.pool_w self) in *.
  assert (Hsp : shape dperm = [N; oh; ow; C]).
  { rewrite (permute_shape dout dperm _ Hperm), Hdout, Hout. done. }
  assert (HM : numel (shape dperm) = N * oh * ow * C).
  { rewrite Hsp. simpl. lia. }
  assert (HK : length am = N * oh * ow * C).
  { rewrite Hlam, Hout. simpl. lia. }
  set (M := N * oh * ow * C) in *.
  set (dmax := scatter P 0 am (data dperm) (replicate (M * P) 0%R)).
  assert (Hdcol : Pooling.backward_dcol self' dout = Some (Tensor [N * oh * ow; C * P] dmax)).
  { unfold Pooling.backward_dcol. rewrite Hperm. cbn [mbind option_bind].
    rewrite Ham. cbn [mbind option_bind]. rewrite Hph, Hpw. fold P. rewrite HM.
    unfold index_put_rows. cbn [shape data].
    rewrite decide_True by lia. cbn [mbind option_bind].
    rewrite (forallb_ltb P am Hbound).
    replace (length am <=? M) with true by (symmetry; apply Nat.leb_le; lia).
    cbn [andb mbind option_bind]. fold dmax.
    rewrite (reshape_exact (Tensor [M; P] dmax) (shape dperm ++ [P])).
    2:{ rewrite numel_app, HM. simpl. lia. }
    cbn [mbind option_bind shape]. rewrite Hsp. cbn [app].
    change [Z.of_nat (N * oh * ow); (-1)%Z]
      with ((Z.of_nat <$> [N * oh * ow]) ++ [(-1)%Z]).
    rewrite (reshape_last_inferred _ [N * oh * ow] (C * P)).
    - done.
    - simpl. lia.
    - simpl. lia. }
  exists am, (Tensor [N * oh * ow; C * P] dmax).
  split; [done|]. split; [done|]. split; [done|]. split; [|split; [done|]].
  - unfold Pooling.backward. rewrite Hdcol. cbn [mbind option_bind].
    rewrite Hx. cbn [mbind option_bind]. by rewrite Hph, Hpw, Hst, Hpd.
  - intros k p g Hg Hp. cbn [data]. subst dmax.
    assert (Hk : k < M).
    { apply lookup_lt_Some in Hg. lia. }
    rewrite scatter_lookup;
      [ | done | lia | rewrite length_replicate; lia | done].
    rewrite Nat.sub_0_r.
    destruct (decide (am !! k = Some p)) as [Hkp|Hkp].
    + rewrite decide_True by (split; [lia | done]). done.
    + rewrite decide_False by (intros [_ ?]; done).
      apply lookup_replicate_2. nia.
Qed.

(** C7: after a forward call whose output has shape (N, C, oh, ow),
    backward on an upstream gradient [dout] of that shape hands to col2im
    the window matrix [dcol] in which the row of window (n, h, w) and
    channel ch holds the incoming value [dout[n, ch, h, w]] at the argmax
    position recorded by forward for that window, and exactly 0 at every
    other position of the window; an upstream gradient of 1 lands in full
    at the argmax position. *)
Theorem pooling_backward_routes_to_argmax
    (im2col : tensor R → Z → Z → Z → Z → option (tensor R))
    (col2im : tensor R → list nat → Z → Z → Z → Z → option (tensor R))
    (self self' : Pooling.t) (x out dout : tensor R) (N C oh ow : nat) :
  Pooling.forward im2col self x = Some (out, self') →
  shape out = [N; C; oh; ow] →
  0 < N * oh * ow →
  shape dout = shape out →
  length (data dout) = N * C * oh * ow →
  ∃ am dcol,
    Pooling.arg_max self' = Some am
    ∧ length am = N * oh * ow * C
    ∧ Pooling.backward col2im self' dout =
        col2im dcol (shape x) (Z.of_nat (Pooling.pool_h self))
          (Z.of_nat (Pooling.pool_w self)) (Pooling.stride self) (Pooling.pad self)
    ∧ shape dcol = [N * oh * ow; C * (Pooling.pool_h self * Pooling.pool_w self)]
    ∧ ∀ n h w ch p g,
        n < N → h < oh → w < ow → ch < C →
        p < Pooling.pool_h self * Pooling.pool_w self →
        data dout !! (((n * C + ch) * oh + h) * ow + w) = Some g →
        let k := ((n * oh + h) * ow + w) * C + ch in
        data dcol !! (k * (Pooling.pool_h self * Pooling.pool_w self) + p)
        = Some (if decide (am !! k = Some p) then g else 0%R).
Proof.
  intros Hf Hout Hpos Hdout Hlen.
  destruct (permute_0231 dout N C oh ow) as (dperm & Hperm & Hsp & Hlp & Hview);
    [congruence | done |].
  destruct (pooling_backward_scatter im2col col2im self self' x out dout dperm
              N C oh ow Hf Hout Hpos Hdout Hperm)
    as (am & dcol & Ham & Hlam & _ & Hback & Hsd & Hrows).
  { rewrite Hsp, Hlp. simpl. lia. }
  exists am, dcol. repeat (split; [done|]).
  intros n h w ch p g Hn Hh Hw Hch Hp Hg k. subst k.
  apply Hrows; [|done]. by rewrite Hview.
Qed.

Lemma window_forward :
  Pooling.forward window_im2col window_pool window_image
  = Some (Tensor [1; 1; 1; 1] [3%R], window_pool_after_forward).
Proof.
  unfold Pooling.forward, window_pool, window_image, window_im2col. simpl.
  unfold row_max, argmax, argmax_from. Reval. reflexivity.
Qed.

Lemma pooling_backward_routes_to_argmax_witness :
  ∃ am dcol,
    Pooling.arg_max window_pool_after_forward = Some am
    ∧ length am = 1 * 1 * 1 * 1
    ∧ Pooling.backward window_col2im window_pool_after_forward (Tensor [1; 1; 1; 1] [1%R])
      = window_col2im dcol (shape window_image) (Z.of_nat (Pooling.pool_h window_pool))
          (Z.of_nat (Pooling.pool_w window_pool)) (Pooling.stride window_pool)
          (Pooling.pad window_pool)
    ∧ shape dcol = [1 * 1 * 1; 1 * (Pooling.pool_h window_pool * Pooling.pool_w window_pool)]
    ∧ ∀ n h w ch p g,
        n < 1 → h < 1 → w < 1 → ch < 1 →
        p < Pooling.pool_h window_pool * Pooling.pool_w window_pool →
        data (Tensor [1; 1; 1; 1] [1%R]) !! (((n * 1 + ch) * 1 + h) * 1 + w) = Some g →
        let k := ((n * 1 + h) * 1 + w) * 1 + ch in
        data dcol !! (k * (Pooling.pool_h window_pool * Pooling.pool_w window_pool) + p)
        = Some (if decide (am !! k = Some p) then g else 0%R).
Proof.
  apply (pooling_backward_routes_to_argmax window_im2col window_col2im
           window_pool window_pool_after_forward window_image
           (Tensor [1; 1; 1; 1] [3%R]) (Tensor [1; 1; 1; 1] [1%R]) 1 1 1 1).
  - exact window_forward.
  - reflexivity.
  - simpl. lia.
  - reflexivity.
  - reflexivity.
Defined.

(** The 2x2 window of the specification: the upstream gradient 1 of the
    single window goes to position 1, where the largest entry 3 stood, and
    the other three positions get 0. *)
Lemma window_backward_dcol :
  Pooling.backward_dcol window_pool_after_forward (Tensor [1; 1; 1; 1] [1%R])
  = Some (Tensor [1; 4] [0%R; 1%R; 0%R; 0%R]).
Proof. reflexivity. Qed.

(** ** SoftmaxWithLoss.backward and the one-hot branch *)

Lemma py_eq_size_identity (a b : loc) :
  py_eq (getattr_size a) (getattr_size b) = bool_decide (a = b).
Proof.
  unfold py_eq, getattr_size. rewrite (bool_decide_true ("size" = "size")%string) by done.
  apply andb_true_r.
Qed.

Lemma loss_heap_one_hot_t :
  objs loss_heap_one_hot !! 2%positive = Some (LongT t_one_hot).
Proof. reflexivity. Qed.

Lemma loss_heap_one_hot_y :
  objs loss_heap_one_hot !! 1%positive = Some (FloatT y_example).
Proof. reflexivity. Qed.

(** Two distinct tensor objects never pass the test of line 87. *)
Lemma backward_distinct_objects (self : SoftmaxWithLoss.layer) (h : heap)
    (t_ref y_ref : loc) (y_ t_ : object) (batch_size : nat) :
  SoftmaxWithLoss.t self = Some t_ref →
  SoftmaxWithLoss.y self = Some y_ref →
  t_ref ≠ y_ref →
  objs h !! t_ref = Some t_ →
  objs h !! y_ref = Some y_ →
  object_shape t_ !! 0 = Some batch_size →
  SoftmaxWithLoss.backward self h =
    match y_, t_ with
    | FloatT yv, LongT tv =>
        positions ← selected_positions (shape yv)
                      (Tensor [batch_size] (seq 0 batch_size)) tv;
        Some (tmap (λ v, v / INR batch_size)%R (decrement_at yv positions))
    | _, _ => None
    end.
Proof.
  intros Ht Hy Hne Hto Hyo Hbs. unfold SoftmaxWithLoss.backward.
  rewrite Ht, Hy. cbn [mbind option_bind]. rewrite Hto, Hyo.
  cbn [mbind option_bind]. rewrite Hbs. cbn [mbind option_bind].
  rewrite py_eq_size_identity, bool_decide_false by done. done.
Qed.

Lemma selected_positions_one_hot :
  selected_positions (shape y_example) (Tensor [2] (seq 0 2)) t_one_hot
  = Some [0; 3; 1; 2].
Proof. vm_compute. reflexivity. Qed.

Lemma selected_positions_indices :
  selected_positions (shape y_example) (Tensor [2] (seq 0 2)) t_indices
  = Some [1; 2].
Proof. vm_compute. reflexivity. Qed.

(** C1 at a one-hot target: the softmax output [y] and the one-hot target
    [t] (two samples, classes 1 and 0) are different objects, so
    [self.t.size == self.y.size] compares two method objects and is false;
    the class-index branch runs with the one-hot matrix as index array and
    subtracts 1 from every entry of [y], where the specified gradient is
    [(y - t) / batch_size]. *)
Theorem softmax_backward_one_hot_target :
  SoftmaxWithLoss.backward loss_layer loss_heap_one_hot
  = Some (Tensor [2; 2] [((7 / 10 - 1) / 2)%R; ((3 / 10 - 1) / 2)%R;
                         ((2 / 10 - 1) / 2)%R; ((8 / 10 - 1) / 2)%R])
  ∧ one_hot_gradient y_example (tmap IZR t_one_hot) 2
    = Some (Tensor [2; 2] [((7 / 10 - 0) / 2)%R; ((3 / 10 - 1) / 2)%R;
                           ((2 / 10 - 1) / 2)%R; ((8 / 10 - 0) / 2)%R])
  ∧ SoftmaxWithLoss.backward loss_layer loss_heap_one_hot
    ≠ one_hot_gradient y_example (tmap IZR t_one_hot) 2.
Proof.
  assert (Hcode : SoftmaxWithLoss.backward loss_layer loss_heap_one_hot
                  = Some (Tensor [2; 2] [((7 / 10 - 1) / 2)%R; ((3 / 10 - 1) / 2)%R;
                                         ((2 / 10 - 1) / 2)%R; ((8 / 10 - 1) / 2)%R])).
  { rewrite (backward_distinct_objects loss_layer loss_heap_one_hot
               2%positive 1%positive (FloatT y_example) (LongT t_one_hot) 2)
      by done.
    rewrite selected_positions_one_hot. reflexivity. }
  assert (Hspec : one_hot_gradient y_example (tmap IZR t_one_hot) 2
                  = Some (Tensor [2; 2] [((7 / 10 - 0) / 2)%R; ((3 / 10 - 1) / 2)%R;
                                         ((2 / 10 - 1) / 2)%R; ((8 / 10 - 0) / 2)%R])).
  { unfold one_hot_gradient, tensor_zip.
    replace (broadcast_shapes (shape y_example) (shape (tmap IZR t_one_hot)))
      with (Some [2; 2]) by (vm_compute; reflexivity).
    reflexivity. }
  split; [done|]. split; [done|].
  rewrite Hcode, Hspec. intros H. injection H as H _. lra.
Qed.

(** A one-hot target of floats cannot index at all: the call raises. *)
Lemma softmax_backward_float_one_hot_raises (h : heap) (y_ t_ : tensor R) :
  objs h !! 1%positive = Some (FloatT y_) →
  objs h !! 2%positive = Some (FloatT t_) →
  is_Some (shape t_ !! 0) →
  SoftmaxWithLoss.backward loss_layer h = None.
Proof.
  intros Hy Ht [bs Hbs].
  by rewrite (backward_distinct_objects loss_layer h 2%positive 1%positive
                (FloatT y_) (FloatT t_) bs).
Qed.

(** ** The class-index branch *)

Lemma omap_lookup_seq {A} (xs : list A) :
  ∀ pre : list A, omap (λ p, (pre ++ xs) !! p) (seq (length pre) (length xs)) = xs.
Proof.
  induction xs as [|x xs IH]; intros pre; [done|].
  cbn [length seq]. change (omap ?f (?a :: ?l))
    with (match f a with Some y => y :: omap f l | None => omap f l end).
  cbv beta. rewrite list_lookup_middle by done. f_equal.
  specialize (IH (pre ++ [x])). rewrite length_app, <- app_assoc in IH.
  cbn [length app] in IH. by rewrite Nat.add_1_r in IH.
Qed.

Lemma source_position_vector (n p : nat) :
  p < n → source_position [n] (unravel [n] p) = p.
Proof.
  intros Hp. unfold source_position. cbn [unravel numel foldr length].
  rewrite Nat.div_1_r. cbn [Nat.sub drop zip_with]. unfold ravel. cbn [zip foldl fst snd].
  destruct (Nat.eqb_spec n 1); lia.
Qed.

Lemma broadcast_to_vector {A} (xs : list A) (n : nat) :
  length xs = n → broadcast_to (Tensor [n] xs) [n] = xs.
Proof.
  intros <-. unfold broadcast_to. cbn [shape data].
  replace (numel [length xs]) with (length xs) by (simpl; lia).
  etrans; [|exact (omap_lookup_seq xs [])]. cbn [length app].
  apply list_omap_ext, Forall_Forall2_diag, Forall_forall.
  intros p Hp. apply elem_of_seq in Hp.
  by rewrite source_position_vector by lia.
Qed.

Lemma broadcast_shapes_vector (n : nat) : broadcast_shapes [n] [n] = Some [n].
Proof.
  unfold broadcast_shapes. cbn [reverse rev_append broadcast_axes mbind option_bind].
  by rewrite decide_True.
Qed.

(** The index pairs of [dx[torch.arange(n), t]] for class indices inside
    the class axis. *)
Lemma index_pairs_in_range (n c : nat) (td : list Z) :
  Forall (λ v, (0 ≤ v < Z.of_nat c)%Z) td →
  ∀ off, off + length td ≤ n →
    mapM (λ rc : nat * Z,
            ci ← np_index c rc.2;
            if rc.1 <? n then Some (rc.1, ci) else None)
         (zip (seq off (length td)) td)
    = Some (zip (seq off (length td)) (Z.to_nat <$> td)).
Proof.
  induction 1 as [|v td Hv _ IH]; intros off Hoff; [done|].
  cbn [length seq zip zip_with fmap list_fmap mapM] in *.
  cbn [fst snd mbind option_bind].
  pose proof (np_index_of_nat c (Z.to_nat v) ltac:(lia)) as Hi.
  rewrite Z2Nat.id in Hi by lia. rewrite Hi.
  cbn [mbind option_bind].
  replace (off <? n) with true by (symmetry; apply Nat.ltb_lt; lia).
  cbn [mbind option_bind].
  rewrite (IH (S off)) by lia. done.
Qed.

Lemma positions_of_pairs (c : nat) (ti : list nat) :
  ∀ off,
    (zip (seq off (length ti)) ti
       ≫= λ rc, (λ k, (rc.1 * c + rc.2) * numel [] + k) <$> seq 0 (numel []))
    = imap (λ k ci, (off + k) * c + ci) ti.
Proof.
  induction ti as [|ci ti IH]; intros off; [done|].
  cbn [length seq zip zip_with]. rewrite bind_cons, imap_cons, (IH (S off)).
  cbn [fst snd numel foldr seq fmap list_fmap app].
  f_equal; [lia|]. apply imap_ext. intros k x _. simpl. lia.
Qed.

(** [dx[positions] -= 1] entry by entry. *)
Lemma decrement_lookup (f : nat → R) (ps : list nat) :
  ∀ (acc : list R) (q : nat),
    foldl (λ acc p, <[p := f p]> acc) acc ps !! q =
      if decide (q ∈ ps ∧ q < length acc) then Some (f q) else acc !! q.
Proof.
  induction ps as [|p ps IH]; intros acc q.
  - cbn [foldl]. rewrite decide_False; [done|]. intros [H _]. by apply elem_of_nil in H.
  - cbn [foldl]. rewrite IH, length_insert, list_lookup_insert.
    destruct (decide (q ∈ ps ∧ q < length acc)) as [[Hin Hlt]|Hn].
    + by rewrite decide_True by (split; [by right | done]).
    + destruct (decide (p = q ∧ p < length acc)) as [[-> Hlt]|Hn'].
      * by rewrite decide_True by (split; [by left | done]).
      * rewrite decide_False; [done|]. intros [Hin Hlt].
        apply elem_of_cons in Hin as [->|Hin]; [by apply Hn' | by apply Hn].
Qed.

(** For integer class indices [t] (a different object than [y], one index
    per row, each inside the class axis) backward returns [y] with 1
    subtracted at the true class of each row, divided by the batch size:
    this half of C1 holds. *)
Lemma softmax_backward_class_indices
    (self : SoftmaxWithLoss.layer) (h : heap) (t_ref y_ref : loc)
    (n c : nat) (yd : list R) (td : list Z) :
  SoftmaxWithLoss.t self = Some t_ref →
  SoftmaxWithLoss.y self = Some y_ref →
  objs h !! y_ref = Some (FloatT (Tensor [n; c] yd)) →
  objs h !! t_ref = Some (LongT (Tensor [n] td)) →
  length yd = n * c →
  length td = n →
  Forall (λ v, (0 ≤ v < Z.of_nat c)%Z) td →
  SoftmaxWithLoss.backward self h
  = Some (class_index_gradient (Tensor [n; c] yd) (Z.to_nat <$> td) n).
Proof.
  intros Ht Hy Hyo Hto Lyd Ltd Hrange.
  assert (Hne : t_ref ≠ y_ref) by (intros ->; congruence).
  rewrite (backward_distinct_objects self h t_ref y_ref _ _ n Ht Hy Hne Hto Hyo eq_refl).
  unfold selected_positions. cbn [shape].
  rewrite broadcast_shapes_vector. cbn [mbind option_bind].
  rewrite !broadcast_to_vector by (done || by rewrite length_seq).
  rewrite <- Ltd at 1.
  rewrite (index_pairs_in_range n c td Hrange 0) by lia.
  cbn [mbind option_bind].
  replace (length td) with (length (Z.to_nat <$> td)) by (by rewrite length_fmap).
  rewrite (positions_of_pairs c (Z.to_nat <$> td) 0).
  unfold class_index_gradient, decrement_at, tmap. cbn [shape data].
  do 2 f_equal. apply list_eq. intros q.
  rewrite list_lookup_fmap, decrement_lookup, list_lookup_imap.
  destruct (yd !! q) as [v|] eqn:Hq.
  - apply lookup_lt_Some in Hq as Hlt. cbn [default].
    assert (Hc : c ≠ 0) by (intros ->; lia).
    destruct (decide ((Z.to_nat <$> td) !! (q / c) = Some (q mod c))) as [Hhit|Hmiss].
    + rewrite decide_True; [done|]. split; [|done].
      apply elem_of_lookup_imap. exists (q / c), (q mod c). split; [|done].
      rewrite Nat.add_0_l, Nat.mul_comm. by apply Nat.div_mod.
    + rewrite decide_False; [done|]. intros [Hin _]. apply Hmiss.
      apply elem_of_lookup_imap in Hin as (k & ci & -> & Hk).
      assert (Hci : ci < c).
      { rewrite list_lookup_fmap in Hk.
        destruct (td !! k) as [v0|] eqn:Hv0; [|done]. injection Hk as <-.
        eapply Forall_lookup_1 in Hrange; [|exact Hv0]. simpl in Hrange. lia. }
      rewrite Nat.add_0_l.
      replace ((k * c + ci) / c) with k
        by (apply (Nat.div_unique _ c k ci); lia).
      replace ((k * c + ci) mod c) with ci
        by (apply (Nat.mod_unique _ c k ci); lia).
      done.
  - rewrite decide_False; [done|].
    intros [_ Hlt]. apply lookup_ge_None in Hq. lia.
Qed.

(** ** load_params and the sharing of parameter tensors *)

Section LoadParams.

Import Network.

Lemma layer_shares_spec (self : t) (key : string) (i : nat) :
  layer_shares self (key, i) = true ↔
  ∃ l w b,
    layers_get (layers self) key = Some l
    ∧ params self !! ("W" +:+ str i) = Some w
    ∧ params self !! ("b" +:+ str i) = Some b
    ∧ layer_W l = Some w
    ∧ layer_b l = Some b.
Proof.
  unfold layer_shares. cbn [fst snd]. split.
  - destruct (layers_get _ _) as [l|]; [|done].
    destruct (params self !! ("W" +:+ str i)) as [w|]; [|done].
    destruct (params self !! ("b" +:+ str i)) as [b|]; [|done].
    intros [HW Hb]%andb_true_iff.
    apply bool_decide_eq_true in HW, Hb. by exists l, w, b.
  - intros (l & w & b & -> & -> & -> & HW & Hb).
    apply andb_true_iff. by split; apply bool_decide_eq_true.
Qed.

Lemma shares_parameters_test (convention : list (string * nat)) (self : t) :
  forallb (layer_shares self) convention = true ↔ shares_parameters convention self.
Proof.
  rewrite forallb_forall. unfold shares_parameters. split.
  - intros H key i Hin. apply layer_shares_spec, H. by apply list_elem_of_In.
  - intros H [key i] Hin. apply layer_shares_spec, H. by apply list_elem_of_In.
Qed.

(** A test that holds of the network a computation returns holds of that
    network. *)
Lemma returned_network_passes (run : option (t * heap)) (test : t → bool) :
  (test ∘ fst) <$> run = Some true →
  ∃ net h, run = Some (net, h) ∧ test net = true.
Proof. destruct run as [[net h]|]; [|done]. intros [= H]. by exists net, h. Qed.

(** The constructor of VGG16 establishes the invariant: every Conv and
    Affine layer holds the objects of the parameter mapping. *)
Lemma VGG16_init_shares_parameters (init : string → tensor R) :
  ∃ net h,
    VGG16_init init empty_heap = Some (net, h)
    ∧ shares_parameters VGG16_convention net.
Proof.
  destruct (returned_network_passes (VGG16_init init empty_heap)
              (λ net, forallb (layer_shares net) VGG16_convention))
    as (net & h & Hrun & Htest).
  { vm_compute. reflexivity. }
  exists net, h. split; [exact Hrun|]. clear Hrun.
  apply shares_parameters_test. exact Htest.
Qed.

(** C3 on VGG16: the loop of lines 233-235 is the one of the base network.
    After [load_params] on a freshly built VGG16, with a file holding all 32
    parameters, the invariant is broken: Affine1 holds the objects loaded
    as W2 and b2 instead of W14 and b14, and Conv2 still holds the tensor
    the constructor made, not the object now stored as W2; only Conv1 is
    bound to its own parameters. *)
Theorem VGG16_load_params_breaks_sharing (init saved : string → tensor R) :
  ∃ net h,
    (net0 <- VGG16_init init ;; load_params net0 (VGG16_file saved)) empty_heap
      = Some (net, h)
    ∧ ¬ shares_parameters VGG16_convention net
    ∧ (layers_get (layers net) "Conv1" ≫= layer_W) = params net !! "W1"%string
    ∧ (layers_get (layers net) "Affine1" ≫= layer_W) = params net !! "W2"%string
    ∧ (layers_get (layers net) "Affine1" ≫= layer_W) ≠ params net !! "W14"%string
    ∧ (layers_get (layers net) "Conv2" ≫= layer_W) ≠ params net !! "W2"%string
    ∧ (layers_get (layers net) "Affine3" ≫= layer_b) ≠ params net !! "b16"%string.
Proof.
  destruct (returned_network_passes
              ((net0 <- VGG16_init init ;; load_params net0 (VGG16_file saved)) empty_heap)
              misbound_after_load)
    as (net & h & Hrun & Htest).
  { vm_compute. reflexivity. }
  exists net, h. split; [exact Hrun|]. clear Hrun.
  unfold misbound_after_load in Htest.
  repeat (apply andb_true_iff in Htest as [Htest ?]).
  repeat match goal with
         | H : bool_decide _ = true |- _ => apply bool_decide_eq_true in H
         end.
  split; [|repeat split; assumption].
  intros Hshare. apply shares_parameters_test in Hshare.
  rewrite Hshare in Htest. discriminate Htest.
Qed.

End LoadParams.

Section BaseNetwork.

Import Network.

Ltac in_list := apply list_elem_of_In; cbn; tauto.

Lemma layers_get_update_eq (ls : list (string * layer)) (key : string) (l l' : layer) :
  layers_get ls key = Some l →
  layers_get (layers_update ls key l') key = Some l'.
Proof.
  induction ls as [|[k l0] ls IH]; [done|]. simpl.
  destruct (decide (k = key)) as [->|Hne]; simpl.
  - by rewrite decide_True.
  - rewrite decide_False by done. apply IH.
Qed.

Lemma layers_get_update_ne (ls : list (string * layer)) (key key' : string) (l' : layer) :
  key ≠ key' →
  layers_get (layers_update ls key l') key' = layers_get ls key'.
Proof.
  intros Hne. induction ls as [|[k l0] ls IH]; [done|]. simpl.
  destruct (decide (k = key)) as [->|Hk]; simpl.
  - by rewrite !decide_False.
  - destruct (decide (k = key')); [done | apply IH].
Qed.

Lemma set_weights_W (l : layer) (w b : loc) :
  is_Some (layer_W l) → layer_W (set_b (set_W l w) b) = Some w.
Proof. by destruct l; intros [? ?]. Qed.

Lemma set_weights_b (l : layer) (w b : loc) :
  is_Some (layer_W l) → layer_b (set_b (set_W l w) b) = Some b.
Proof. by destruct l; intros [? ?]. Qed.

(** One round of the loop binds the layer [key] to the parameters [i + 1]
    and leaves the other layers alone. *)
Lemma rebind_round (params : gmap string loc) (ls : list (string * layer))
    (i : nat) (key : string) (l : layer) (w b : loc) :
  layers_get ls key = Some l →
  params !! ("W" +:+ str (i + 1)) = Some w →
  params !! ("b" +:+ str (i + 1)) = Some b →
  ∃ ls',
    rebind params (Some ls) (i, key) = Some ls'
    ∧ layers_get ls' key = Some (set_b (set_W l w) b)
    ∧ ∀ key', key ≠ key' → layers_get ls' key' = layers_get ls key'.
Proof.
  intros Hl Hw Hb. eexists. split; [|split].
  - unfold rebind. cbn [mbind option_bind fst snd]. rewrite Hw.
    cbn [mbind option_bind]. rewrite Hl. cbn [mbind option_bind]. rewrite Hb.
    cbn [mbind option_bind]. rewrite (layers_get_update_eq ls key l _ Hl).
    cbn [mbind option_bind]. reflexivity.
  - eapply layers_get_update_eq, layers_get_update_eq, Hl.
  - intros key' Hne. by rewrite !layers_get_update_ne.
Qed.

(** On a network with the layers Conv1, Affine1 and Affine2 of the base
    network, once the parameter mapping holds W1..W3 and b1..b3, the loop
    of load_params makes every one of these layers hold the objects of
    the mapping. *)
Lemma rebind_base_network (params : gmap string loc) (ls : list (string * layer)) :
  (∀ key, key ∈ ["Conv1"; "Affine1"; "Affine2"]%string →
          ∃ l, layers_get ls key = Some l ∧ is_Some (layer_W l)) →
  (∀ name, name ∈ ["W1"; "b1"; "W2"; "b2"; "W3"; "b3"]%string →
           is_Some (params !! name)) →
  ∃ ls',
    foldl (rebind params) (Some ls)
      (imap (λ i key, (i, key)) ["Conv1"; "Affine1"; "Affine2"]%string) = Some ls'
    ∧ shares_parameters CNN_convention (Make params ls').
Proof.
  intros Hls Hps.
  destruct (Hls "Conv1"%string) as (l1 & Hl1 & HW1); [in_list|].
  destruct (Hls "Affine1"%string) as (l2 & Hl2 & HW2); [in_list|].
  destruct (Hls "Affine2"%string) as (l3 & Hl3 & HW3); [in_list|].
  destruct (Hps "W1"%string) as [w1 Hw1]; [in_list|].
  destruct (Hps "b1"%string) as [b1 Hb1]; [in_list|].
  destruct (Hps "W2"%string) as [w2 Hw2]; [in_list|].
  destruct (Hps "b2"%string) as [b2 Hb2]; [in_list|].
  destruct (Hps "W3"%string) as [w3 Hw3]; [in_list|].
  destruct (Hps "b3"%string) as [b3 Hb3]; [in_list|].
  destruct (rebind_round params ls 0 "Conv1" l1 w1 b1 Hl1 Hw1 Hb1)
    as (ls1 & Hr1 & Hg1 & Ho1).
  destruct (rebind_round params ls1 1 "Affine1" l2 w2 b2) as (ls2 & Hr2 & Hg2 & Ho2);
    [by rewrite Ho1 | done | done |].
  destruct (rebind_round params ls2 2 "Affine2" l3 w3 b3) as (ls3 & Hr3 & Hg3 & Ho3);
    [by rewrite Ho2, Ho1 | done | done |].
  exists ls3. split.
  - cbn [imap foldl]. rewrite Hr1. cbn [compose]. rewrite Hr2. rewrite Hr3. done.
  - intros key i Hin. unfold CNN_convention in Hin.
    apply elem_of_cons in Hin as [[= -> ->]|Hin];
      [|apply elem_of_cons in Hin as [[= -> ->]|Hin];
        [|apply elem_of_cons in Hin as [[= -> ->]|Hin]; [|by apply elem_of_nil in Hin]]].
    + exists (set_b (set_W l1 w1) b1), w1, b1. cbn [layers Network.params].
      rewrite Ho3, Ho2 by done.
      repeat split; try done; [by apply set_weights_W | by apply set_weights_b].
    + exists (set_b (set_W l2 w2) b2), w2, b2. cbn [layers Network.params].
      rewrite Ho3 by done.
      repeat split; try done; [by apply set_weights_W | by apply set_weights_b].
    + exists (set_b (set_W l3 w3) b3), w3, b3. cbn [layers Network.params].
      repeat split; try done; [by apply set_weights_W | by apply set_weights_b].
Qed.

End BaseNetwork.

Section LoadBase.

Import Network.

Lemma unpickle_keys (file : list (string * tensor R)) :
  ∀ h, ∃ loaded h', unpickle file h = Some (loaded, h') ∧ loaded.*1 = file.*1.
Proof.
  induction file as [|[key val] file IH]; intros h.
  - by exists [], h.
  - cbn [unpickle]. unfold bind at 1. unfold alloc.
    destruct (IH (Heap (<[next h:=FloatT val]> (objs h)) (Pos.succ (next h))))
      as (loaded & h' & Hu & Hk).
    exists ((key, next h) :: loaded), h'. split.
    + unfold bind. rewrite Hu. done.
    + cbn. by rewrite Hk.
Qed.

Lemma insert_all_keeps (l : list (string * loc)) :
  ∀ (m : gmap string loc) (k : string),
    is_Some (m !! k) →
    is_Some (foldl (λ m kv, <[kv.1 := kv.2]> m) m l !! k).
Proof.
  induction l as [|[k0 v0] l IH]; intros m k Hk; [done|].
  cbn [foldl]. apply IH. cbn.
  destruct (decide (k0 = k)) as [->|Hne].
  - rewrite lookup_insert_eq. eauto.
  - by rewrite lookup_insert_ne.
Qed.

Lemma insert_all_defines (l : list (string * loc)) :
  ∀ (m : gmap string loc) (k : string),
    k ∈ l.*1 →
    is_Some (foldl (λ m kv, <[kv.1 := kv.2]> m) m l !! k).
Proof.
  induction l as [|[k0 v0] l IH]; intros m k Hk.
  - by apply elem_of_nil in Hk.
  - cbn in Hk. apply elem_of_cons in Hk as [->|Hk]; cbn [foldl].
    + apply insert_all_keeps. cbn. rewrite lookup_insert_eq. eauto.
    + by apply IH.
Qed.

(** [load_params] on the base network: with the layers Conv1, Affine1 and
    Affine2 in place and a file that holds W1..W3 and b1..b3, the call
    returns and the invariant holds afterwards. *)
Lemma load_params_base_network
    (self : t) (file : list (string * tensor R)) (h : heap) :
  (∀ key, key ∈ ["Conv1"; "Affine1"; "Affine2"]%string →
          ∃ l, layers_get (layers self) key = Some l ∧ is_Some (layer_W l)) →
  (∀ name, name ∈ ["W1"; "b1"; "W2"; "b2"; "W3"; "b3"]%string → name ∈ file.*1) →
  ∃ net h',
    load_params self file h = Some (net, h')
    ∧ shares_parameters CNN_convention net.
Proof.
  intros Hls Hfile.
  destruct (unpickle_keys file h) as (loaded & h' & Hu & Hk).
  destruct (rebind_base_network
              (foldl (λ m kv, <[kv.1 := kv.2]> m) (params self) loaded)
              (layers self) Hls) as (ls' & Hfold & Hshare).
  { intros name Hname. apply insert_all_defines. rewrite Hk. by apply Hfile. }
  eexists _, h'. split; [|exact Hshare].
  unfold load_params, bind. rewrite Hu, Hfold. done.
Qed.

End LoadBase.
(** * Further properties of the layers and of the networks *)

(** ** Relu: forward, and forward followed by backward *)

Lemma Rle0b_clamp (v : R) : (if Rle0b v then 0%R else v) = Rmax 0 v.
Proof.
  unfold Rle0b, Rmax. destruct (Rle_dec v 0) as [Hv|Hv], (Rle_dec 0 v) as [Hw|Hw];
    try reflexivity; lra.
Qed.

(** X1: Relu.forward returns a new tensor object, different from every
    object alive before the call, with the input's shape and the entries
    max(0, x), none of them negative; the input object and every other
    object of the store stay as they were, and the layer records the mask
    [x <= 0]. *)
Theorem Relu_forward_clamps (self : Relu.t) (x : loc) (xt : tensor R) (h : heap) :
  objs h !! x = Some (FloatT xt) →
  objs h !! next h = None →
  ∃ (out : loc) (self' : Relu.t) (h' : heap) (o : tensor R),
    Relu.forward self x h = Some ((out, self'), h')
    ∧ objs h !! out = None
    ∧ objs h' !! out = Some (FloatT o)
    ∧ shape o = shape xt
    ∧ data o = Rmax 0 <$> data xt
    ∧ Forall (λ v, (0 <= v)%R) (data o)
    ∧ Relu.mask self' = Some (tmap Rle0b xt)
    ∧ ∀ l, l ≠ out → objs h' !! l = objs h !! l.
Proof.
  intros Hx Hfresh.
  destruct (Relu_forward_records_mask self x xt h Hx) as (o & Hrun & Hshape & Hdata).
  eexists _, _, _, o. split; [exact Hrun|].
  assert (Hclamp : data o = Rmax 0 <$> data xt).
  { rewrite Hdata. apply list_fmap_ext. intros _ v _. apply Rle0b_clamp. }
  repeat split.
  - exact Hfresh.
  - cbn [objs]. apply lookup_insert_eq.
  - exact Hshape.
  - exact Hclamp.
  - rewrite Hclamp. apply Forall_fmap, Forall_true. intros v. cbn. apply Rmax_l.
  - intros l Hl. cbn [objs]. by apply lookup_insert_ne.
Qed.

Lemma Relu_forward_clamps_witness :
  ∃ (out : loc) (self' : Relu.t) (h' : heap) (o : tensor R),
    Relu.forward Relu.__init__ 1%positive heap_example = Some ((out, self'), h')
    ∧ objs heap_example !! out = None
    ∧ objs h' !! out = Some (FloatT o)
    ∧ shape o = shape dout_example
    ∧ data o = Rmax 0 <$> data dout_example
    ∧ Forall (λ v, (0 <= v)%R) (data o)
    ∧ Relu.mask self' = Some (tmap Rle0b dout_example)
    ∧ ∀ l, l ≠ out → objs h' !! l = objs heap_example !! l.
Proof.
  apply (Relu_forward_clamps Relu.__init__ 1%positive dout_example heap_example);
    reflexivity.
Defined.

(** X2: a forward pass on [x] followed by a backward pass on a gradient
    [dout] of the same shape hands back the object [dout] itself, now
    holding the gradient where the input was positive and 0 where the input
    was <= 0; the input object is not written. *)
Theorem Relu_forward_then_backward
    (self : Relu.t) (x dout : loc) (xt d : tensor R) (h : heap) :
  objs h !! x = Some (FloatT xt) →
  objs h !! dout = Some (FloatT d) →
  objs h !! next h = None →
  x ≠ dout →
  shape d = shape xt →
  ∃ (h' : heap) (d' : tensor R),
    (r <- Relu.forward self x ;; Relu.backward r.2 dout) h = Some (dout, h')
    ∧ objs h' !! dout = Some (FloatT d')
    ∧ objs h' !! x = Some (FloatT xt)
    ∧ shape d' = shape d
    ∧ length (data d') = length (data d)
    ∧ ∀ i v g, data xt !! i = Some v → data d !! i = Some g →
        data d' !! i = Some (if Rltb 0 v then g else 0%R).
Proof.
  intros Hx Hd Hfresh Hne Hs.
  destruct (Relu_forward_records_mask self x xt h Hx) as (o & Hrun & _ & _).
  assert (Hdn : dout ≠ next h) by (intros ->; congruence).
  assert (Hxn : x ≠ next h) by (intros ->; congruence).
  eexists _, (Tensor (shape d)
                 (imap (λ i g, if default false (data (tmap Rle0b xt) !! i)
                               then 0%R else g) (data d))).
  split.
  - unfold bind at 1. rewrite Hrun. cbn [snd].
    unfold Relu.backward, bind, setitem_mask, bind, deref. cbn [objs next Relu.mask].
    rewrite lookup_insert_ne by done. rewrite Hd.
    rewrite (masked_fill_same_shape d (tmap Rle0b xt) 0%R) by (symmetry; exact Hs).
    unfold assign, ret. cbn [objs next]. reflexivity.
  - cbn [objs shape data tmap]. split; [|split; [|split; [|split]]].
    + apply lookup_insert_eq.
    + rewrite lookup_insert_ne by done. rewrite lookup_insert_ne by done. exact Hx.
    + reflexivity.
    + by rewrite length_imap.
    + intros i v g Hv Hg. rewrite list_lookup_imap, Hg. cbn.
      rewrite list_lookup_fmap, Hv. cbn. f_equal.
      unfold Rle0b, Rltb. destruct (Rle_dec v 0), (Rlt_dec 0 v); try reflexivity; lra.
Qed.

Lemma Relu_forward_then_backward_witness :
  ∃ (h' : heap) (d' : tensor R),
    (r <- Relu.forward Relu.__init__ 1%positive ;; Relu.backward r.2 2%positive)
      relu_heap = Some (2%positive, h')
    ∧ objs h' !! 2%positive = Some (FloatT d')
    ∧ objs h' !! 1%positive = Some (FloatT dout_example)
    ∧ shape d' = shape relu_gradient
    ∧ length (data d') = length (data relu_gradient)
    ∧ ∀ i v g, data dout_example !! i = Some v → data relu_gradient !! i = Some g →
        data d' !! i = Some (if Rltb 0 v then g else 0%R).
Proof.
  apply (Relu_forward_then_backward Relu.__init__ 1%positive 2%positive
           dout_example relu_gradient relu_heap); done.
Defined.

(** X3: backward on a layer whose forward has never run does not raise:
    the mask is still None, [dout[None] = 0] assigns every entry, and the
    caller's gradient comes back all zero. *)
Theorem Relu_backward_before_forward (dout : loc) (d : tensor R) (h : heap) :
  objs h !! dout = Some (FloatT d) →
  ∃ d' : tensor R,
    Relu.backward Relu.__init__ dout h
      = Some (dout, Heap (<[dout:=FloatT d']> (objs h)) (next h))
    ∧ shape d' = shape d
    ∧ length (data d') = length (data d)
    ∧ Forall (λ v, v = 0%R) (data d').
Proof.
  intros Hd. exists (Tensor (shape d) (const 0%R <$> data d)). split.
  - unfold Relu.backward, bind, setitem_mask, bind, deref. rewrite Hd.
    cbn [Relu.mask Relu.__init__ masked_fill]. unfold assign, ret. reflexivity.
  - cbn [shape data]. split; [|split].
    + reflexivity.
    + by rewrite length_fmap.
    + apply Forall_fmap, Forall_true. done.
Qed.

Lemma Relu_backward_before_forward_witness :
  ∃ d' : tensor R,
    Relu.backward Relu.__init__ 1%positive heap_example
      = Some (1%positive,
              Heap (<[1%positive:=FloatT d']> (objs heap_example)) (next heap_example))
    ∧ shape d' = shape dout_example
    ∧ length (data d') = length (data dout_example)
    ∧ Forall (λ v, v = 0%R) (data d').
Proof.
  apply (Relu_backward_before_forward 1%positive dout_example heap_example).
  reflexivity.
Defined.
(** ** accuracy_f1score: what the confusion matrix counts *)

Lemma Nsum_insert (l : list nat) :
  ∀ (c v w : nat), l !! c = Some v → Nsum (<[c := w]> l) + v = Nsum l + w.
Proof.
  induction l as [|a l IH]; intros [|c] v w Hc; try done.
  - injection Hc as ->. unfold Nsum. cbn. lia.
  - specialize (IH c v w Hc).
    change (<[S c:=w]> (a :: l)) with (a :: <[c:=w]> l). rewrite !Nsum_cons. lia.
Qed.

Lemma cm_total_zeros (labels : nat) : cm_total (cm_zeros labels) = 0.
Proof.
  unfold cm_total, cm_zeros. rewrite fmap_replicate.
  assert (Hzeros : ∀ n, Nsum (replicate n 0) = 0).
  { intros n. induction n as [|n IH]; [done|].
    change (replicate (S n) 0) with (0 :: replicate n 0). by rewrite Nsum_cons, IH. }
  rewrite Hzeros. apply Hzeros.
Qed.

(** One [+= 1] keeps the matrix's dimensions and adds one to its total. *)
Lemma cm_incr_total (labels : nat) (cm cm' : matrix) (r : Z) (c : nat) :
  cm_incr cm r c = Some cm' →
  square labels cm →
  square labels cm' ∧ cm_total cm' = S (cm_total cm).
Proof.
  unfold cm_incr. intros Hrun [Hlen Hrows].
  destruct (np_index (length cm) r) as [ri|]; [|done]. cbn in Hrun.
  destruct (cm !! ri) as [row|] eqn:Hrow; [|done]. cbn in Hrun.
  destruct (row !! c) as [v|] eqn:Hv; [|done]. cbn in Hrun.
  injection Hrun as <-. split.
  - split; [by rewrite length_insert|].
    apply Forall_insert; [done|]. rewrite length_insert.
    eapply Forall_lookup_1 in Hrows; [exact Hrows | exact Hrow].
  - unfold cm_total. rewrite list_fmap_insert.
    pose proof (Nsum_insert (Nsum <$> cm) ri (Nsum row) (Nsum (<[c:=S v]> row))) as H1.
    rewrite list_lookup_fmap, Hrow in H1. specialize (H1 eq_refl).
    pose proof (Nsum_insert row c v (S v) Hv) as H2. lia.
Qed.

(** The inner loop counts every prediction of the batch once. *)
Lemma count_batch_total (labels : nat) (y : list nat) :
  ∀ (cm cm' : matrix) (tt : list Z) (j : nat),
    count_batch cm tt j y = Some cm' →
    square labels cm →
    square labels cm' ∧ cm_total cm' = cm_total cm + length y.
Proof.
  induction y as [|yj y IH]; intros cm cm' tt j Hrun Hsq.
  - injection Hrun as <-. split; [done | cbn; lia].
  - cbn [count_batch] in Hrun.
    destruct (tt !! j) as [tj|]; [|done]. cbn in Hrun.
    destruct (cm_incr cm tj yj) as [cm1|] eqn:Hincr; [|done]. cbn in Hrun.
    destruct (cm_incr_total labels cm cm1 tj yj Hincr Hsq) as [Hsq1 Htot1].
    destruct (IH cm1 cm' tt (S j) Hrun Hsq1) as [Hsq' Htot'].
    split; [done|]. cbn. lia.
Qed.

Lemma mapM_argmax_length (scores : list (list R)) (y : list nat) :
  mapM argmax scores = Some y → length y = length scores.
Proof. intros H. symmetry. by eapply length_mapM. Qed.

Section FullBatches.

Context {X net : Type}.
Variable predict : net → list X → bool → option (list (list R) * net).
Variables (x : list X) (tl : list Z) (batch_size labels : nat) (is_final : bool).

(** The network scores every sample it is given. *)
Hypothesis one_row_per_sample :
  ∀ self tx flag scores self',
    predict self tx flag = Some (scores, self') → length scores = length tx.

(** The batch loop counts [batch_size] samples in each of its rounds. *)
Lemma eval_rounds_total (n : nat) :
  ∀ (i : nat) (cm cm' : matrix) (self self' : net),
    foldl (eval_batch predict x tl batch_size is_final) (Some (cm, self)) (seq i n)
      = Some (cm', self') →
    (i + n) * batch_size ≤ length x →
    square labels cm →
    square labels cm' ∧ cm_total cm' = cm_total cm + n * batch_size.
Proof.
  induction n as [|n IH]; intros i cm cm' self self' Hrun Hlen Hsq.
  - injection Hrun as <- <-. split; [done | lia].
  - cbn [seq foldl] in Hrun.
    destruct (eval_batch predict x tl batch_size is_final (Some (cm, self)) i)
      as [[cm1 self1]|] eqn:Hround.
    + unfold eval_batch in Hround. cbn in Hround.
      destruct (predict self (take batch_size (drop (i * batch_size) x))
                  (is_final && (i =? 0))) as [[scores s1]|] eqn:Hp; [|done].
      cbn in Hround.
      destruct (mapM argmax scores) as [y|] eqn:Hy; [|done]. cbn in Hround.
      destruct (count_batch cm (take batch_size (drop (i * batch_size) tl)) 0 y)
        as [cm2|] eqn:Hc; [|done].
      cbn in Hround. injection Hround as <- <-.
      destruct (count_batch_total labels y _ _ _ _ Hc Hsq) as [Hsq2 Htot2].
      destruct (IH (S i) cm2 cm' s1 self' Hrun) as [Hsq' Htot']; [lia | done |].
      split; [done|].
      apply mapM_argmax_length in Hy. apply one_row_per_sample in Hp.
      rewrite length_take, length_drop in Hp. nia.
    + exfalso. clear -Hrun. revert Hrun. generalize (seq (S i) n). intros l.
      induction l as [|a l IHl]; cbn; [done | exact IHl].
Qed.

End FullBatches.

(** What a returning call has computed. *)
Lemma accuracy_f1score_returns
    {X net : Type} (predict : net → list X → bool → option (list (list R) * net))
    (output_size : nat) (self self' : net) (x : list X) (t : target)
    (batch_size : nat) (is_final : bool) (acc f1 : np_float) (cm : matrix) :
  accuracy_f1score predict output_size self x t batch_size is_final
    = Some (acc, f1, cm, self') →
  ∃ tl,
    class_labels t = Some tl
    ∧ batch_size ≠ 0
    ∧ eval_batches predict x tl batch_size is_final output_size self = Some (cm, self')
    ∧ accuracy output_size cm (length x) = Some acc
    ∧ f1 = f1score (precision_avg output_size cm) (recall_avg output_size cm).
Proof.
  intros Hrun. unfold accuracy_f1score in Hrun.
  destruct (class_labels t) as [tl|]; [|done]. cbn [mbind option_bind] in Hrun.
  destruct (Nat.eqb_spec batch_size 0) as [|Hb]; [done|].
  destruct (eval_batches predict x tl batch_size is_final output_size self)
    as [[cm0 s0]|] eqn:Hfold; [|done].
  cbn [mbind option_bind] in Hrun.
  destruct (accuracy output_size cm0 (length x)) as [a0|] eqn:Hacc; [|done].
  cbn in Hrun. injection Hrun as <- <- <- <-.
  by exists tl.
Qed.

(** The matrix after the batch loop. *)
Lemma eval_batches_total
    {X net : Type} (predict : net → list X → bool → option (list (list R) * net))
    (labels : nat) (self self' : net) (x : list X) (tl : list Z)
    (batch_size : nat) (is_final : bool) (cm : matrix) :
  (∀ s tx flag scores s',
     predict s tx flag = Some (scores, s') → length scores = length tx) →
  eval_batches predict x tl batch_size is_final labels self = Some (cm, self') →
  square labels cm
  ∧ cm_total cm = length x / batch_size * batch_size
  ∧ cm_total cm ≤ length x.
Proof.
  intros Hrows Hfold. unfold eval_batches in Hfold.
  pose proof (Nat.Div0.mul_div_le (length x) batch_size) as Hle.
  destruct (eval_rounds_total predict x tl batch_size labels is_final Hrows
              (length x / batch_size) 0 (cm_zeros labels) cm self self' Hfold)
    as [Hsq Htot].
  - lia.
  - apply square_zeros.
  - rewrite cm_total_zeros in Htot. split; [done|]. split; lia.
Qed.

(** X4: whenever accuracy_f1score returns, with a network that scores
    every sample it is given, the confusion matrix is
    output_size x output_size and its entries add up to the number of
    samples in the full batches, [int(len(x) / batch_size) * batch_size]:
    every sample of a full batch is counted exactly once and the samples of
    a last, shorter batch are not counted. *)
Theorem confusion_matrix_counts_full_batches
    {X net : Type} (predict : net → list X → bool → option (list (list R) * net))
    (output_size : nat) (self self' : net) (x : list X) (t : target)
    (batch_size : nat) (is_final : bool) (acc f1 : np_float) (cm : matrix) :
  (∀ s tx flag scores s',
     predict s tx flag = Some (scores, s') → length scores = length tx) →
  accuracy_f1score predict output_size self x t batch_size is_final
    = Some (acc, f1, cm, self') →
  square output_size cm
  ∧ cm_total cm = length x / batch_size * batch_size
  ∧ cm_total cm ≤ length x.
Proof.
  intros Hrows Hrun.
  destruct (accuracy_f1score_returns predict _ _ _ _ _ _ _ _ _ _ Hrun)
    as (tl & _ & _ & Hfold & _).
  by eapply eval_batches_total.
Qed.

Lemma toy_predict_one_row_per_sample :
  ∀ (s : unit) (tx : list nat) (flag : bool) scores s',
    toy_predict s tx flag = Some (scores, s') → length scores = length tx.
Proof.
  intros s tx flag scores s' H. injection H as <- _. by rewrite length_fmap.
Qed.

Lemma confusion_matrix_counts_full_batches_witness :
  square 2 [[1; 0]; [0; 1]]
  ∧ cm_total [[1; 0]; [0; 1]] = length [0; 1; 1] / 2 * 2
  ∧ cm_total [[1; 0]; [0; 1]] ≤ length [0; 1; 1].
Proof.
  apply (confusion_matrix_counts_full_batches toy_predict 2 tt tt [0; 1; 1]
           (ClassIndices [0%Z; 1%Z; 1%Z]) 2 false (Fin (2 / 3)) (Fin 1)).
  - exact toy_predict_one_row_per_sample.
  - exact remainder_batch_is_dropped.
Defined.

(** ** accuracy_f1score: the range of the accuracy *)

Lemma Nsum_fmap_le (f g : nat → nat) (l : list nat) :
  (∀ j, j ∈ l → f j ≤ g j) → Nsum (f <$> l) ≤ Nsum (g <$> l).
Proof.
  induction l as [|a l IH]; intros Hfg; [done|].
  rewrite !fmap_cons, !Nsum_cons.
  assert (f a ≤ g a) by (apply Hfg; left).
  assert (Nsum (f <$> l) ≤ Nsum (g <$> l)) by (apply IH; intros j Hj; apply Hfg; by right).
  lia.
Qed.

(** The diagonal holds at most as many samples as the matrix counted. *)
Lemma diag_sum_le_total (labels : nat) (cm : matrix) :
  square labels cm → diag_sum labels cm ≤ cm_total cm.
Proof.
  intros [Hlen Hrows]. unfold diag_sum, cm_total.
  rewrite (Nsum_by_index (Nsum <$> cm)), length_fmap, Hlen.
  apply Nsum_fmap_le. intros j _. unfold cm_get.
  rewrite list_lookup_fmap. destruct (cm !! j) as [row|]; [|done]. cbn.
  destruct (row !! j) as [v|] eqn:Hv; [|cbn; lia]. cbn.
  by eapply lookup_le_Nsum.
Qed.

(** X5: on a non-empty input, with a network that scores every sample it
    is given, the accuracy that accuracy_f1score returns is a finite number
    between 0 and 1. *)
Theorem accuracy_between_zero_and_one
    {X net : Type} (predict : net → list X → bool → option (list (list R) * net))
    (output_size : nat) (self self' : net) (x : list X) (t : target)
    (batch_size : nat) (is_final : bool) (acc f1 : np_float) (cm : matrix) :
  (∀ s tx flag scores s',
     predict s tx flag = Some (scores, s') → length scores = length tx) →
  x ≠ [] →
  accuracy_f1score predict output_size self x t batch_size is_final
    = Some (acc, f1, cm, self') →
  ∃ a : R, acc = Fin a ∧ (0 <= a <= 1)%R.
Proof.
  intros Hrows Hx Hrun.
  destruct (accuracy_f1score_returns predict _ _ _ _ _ _ _ _ _ _ Hrun)
    as (tl & _ & _ & Hfold & Hacc & _).
  destruct (eval_batches_total predict output_size self self' x tl batch_size
              is_final cm Hrows Hfold) as (Hsq & _ & Hle).
  pose proof (diag_sum_le_total output_size cm Hsq) as Hdiag.
  assert (Hn : 0 < length x) by (destruct x; [done | cbn; lia]).
  assert (HnR : (0 < INR (length x))%R) by (apply lt_0_INR; lia).
  unfold accuracy in Hacc. destruct (output_size =? 0).
  - destruct (Nat.eqb_spec (length x) 0) as [|_]; [lia|]. injection Hacc as <-.
    eexists. split; [done|]. unfold Rdiv. rewrite Rmult_0_l. lra.
  - injection Hacc as <-. unfold np_div.
    rewrite (Req0b_false (INR (length x))) by lra.
    eexists. split; [done|].
    assert (Hd : (0 <= INR (diag_sum output_size cm))%R) by apply pos_INR.
    assert (Hd' : (INR (diag_sum output_size cm) <= INR (length x))%R)
      by (apply le_INR; lia).
    assert (Hinv : (0 < / INR (length x))%R) by (apply Rinv_0_lt_compat; lra).
    unfold Rdiv. split.
    + apply Rmult_le_pos; lra.
    + apply (Rmult_le_reg_r (INR (length x))); [lra|].
      rewrite Rmult_assoc, Rinv_l by lra. lra.
Qed.

Lemma accuracy_between_zero_and_one_witness :
  ∃ a : R, Fin (2 / 3) = Fin a ∧ (0 <= a <= 1)%R.
Proof.
  apply (accuracy_between_zero_and_one toy_predict 2 tt tt [0; 1; 1]
           (ClassIndices [0%Z; 1%Z; 1%Z]) 2 false (Fin (2 / 3)) (Fin 1)
           [[1; 0]; [0; 1]]).
  - exact toy_predict_one_row_per_sample.
  - discriminate.
  - exact remainder_batch_is_dropped.
Defined.

(** ** accuracy_f1score: inputs shorter than a batch *)

Lemma diag_sum_zeros (labels : nat) : diag_sum labels (cm_zeros labels) = 0.
Proof.
  unfold diag_sum. apply Nsum_fmap_zero. intros j _. apply cm_get_zeros.
Qed.

(** X6: with fewer samples than one batch the batch loop has no round:
    the network is never called, the confusion matrix stays all zero, the
    F1 score is nan (0/0), and the accuracy is 0 - or nan when there is no
    sample at all; nothing is raised. *)
Theorem accuracy_f1score_short_input
    {X net : Type} (predict : net → list X → bool → option (list (list R) * net))
    (output_size : nat) (self : net) (x : list X) (tl : list Z)
    (batch_size : nat) (is_final : bool) :
  0 < output_size →
  length x < batch_size →
  accuracy_f1score predict output_size self x (ClassIndices tl) batch_size is_final
  = Some (if decide (x = []) then NaN else Fin 0, NaN, cm_zeros output_size, self).
Proof.
  intros Hl Hshort. unfold accuracy_f1score. cbn [class_labels mbind option_bind].
  destruct (Nat.eqb_spec batch_size 0) as [|_]; [lia|].
  unfold eval_batches. rewrite Nat.div_small by lia. cbn [seq foldl mbind option_bind].
  unfold accuracy. destruct (Nat.eqb_spec output_size 0) as [|_]; [lia|].
  cbn [mbind option_bind].
  destruct (averages_zero_without_hits output_size (cm_zeros output_size) Hl)
    as [-> ->].
  { intros i _. apply cm_get_zeros. }
  rewrite f1score_zero_zero, diag_sum_zeros. cbn [INR]. unfold np_div.
  rewrite (Req0b_true 0) by done.
  destruct (decide (x = [])) as [->|Hx].
  - cbn [length INR]. by rewrite (Req0b_true 0).
  - assert (0 < INR (length x))%R by (apply lt_0_INR; destruct x; [done | cbn; lia]).
    rewrite Req0b_false by lra. unfold Rdiv. by rewrite Rmult_0_l.
Qed.

Lemma accuracy_f1score_short_input_witness :
  accuracy_f1score toy_predict 2 tt [0; 1] (ClassIndices [0%Z; 1%Z]) 3 false
  = Some (if decide ([0; 1] = []) then NaN else Fin 0, NaN, cm_zeros 2, tt).
Proof.
  apply (accuracy_f1score_short_input toy_predict 2 tt [0; 1] [0%Z; 1%Z] 3 false);
    cbn; lia.
Defined.

(** ** accuracy_f1score: correct predictions and a last, shorter batch *)

(** X7: when every prediction of the full batches is correct, the accuracy
    is the number of samples in the full batches over the number of all
    samples; so it stays below 1 as soon as the input is not a whole number
    of batches, and the confusion matrix counts on its diagonal the labels
    of the full batches only. *)
Theorem perfect_predictions_with_remainder
    {X net : Type} (predict : net → list X → bool → option (list (list R) * net))
    (output_size : nat) (self : net) (x : list X) (t : target) (tl : list Z)
    (batch_size : nat) (is_final : bool) (ys : list (list nat)) :
  0 < batch_size →
  x ≠ [] →
  class_labels t = Some tl →
  length tl = length x →
  Forall (λ c, (0 ≤ c < Z.of_nat output_size)%Z) tl →
  predicted_classes predict x batch_size is_final self 0 (length x / batch_size)
    = Some ys →
  (∀ i y, ys !! i = Some y →
          Z.of_nat <$> y = take batch_size (drop (i * batch_size) tl)) →
  ∃ f1 cm self',
    accuracy_f1score predict output_size self x t batch_size is_final
      = Some (Fin (INR (length x / batch_size * batch_size) / INR (length x)),
              f1, cm, self')
    ∧ (∀ i j, i ≠ j → cm_get cm i j = 0)
    ∧ (∀ i, cm_get cm i i
            = occurrences i (take (length x / batch_size * batch_size) tl))
    ∧ (length x mod batch_size ≠ 0 →
       (INR (length x / batch_size * batch_size) / INR (length x) < 1)%R).
Proof.
  intros Hb Hx Ht Htl Hrange Hpred Hys.
  assert (Hn : 0 < length x) by (destruct x; [done | cbn; lia]).
  assert (HnR : (0 < INR (length x))%R) by (apply lt_0_INR; lia).
  assert (Hlabels : 0 < output_size).
  { destruct tl as [|c tl']; [simpl in Htl; lia|].
    apply Forall_cons in Hrange as [Hc _]. lia. }
  pose proof (Nat.Div0.mul_div_le (length x) batch_size) as Hle.
  destruct (eval_rounds_perfect predict x tl batch_size output_size is_final Hrange
              (length x / batch_size) 0 (cm_zeros output_size) self ys)
    as (cm & self' & Hfold & Hsq & Hcnt).
  { apply square_zeros. }
  { intros i j. rewrite cm_get_zeros. simpl. by destruct (decide (i = j)). }
  { done. }
  { done. }
  rewrite Nat.add_0_l in Hcnt.
  assert (Hrange' : Forall (λ c, (0 ≤ c < Z.of_nat output_size)%Z)
                      (take (length x / batch_size * batch_size) tl))
    by (by apply Forall_take).
  exists (f1score (precision_avg output_size cm) (recall_avg output_size cm)), cm, self'.
  split; [|split; [|split]].
  - unfold accuracy_f1score. rewrite Ht. cbn [mbind option_bind].
    destruct (Nat.eqb_spec batch_size 0); [lia|].
    unfold eval_batches. rewrite Hfold. cbn [mbind option_bind].
    unfold accuracy. destruct (Nat.eqb_spec output_size 0); [lia|].
    cbn [mbind option_bind].
    rewrite (perfect_diag_sum output_size cm _ Hcnt Hrange').
    rewrite length_take, Htl. rewrite Nat.min_l by lia.
    unfold np_div. rewrite (Req0b_false (INR (length x))) by lra. done.
  - intros i j Hij. by apply (perfect_off_diag cm _ Hcnt).
  - intros i. by apply (perfect_diag cm _ Hcnt).
  - intros Hmod.
    assert (Hlt : length x / batch_size * batch_size < length x).
    { pose proof (Nat.div_mod_eq (length x) batch_size). lia. }
    apply lt_INR in Hlt.
    apply (Rmult_lt_reg_r (INR (length x))); [lra|].
    unfold Rdiv. rewrite Rmult_assoc, Rinv_l by lra. lra.
Qed.

Lemma perfect_predictions_with_remainder_witness :
  ∃ f1 cm self',
    accuracy_f1score toy_predict 2 tt [0; 1; 1] (ClassIndices [0%Z; 1%Z; 1%Z]) 2 false
      = Some (Fin (INR (length [0; 1; 1] / 2 * 2) / INR (length [0; 1; 1])),
              f1, cm, self')
    ∧ (∀ i j, i ≠ j → cm_get cm i j = 0)
    ∧ (∀ i, cm_get cm i i
            = occurrences i (take (length [0; 1; 1] / 2 * 2) [0%Z; 1%Z; 1%Z]))
    ∧ (length [0; 1; 1] mod 2 ≠ 0 →
       (INR (length [0; 1; 1] / 2 * 2) / INR (length [0; 1; 1]) < 1)%R).
Proof.
  apply (perfect_predictions_with_remainder toy_predict 2 tt [0; 1; 1]
           (ClassIndices [0%Z; 1%Z; 1%Z]) [0%Z; 1%Z; 1%Z] 2 false [[0; 1]]).
  - lia.
  - discriminate.
  - reflexivity.
  - reflexivity.
  - repeat constructor; lia.
  - unfold toy_predict. simpl. unfold argmax, argmax_from. Reval. reflexivity.
  - intros [|i] y Hy; simpl in Hy; [|done]. injection Hy as <-. reflexivity.
Defined.

(** ** accuracy_f1score: labels outside the classes *)

Lemma cm_incr_length (cm cm' : matrix) (r : Z) (c : nat) :
  cm_incr cm r c = Some cm' → length cm' = length cm.
Proof.
  unfold cm_incr. intros Hrun.
  destruct (np_index (length cm) r) as [ri|]; [|done]. cbn in Hrun.
  destruct (cm !! ri) as [row|]; [|done]. cbn in Hrun.
  destruct (row !! c) as [v|]; [|done]. cbn in Hrun.
  injection Hrun as <-. by rewrite length_insert.
Qed.

Lemma count_batch_length (y : list nat) :
  ∀ (cm cm' : matrix) (tt : list Z) (j : nat),
    count_batch cm tt j y = Some cm' → length cm' = length cm.
Proof.
  induction y as [|yj y IH]; intros cm cm' tt j Hrun.
  - by injection Hrun as <-.
  - cbn [count_batch] in Hrun.
    destruct (tt !! j) as [tj|]; [|done]. cbn in Hrun.
    destruct (cm_incr cm tj yj) as [cm1|] eqn:Hincr; [|done]. cbn in Hrun.
    rewrite (IH _ _ _ _ Hrun). by eapply cm_incr_length.
Qed.

(** The counting loop raises when it reaches a label that is no row of
    the matrix. *)
Lemma count_batch_bad_label (y : list nat) :
  ∀ (cm : matrix) (tt : list Z) (j0 j : nat) (v : Z),
    j0 ≤ j < j0 + length y →
    tt !! j = Some v →
    np_index (length cm) v = None →
    count_batch cm tt j0 y = None.
Proof.
  induction y as [|yj y IH]; intros cm tt j0 j v Hj Hv Hbad; [cbn in Hj; lia|].
  cbn [count_batch].
  destruct (decide (j = j0)) as [->|Hne].
  - rewrite Hv. cbn. unfold cm_incr. by rewrite Hbad.
  - destruct (tt !! j0) as [tj|]; [|done]. cbn.
    destruct (cm_incr cm tj yj) as [cm1|] eqn:Hincr; [|done]. cbn.
    apply (IH cm1 tt (S j0) j v); [cbn in Hj; lia | done |].
    by rewrite (cm_incr_length _ _ _ _ Hincr).
Qed.

Lemma eval_batches_raised
    {X net : Type} (predict : net → list X → bool → option (list (list R) * net))
    (x : list X) (tl : list Z) (batch_size : nat) (is_final : bool) (l : list nat) :
  foldl (eval_batch predict x tl batch_size is_final) None l = None.
Proof. induction l as [|a l IH]; [done | exact IH]. Qed.

Lemma np_index_outside (n : nat) (v : Z) :
  ¬ (- Z.of_nat n ≤ v < Z.of_nat n)%Z → np_index n v = None.
Proof.
  intros Hv. unfold np_index.
  destruct (Z.leb_spec 0 v), (Z.ltb_spec v (Z.of_nat n)),
    (Z.leb_spec (- Z.of_nat n) v), (Z.ltb_spec v 0); cbn; try done; lia.
Qed.

(** X8: a label that lies outside [-output_size, output_size) and belongs
    to a sample the first batch classifies makes accuracy_f1score raise
    (numpy's IndexError): such a label is never counted. *)
Theorem label_out_of_range_raises
    {X net : Type} (predict : net → list X → bool → option (list (list R) * net))
    (output_size : nat) (self self1 : net) (x : list X) (tl : list Z)
    (batch_size : nat) (is_final : bool) (scores : list (list R)) (y : list nat)
    (j : nat) (v : Z) :
  0 < batch_size ≤ length x →
  predict self (take batch_size x) is_final = Some (scores, self1) →
  mapM argmax scores = Some y →
  j < length y →
  j < batch_size →
  tl !! j = Some v →
  ¬ (- Z.of_nat output_size ≤ v < Z.of_nat output_size)%Z →
  accuracy_f1score predict output_size self x (ClassIndices tl) batch_size is_final
  = None.
Proof.
  intros [Hb Hlen] Hp Hy Hj Hjb Hv Hout.
  unfold accuracy_f1score. cbn [class_labels mbind option_bind].
  destruct (Nat.eqb_spec batch_size 0); [lia|].
  unfold eval_batches.
  destruct (length x / batch_size) as [|m] eqn:Hdiv.
  { apply Nat.div_small_iff in Hdiv; lia. }
  cbn [seq foldl].
  assert (Hround : eval_batch predict x tl batch_size is_final
                     (Some (cm_zeros output_size, self)) 0 = None).
  { unfold eval_batch. cbn [mbind option_bind Nat.mul drop Nat.eqb].
    rewrite !drop_0, andb_true_r, Hp. cbn [mbind option_bind]. rewrite Hy.
    cbn [mbind option_bind].
    rewrite (count_batch_bad_label y (cm_zeros output_size) (take batch_size tl) 0 j v).
    - done.
    - lia.
    - rewrite lookup_take_lt by done. exact Hv.
    - unfold cm_zeros. rewrite length_replicate. by apply np_index_outside. }
  rewrite Hround, eval_batches_raised. done.
Qed.

Lemma label_out_of_range_raises_witness :
  accuracy_f1score toy_predict 2 tt [0] (ClassIndices [2%Z]) 1 false = None.
Proof.
  apply (label_out_of_range_raises toy_predict 2 tt tt [0] [2%Z] 1 false
           [[1%R; 0%R]] [0] 0 2%Z).
  - cbn. lia.
  - reflexivity.
  - cbn. unfold argmax, argmax_from. Reval. reflexivity.
  - cbn. lia.
  - lia.
  - reflexivity.
  - lia.
Defined.

(** ** accuracy_f1score: negative labels *)

Lemma np_index_mod (n : nat) (v : Z) :
  (- Z.of_nat n ≤ v < Z.of_nat n)%Z →
  np_index n (v mod Z.of_nat n) = np_index n v.
Proof.
  intros Hv. unfold np_index.
  destruct (Z.leb_spec 0 v) as [Hpos|Hneg].
  - rewrite Z.mod_small by lia.
    destruct (Z.leb_spec 0 v); [done | lia].
  - replace (v mod Z.of_nat n)%Z with (Z.of_nat n + v)%Z.
    2:{ apply (Z.mod_unique _ _ (-1)); lia. }
    destruct (Z.leb_spec 0 (Z.of_nat n + v)); [|lia].
    destruct (Z.ltb_spec (Z.of_nat n + v) (Z.of_nat n)); [|lia].
    destruct (Z.ltb_spec v (Z.of_nat n)); cbn;
      destruct (Z.leb_spec (- Z.of_nat n) v), (Z.ltb_spec v 0); cbn; try done; lia.
Qed.

Section NegativeLabels.

Context {X net : Type}.
Variable predict : net → list X → bool → option (list (list R) * net).
Variables (x : list X) (batch_size labels : nat) (is_final : bool).

Let in_range (v : Z) : Prop := (- Z.of_nat labels ≤ v < Z.of_nat labels)%Z.
Let wrap (v : Z) : Z := (v mod Z.of_nat labels)%Z.

Lemma count_batch_wrapped (y : list nat) :
  ∀ (cm : matrix) (tt : list Z) (j : nat),
    length cm = labels →
    Forall in_range tt →
    count_batch cm (wrap <$> tt) j y = count_batch cm tt j y.
Proof.
  induction y as [|yj y IH]; intros cm tt j Hlen Htt; [done|].
  cbn [count_batch]. rewrite list_lookup_fmap.
  destruct (tt !! j) as [tj|] eqn:Htj; [|done]. cbn [fmap option_fmap option_map mbind option_bind].
  assert (Hin : in_range tj) by (eapply Forall_lookup_1; eauto).
  assert (Hincr : cm_incr cm (wrap tj) yj = cm_incr cm tj yj).
  { unfold cm_incr, wrap. rewrite Hlen. by rewrite np_index_mod. }
  rewrite Hincr. destruct (cm_incr cm tj yj) as [cm1|] eqn:H1; [|done].
  cbn [mbind option_bind]. apply IH; [|done].
  by rewrite (cm_incr_length _ _ _ _ H1).
Qed.

Lemma eval_batch_wrapped (tl : list Z) (acc : option (matrix * net)) (i : nat) :
  Forall in_range tl →
  match acc with Some (cm, _) => length cm = labels | None => True end →
  eval_batch predict x (wrap <$> tl) batch_size is_final acc i
    = eval_batch predict x tl batch_size is_final acc i
  ∧ match eval_batch predict x tl batch_size is_final acc i with
    | Some (cm, _) => length cm = labels
    | None => True
    end.
Proof.
  intros Htl Hacc. destruct acc as [[cm self]|]; [|done].
  unfold eval_batch. cbn [mbind option_bind].
  destruct (predict self (take batch_size (drop (i * batch_size) x))
              (is_final && (i =? 0))) as [[scores s1]|]; [|done].
  cbn [mbind option_bind].
  destruct (mapM argmax scores) as [y|]; [|done]. cbn [mbind option_bind].
  rewrite <- fmap_drop, <- fmap_take.
  rewrite count_batch_wrapped; [|done|by apply Forall_take, Forall_drop].
  split; [done|].
  destruct (count_batch cm (take batch_size (drop (i * batch_size) tl)) 0 y)
    as [cm'|] eqn:Hc; [|done].
  cbn [mbind option_bind]. rewrite (count_batch_length _ _ _ _ _ Hc). exact Hacc.
Qed.

Lemma eval_rounds_wrapped (tl : list Z) (l : list nat) :
  Forall in_range tl →
  ∀ acc : option (matrix * net),
    match acc with Some (cm, _) => length cm = labels | None => True end →
    foldl (eval_batch predict x (wrap <$> tl) batch_size is_final) acc l
    = foldl (eval_batch predict x tl batch_size is_final) acc l.
Proof.
  intros Htl. induction l as [|i l IH]; intros acc Hacc; [done|].
  cbn [foldl]. destruct (eval_batch_wrapped tl acc i Htl Hacc) as [-> Hinv].
  by apply IH.
Qed.

End NegativeLabels.

(** X9: a negative label is not refused: a label [v] with
    [-output_size <= v < 0] is counted in the row [output_size + v], as
    numpy indexes from the end.  accuracy_f1score returns on such labels
    exactly what it returns on the labels reduced modulo output_size. *)
Theorem negative_labels_count_from_the_end
    {X net : Type} (predict : net → list X → bool → option (list (list R) * net))
    (output_size : nat) (self : net) (x : list X) (tl : list Z)
    (batch_size : nat) (is_final : bool) :
  Forall (λ v, (- Z.of_nat output_size ≤ v < Z.of_nat output_size)%Z) tl →
  accuracy_f1score predict output_size self x (ClassIndices tl) batch_size is_final
  = accuracy_f1score predict output_size self x
      (ClassIndices ((λ v, v mod Z.of_nat output_size)%Z <$> tl)) batch_size is_final.
Proof.
  intros Htl. unfold accuracy_f1score. cbn [class_labels mbind option_bind].
  destruct (batch_size =? 0); [done|].
  unfold eval_batches.
  rewrite (eval_rounds_wrapped predict x batch_size output_size is_final tl _ Htl).
  - done.
  - unfold cm_zeros. by rewrite length_replicate.
Qed.

Lemma negative_labels_count_from_the_end_witness :
  accuracy_f1score toy_predict 2 tt [0; 1] (ClassIndices [(-2)%Z; (-1)%Z]) 1 false
  = accuracy_f1score toy_predict 2 tt [0; 1]
      (ClassIndices ((λ v, v mod Z.of_nat 2)%Z <$> [(-2)%Z; (-1)%Z])) 1 false.
Proof.
  apply (negative_labels_count_from_the_end toy_predict 2 tt [0; 1]
           [(-2)%Z; (-1)%Z] 1 false).
  repeat constructor; cbn; lia.
Defined.
(** ** BatchNormalization: the training pass and its gradient *)

Section BatchNormTraining.

Import BatchNormalization.

Lemma mean0_lookup (x : list (list R)) (j : nat) :
  j < ncols x →
  mean0 x !! j = Some (Rsum (column x j) / INR (length x))%R.
Proof.
  intros Hj. unfold mean0. rewrite list_lookup_fmap, lookup_seq_lt by done. done.
Qed.

Lemma length_sum0 (x : list (list R)) : length (sum0 x) = ncols x.
Proof. unfold sum0. by rewrite length_fmap, length_seq. Qed.

(** A column of a batch combined with a vector over the features. *)
Lemma column_zip_with_r (f : R → R → R) (x : list (list R)) (v : list R)
    (d j : nat) (vj : R) :
  Forall (λ row, length row = d) x →
  v !! j = Some vj →
  j < d →
  column ((λ row, zip_with f row v) <$> x) j = (λ a, f a vj) <$> column x j.
Proof.
  intros Hx Hv Hj. unfold column. rewrite <- !list_fmap_compose.
  apply Forall_fmap_ext_1. eapply Forall_impl; [exact Hx|].
  intros row Hrow. cbn in Hrow |- *.
  destruct (lookup_lt_is_Some_2 row j) as [a Ha]; [lia|].
  by rewrite lookup_zip_with, Ha, Hv.
Qed.

Lemma Forall_length_centered (x : list (list R)) (d : nat) :
  x ≠ [] →
  Forall (λ row, length row = d) x →
  Forall (λ row, length row = d) (centered x).
Proof.
  intros Hne Hx. apply Forall_length_zip_with; [|done].
  rewrite length_mean0. by apply ncols_rows.
Qed.

Lemma length_batch_var (x : list (list R)) (d : nat) :
  x ≠ [] →
  Forall (λ row, length row = d) x →
  length (batch_var x) = d.
Proof.
  intros Hne Hx. unfold batch_var. rewrite length_mean0. apply ncols_rows.
  - unfold square_entries, centered. by destruct x.
  - by apply Forall_length_square_entries, Forall_length_centered.
Qed.

Lemma normalized_centered (e : R) (x : list (list R)) :
  normalized e x
  = (λ row, zip_with Rdiv row ((λ v, sqrt (v + e)) <$> batch_var x)) <$> centered x.
Proof. reflexivity. Qed.

Lemma Forall_length_normalized (e : R) (x : list (list R)) (d : nat) :
  x ≠ [] →
  Forall (λ row, length row = d) x →
  Forall (λ row, length row = d) (normalized e x).
Proof.
  intros Hne Hx. rewrite normalized_centered. apply Forall_length_zip_with.
  - rewrite length_fmap. by apply length_batch_var.
  - by apply Forall_length_centered.
Qed.

(** The layer after one training pass, on statistics that are initialised. *)
Lemma forward_training_cache
    (self : t) (x : list (list R)) (rm rv : list R) (d : nat) :
  x ≠ [] →
  Forall (λ row, length row = d) x →
  length (gamma self) = d → length (beta self) = d →
  running_mean self = Some rm → running_var self = Some rv →
  length rm = d → length rv = d →
  __forward self x true
  = Some ((λ row, zip_with Rplus (zip_with Rmult (gamma self) row) (beta self))
            <$> normalized eps x,
          set_running
            (set_cache self (length x) (centered x) (normalized eps x)
               (sqrt_eps (batch_var x)))
            (moving_averages (momentum self) rm (mean0 x))
            (moving_averages (momentum self) rv (batch_var x))).
Proof.
  intros Hne Hx Lg Lb Hrm Hrv Lrm Lrv.
  pose proof (ncols_rows x d Hne Hx) as Hd.
  assert (Lmu : length (mean0 x) = d) by (by rewrite length_mean0).
  pose proof (Forall_length_centered x d Hne Hx) as Hxc.
  pose proof (length_batch_var x d Hne Hx) as Lvar.
  assert (Lstd : length (sqrt_eps (batch_var x)) = d)
    by (unfold sqrt_eps; by rewrite length_fmap).
  pose proof (Forall_length_normalized eps x d Hne Hx) as Hxn.
  unfold __forward, set_running, set_cache. rewrite Hrm.
  cbn [orb bool_decide running_mean running_var gamma beta momentum batch_size].
  rewrite (rows_with_same_length Rminus x (mean0 x)) by (by rewrite Lmu).
  cbn [mbind option_bind]. fold (centered x). fold (batch_var x).
  rewrite (rows_with_same_length Rdiv (centered x) _) by (by rewrite Lstd).
  cbn [mbind option_bind].
  change ((λ row, zip_with Rdiv row (sqrt_eps (batch_var x))) <$> centered x)
    with (normalized eps x).
  unfold moving_average.
  repeat first
    [ rewrite Hrm | rewrite Hrv
    | rewrite (broadcast_same_length Rplus) by (rewrite !length_fmap; lia)
    | progress cbn [mbind option_bind gamma beta momentum input_shape running_mean
                      running_var batch_size xc xn std dgamma dbeta] ].
  rewrite (with_rows_same_length Rmult (gamma self) (normalized eps x))
    by (by rewrite Lg).
  cbn [mbind option_bind].
  rewrite (rows_with_same_length Rplus _ (beta self)).
  2:{ rewrite Lb. by apply Forall_length_zip_with_l. }
  cbn [mbind option_bind]. rewrite <- list_fmap_compose.
  unfold moving_averages. rewrite !zip_with_fmap_l, !zip_with_fmap_r.
  reflexivity.
Qed.

(** One training pass, whether the statistics were initialised or not. *)
Lemma forward_training_state
    (self : t) (x : list (list R)) (rm rv : list R) (d : nat) :
  x ≠ [] →
  Forall (λ row, length row = d) x →
  length (gamma self) = d → length (beta self) = d →
  initial_statistics self d = Some (rm, rv) →
  length rm = d → length rv = d →
  __forward self x true
  = Some ((λ row, zip_with Rplus (zip_with Rmult (gamma self) row) (beta self))
            <$> normalized eps x,
          Make (gamma self) (beta self) (momentum self) (input_shape self)
            (Some (moving_averages (momentum self) rm (mean0 x)))
            (Some (moving_averages (momentum self) rv (batch_var x)))
            (Some (length x)) (Some (centered x)) (Some (normalized eps x))
            (Some (sqrt_eps (batch_var x))) (dgamma self) (dbeta self)).
Proof.
  intros Hne Hx Lg Lb Hinit Lrm Lrv. unfold initial_statistics in Hinit.
  destruct (running_mean self) as [rm0|] eqn:Hrm.
  - destruct (running_var self) as [rv0|] eqn:Hrv; [|done].
    cbn in Hinit. injection Hinit as -> ->.
    by rewrite (forward_training_cache self x rm rv d).
  - injection Hinit as <- <-.
    rewrite forward_lazy_init by done.
    rewrite (ncols_rows x d Hne Hx).
    by rewrite (forward_training_cache _ x (replicate d 0%R) (replicate d 0%R) d).
Qed.

Lemma column_fmap (f : R → R) (x : list (list R)) (d j : nat) :
  Forall (λ row, length row = d) x →
  j < d →
  column (fmap (M:=list) f <$> x) j = f <$> column x j.
Proof.
  intros Hx Hj. unfold column. rewrite <- !list_fmap_compose.
  apply Forall_fmap_ext_1. eapply Forall_impl; [exact Hx|].
  intros row Hrow. cbn in Hrow |- *.
  destruct (lookup_lt_is_Some_2 row j) as [a Ha]; [lia|].
  by rewrite list_lookup_fmap, Ha.
Qed.

(** Column [j] of the centered batch. *)
Lemma column_centered (x : list (list R)) (d j : nat) :
  x ≠ [] →
  Forall (λ row, length row = d) x →
  j < d →
  column (centered x) j
  = (λ a, a - Rsum (column x j) / INR (length x))%R <$> column x j.
Proof.
  intros Hne Hx Hj. unfold centered.
  apply (column_zip_with_r Rminus x (mean0 x) d j); [done | | done].
  apply mean0_lookup. by rewrite (ncols_rows x d).
Qed.

(** The variance of feature [j] is the mean of the squared deviations of
    its column, with the batch size as divisor. *)
Lemma batch_var_lookup (x : list (list R)) (d j : nat) :
  x ≠ [] →
  Forall (λ row, length row = d) x →
  j < d →
  batch_var x !! j
  = Some (Rsum ((λ a, (a - Rsum (column x j) / INR (length x))
                      * (a - Rsum (column x j) / INR (length x)))%R
                  <$> column x j)
          / INR (length x))%R.
Proof.
  intros Hne Hx Hj. unfold batch_var.
  pose proof (Forall_length_centered x d Hne Hx) as Hxc.
  rewrite mean0_lookup.
  2:{ rewrite (ncols_rows _ d); [done | | by apply Forall_length_square_entries].
      unfold square_entries, centered. by destruct x. }
  unfold square_entries at 1.
  rewrite (column_fmap _ (centered x) d j Hxc Hj).
  rewrite (column_centered x d j Hne Hx Hj), <- list_fmap_compose.
  unfold square_entries, centered. by rewrite !length_fmap.
Qed.

(** X10: a training pass on a non-empty batch replaces every running
    statistic by [momentum * old + (1 - momentum) * new], where the old
    value is 0 on a layer that has not run yet, the new mean of feature [j]
    is the mean of column [j] and the new variance is the mean squared
    deviation of that column with the batch size as divisor (the biased
    variance). *)
Theorem training_updates_running_statistics
    (self : t) (x : list (list R)) (rm rv : list R) (d : nat) :
  x ≠ [] →
  Forall (λ row, length row = d) x →
  length (gamma self) = d → length (beta self) = d →
  initial_statistics self d = Some (rm, rv) →
  length rm = d → length rv = d →
  ∃ out self' rm' rv',
    __forward self x true = Some (out, self')
    ∧ running_mean self' = Some rm'
    ∧ running_var self' = Some rv'
    ∧ length rm' = d ∧ length rv' = d
    ∧ ∀ j r v, rm !! j = Some r → rv !! j = Some v →
        let mu := (Rsum (column x j) / INR (length x))%R in
        rm' !! j = Some (momentum self * r + (1 - momentum self) * mu)%R
        ∧ rv' !! j
          = Some (momentum self * v
                  + (1 - momentum self)
                    * (Rsum ((λ a, (a - mu) * (a - mu))%R <$> column x j)
                       / INR (length x)))%R.
Proof.
  intros Hne Hx Lg Lb Hinit Lrm Lrv.
  pose proof (forward_training_state self x rm rv d Hne Hx Lg Lb Hinit Lrm Lrv) as Hrun.
  pose proof (ncols_rows x d Hne Hx) as Hd.
  pose proof (length_batch_var x d Hne Hx) as Lvar.
  eexists _, _, _, _. split; [exact Hrun|].
  cbn [running_mean running_var]. split; [done|]. split; [done|].
  unfold moving_averages. split; [|split].
  - rewrite length_zip_with, length_mean0. lia.
  - rewrite length_zip_with. lia.
  - intros j r v Hr Hv. cbv zeta.
    assert (Hj : j < d) by (apply lookup_lt_Some in Hr; lia).
    rewrite !lookup_zip_with, Hr, Hv.
    rewrite mean0_lookup by lia.
    rewrite (batch_var_lookup x d j Hne Hx Hj). done.
Qed.

Lemma training_updates_running_statistics_witness :
  ∃ out self' rm' rv',
    __forward fresh_bn [[0%R]; [2%R]] true = Some (out, self')
    ∧ running_mean self' = Some rm'
    ∧ running_var self' = Some rv'
    ∧ length rm' = 1 ∧ length rv' = 1
    ∧ ∀ j r v, [0%R] !! j = Some r → [0%R] !! j = Some v →
        let mu := (Rsum (column [[0%R]; [2%R]] j) / INR (length [[0%R]; [2%R]]))%R in
        rm' !! j = Some (momentum fresh_bn * r + (1 - momentum fresh_bn) * mu)%R
        ∧ rv' !! j
          = Some (momentum fresh_bn * v
                  + (1 - momentum fresh_bn)
                    * (Rsum ((λ a, (a - mu) * (a - mu))%R <$> column [[0%R]; [2%R]] j)
                       / INR (length [[0%R]; [2%R]])))%R.
Proof.
  apply (training_updates_running_statistics fresh_bn [[0%R]; [2%R]] [0%R] [0%R] 1).
  - discriminate.
  - repeat constructor.
  - reflexivity.
  - reflexivity.
  - reflexivity.
  - reflexivity.
  - reflexivity.
Defined.

(** *** The gradient *)

Lemma rows_zip_same_shape {A B C} (f : A → B → C) (d : nat) (x : list (list A)) :
  ∀ y : list (list B),
    length x = length y →
    Forall (λ row, length row = d) x →
    Forall (λ row, length row = d) y →
    rows_zip f x y = Some (zip_with (zip_with f) x y).
Proof.
  intros y Hlen Hx Hy. unfold rows_zip.
  rewrite (broadcast_same_length (broadcast f)) by done.
  revert y Hlen Hy. induction Hx as [|a x Ha Hx IH]; intros [|b y] Hlen Hy; try done.
  apply Forall_cons in Hy as [Hb Hy].
  cbn [zip_with mapM].
  rewrite (broadcast_same_length f a b) by lia.
  cbn [mbind option_bind]. rewrite (IH y) by (cbn in Hlen; done || lia). done.
Qed.

Lemma length_zip_rows {A B C} (f : A → B → C) (d : nat) (x : list (list A))
    (y : list (list B)) :
  length x = length y →
  Forall (λ row, length row = d) x →
  Forall (λ row, length row = d) y →
  length (zip_with (zip_with f) x y) = length x
  ∧ Forall (λ row, length row = d) (zip_with (zip_with f) x y).
Proof.
  intros Hlen Hx Hy. split; [rewrite length_zip_with; lia|].
  apply Forall_lookup. intros i row Hrow.
  apply lookup_zip_with_Some in Hrow as (a & b & -> & Ha & Hb).
  rewrite length_zip_with.
  rewrite (Forall_lookup_1 _ _ _ _ Hx Ha), (Forall_lookup_1 _ _ _ _ Hy Hb). lia.
Qed.

Lemma lengths_of_rows {A} (d : nat) (x : list (list A)) :
  Forall (λ row, length row = d) x → length <$> x = replicate (length x) d.
Proof.
  induction 1 as [|a x Ha Hx IH]; [done|]. cbn. by rewrite Ha, IH.
Qed.

Lemma rows_iadd_same_shape (d : nat) (a b : list (list R)) :
  length a = length b →
  Forall (λ row, length row = d) a →
  Forall (λ row, length row = d) b →
  rows_iadd a b = Some (zip_with (zip_with Rplus) a b).
Proof.
  intros Hlen Ha Hb. unfold rows_iadd.
  rewrite (rows_zip_same_shape Rplus d a b Hlen Ha Hb). cbn [mbind option_bind].
  destruct (length_zip_rows Rplus d a b Hlen Ha Hb) as [L F].
  rewrite decide_True; [done|].
  by rewrite (lengths_of_rows d _ F), (lengths_of_rows d _ Ha), L.
Qed.

Lemma ncols_of_rows {A} (x : list (list A)) (n d : nat) :
  length x = n → 0 < n → Forall (λ row, length row = d) x → ncols x = d.
Proof.
  intros Hn Hpos Hx. apply ncols_rows; [|done]. destruct x; [cbn in Hn; lia | done].
Qed.

(** backward on a layer whose cache holds a batch of [n] rows. *)
Lemma backward_on_cache
    (self : t) (dout cxc cxn : list (list R)) (cstd : list R) (n d : nat) :
  batch_size self = Some n → 0 < n →
  xc self = Some cxc → xn self = Some cxn → std self = Some cstd →
  length cxc = n → length cxn = n → length dout = n →
  Forall (λ row, length row = d) cxc →
  Forall (λ row, length row = d) cxn →
  Forall (λ row, length row = d) dout →
  length cstd = d → length (gamma self) = d →
  ∃ dxc : list (list R),
    length dxc = n
    ∧ Forall (λ row, length row = d) dxc
    ∧ __backward self dout
      = Some ((λ row, zip_with Rminus row ((λ u, u / INR n)%R <$> sum0 dxc)) <$> dxc,
              set_grads self (sum0 (zip_with (zip_with Rmult) cxn dout)) (sum0 dout)).
Proof.
  intros Hbs Hn Hxc Hxn Hstd Lxc Lxn Ldout Fxc Fxn Fdout Lstd Lg.
  set (dxn := (λ row, zip_with Rmult (gamma self) row) <$> dout).
  assert (Fdxn : Forall (λ row, length row = d) dxn)
    by (by apply Forall_length_zip_with_l).
  assert (Ldxn : length dxn = n) by (subst dxn; by rewrite length_fmap).
  set (dxc0 := (λ row, zip_with Rdiv row cstd) <$> dxn).
  assert (Fdxc0 : Forall (λ row, length row = d) dxc0)
    by (by apply Forall_length_zip_with).
  assert (Ldxc0 : length dxc0 = n) by (subst dxc0; by rewrite length_fmap).
  destruct (length_zip_rows Rmult d dxn cxc) as [Lnum Fnum]; [lia | done | done |].
  set (num := zip_with (zip_with Rmult) dxn cxc) in *.
  set (quot := (λ row, zip_with Rdiv row (zip_with Rmult cstd cstd)) <$> num).
  assert (Fquot : Forall (λ row, length row = d) quot).
  { apply Forall_length_zip_with; [rewrite length_zip_with; lia | done]. }
  assert (Lquot : length quot = n) by (subst quot; rewrite length_fmap; lia).
  set (dvar := zip_with Rdiv ((λ u, 5 / 10 * u)%R <$> (Ropp <$> sum0 quot)) cstd).
  assert (Lsum : length (sum0 quot) = d).
  { rewrite length_sum0. by apply (ncols_of_rows quot n d). }
  assert (Ldvar : length dvar = d).
  { subst dvar. rewrite length_zip_with, !length_fmap. lia. }
  set (scaled := fmap (M:=list) (λ u, 2 / INR n * u)%R <$> cxc).
  assert (Fscaled : Forall (λ row, length row = d) scaled).
  { subst scaled. apply Forall_fmap. eapply Forall_impl; [exact Fxc|].
    intros row Hrow. cbn in Hrow |- *. by rewrite length_fmap. }
  set (term := (λ row, zip_with Rmult row dvar) <$> scaled).
  assert (Fterm : Forall (λ row, length row = d) term)
    by (by apply Forall_length_zip_with).
  assert (Lterm : length term = n).
  { subst term scaled. by rewrite !length_fmap. }
  destruct (length_zip_rows Rplus d dxc0 term) as [Ldxc Fdxc]; [lia | done | done |].
  exists (zip_with (zip_with Rplus) dxc0 term).
  split; [lia|]. split; [done|].
  unfold __backward. rewrite Hxn. cbn [mbind option_bind].
  rewrite (rows_zip_same_shape Rmult d cxn dout) by (done || lia).
  cbn [mbind option_bind].
  rewrite (with_rows_same_length Rmult (gamma self) dout) by (by rewrite Lg).
  cbn [mbind option_bind]. fold dxn. rewrite Hstd. cbn [mbind option_bind].
  rewrite (rows_with_same_length Rdiv dxn cstd) by (by rewrite Lstd).
  cbn [mbind option_bind]. fold dxc0. rewrite Hxc. cbn [mbind option_bind].
  rewrite (rows_zip_same_shape Rmult d dxn cxc) by (done || lia).
  cbn [mbind option_bind]. fold num.
  rewrite (broadcast_same_length Rmult cstd cstd) by done.
  cbn [mbind option_bind].
  rewrite (rows_with_same_length Rdiv num _) by (rewrite length_zip_with; by replace (length cstd `min` length cstd) with d by lia).
  cbn [mbind option_bind]. fold quot.
  rewrite (broadcast_same_length Rdiv) by (rewrite !length_fmap; lia).
  cbn [mbind option_bind]. fold dvar. rewrite Hbs. cbn [mbind option_bind].
  destruct (Nat.eqb_spec n 0) as [|_]; [lia|].
  fold scaled.
  rewrite (rows_with_same_length Rmult scaled dvar) by (by rewrite Ldvar).
  cbn [mbind option_bind]. fold term.
  rewrite (rows_iadd_same_shape d dxc0 term) by (done || lia).
  cbn [mbind option_bind].
  rewrite (rows_with_same_length Rminus).
  - done.
  - rewrite length_fmap, length_sum0.
    by rewrite (ncols_of_rows _ n d) by (done || lia).
Qed.

(** X12: a training pass on a non-empty batch followed by backward on a
    gradient of the batch's shape succeeds; the gradient returned has that
    shape, the layer stores [dbeta], the column sums of [dout], and
    [dgamma], the column sums of [xn * dout], and nothing else of the
    layer changes: the cache and the running statistics stay as the
    forward pass left them. *)
Theorem backward_after_training_pass
    (self : t) (x dout : list (list R)) (rm rv : list R) (d : nat) :
  x ≠ [] →
  Forall (λ row, length row = d) x →
  length dout = length x →
  Forall (λ row, length row = d) dout →
  length (gamma self) = d → length (beta self) = d →
  initial_statistics self d = Some (rm, rv) →
  length rm = d → length rv = d →
  ∃ out self1 dx self2,
    __forward self x true = Some (out, self1)
    ∧ __backward self1 dout = Some (dx, self2)
    ∧ length dx = length x
    ∧ Forall (λ row, length row = d) dx
    ∧ dbeta self2 = Some (sum0 dout)
    ∧ dgamma self2 = Some (sum0 (zip_with (zip_with Rmult) (normalized eps x) dout))
    ∧ xc self2 = xc self1 ∧ xn self2 = xn self1 ∧ std self2 = std self1
    ∧ batch_size self2 = batch_size self1
    ∧ running_mean self2 = running_mean self1
    ∧ running_var self2 = running_var self1
    ∧ gamma self2 = gamma self ∧ beta self2 = beta self.
Proof.
  intros Hne Hx Ldout Fdout Lg Lb Hinit Lrm Lrv.
  pose proof (forward_training_state self x rm rv d Hne Hx Lg Lb Hinit Lrm Lrv) as Hrun.
  assert (Hn : 0 < length x) by (destruct x; [done | cbn; lia]).
  assert (HnR : (0 < INR (length x))%R) by (apply lt_0_INR; lia).
  set (self1 := Make (gamma self) (beta self) (momentum self) (input_shape self)
                  (Some (moving_averages (momentum self) rm (mean0 x)))
                  (Some (moving_averages (momentum self) rv (batch_var x)))
                  (Some (length x)) (Some (centered x)) (Some (normalized eps x))
                  (Some (sqrt_eps (batch_var x))) (dgamma self) (dbeta self)) in *.
  destruct (backward_on_cache self1 dout (centered x) (normalized eps x)
              (sqrt_eps (batch_var x)) (length x) d)
    as (dxc & Ldxc & Fdxc & Hback); try done.
  { unfold centered. by rewrite length_fmap. }
  { rewrite normalized_centered. unfold centered. by rewrite !length_fmap. }
  { by apply Forall_length_centered. }
  { by apply Forall_length_normalized. }
  { unfold sqrt_eps. rewrite length_fmap. by apply length_batch_var. }
  eexists _, self1, _, _. split; [exact Hrun|]. split; [exact Hback|].
  split; [by rewrite length_fmap|].
  split.
  { apply Forall_length_zip_with; [|done].
    rewrite length_fmap, length_sum0. by apply (ncols_of_rows dxc (length x) d). }
  done.
Qed.

Lemma backward_after_training_pass_witness :
  ∃ out self1 dx self2,
    __forward fresh_bn [[0%R]; [2%R]] true = Some (out, self1)
    ∧ __backward self1 [[1%R]; [5%R]] = Some (dx, self2)
    ∧ length dx = length [[0%R]; [2%R]]
    ∧ Forall (λ row, length row = 1) dx
    ∧ dbeta self2 = Some (sum0 [[1%R]; [5%R]])
    ∧ dgamma self2
      = Some (sum0 (zip_with (zip_with Rmult) (normalized eps [[0%R]; [2%R]])
                      [[1%R]; [5%R]]))
    ∧ xc self2 = xc self1 ∧ xn self2 = xn self1 ∧ std self2 = std self1
    ∧ batch_size self2 = batch_size self1
    ∧ running_mean self2 = running_mean self1
    ∧ running_var self2 = running_var self1
    ∧ gamma self2 = gamma fresh_bn ∧ beta self2 = beta fresh_bn.
Proof.
  apply (backward_after_training_pass fresh_bn [[0%R]; [2%R]] [[1%R]; [5%R]]
           [0%R] [0%R] 1).
  - discriminate.
  - repeat constructor.
  - reflexivity.
  - repeat constructor.
  - reflexivity.
  - reflexivity.
  - reflexivity.
  - reflexivity.
  - reflexivity.
Defined.

End BatchNormTraining.
(** ** Tensor operations: broadcasting tensors of equal shape, bias rows,
    entries of products *)

Lemma length_unravel (s : list nat) : ∀ p, length (unravel s p) = length s.
Proof. induction s as [|d s IH]; intros p; cbn; [done | by rewrite IH]. Qed.

Lemma foldl_ravel (s : list nat) :
  ∀ (a p : nat), p < numel s →
    foldl (λ acc (di : nat * nat), acc * di.1 + di.2) a (zip s (unravel s p))
    = a * numel s + p.
Proof.
  induction s as [|d s IH]; intros a p Hp.
  - cbn in *. lia.
  - cbn [unravel zip zip_with foldl fst snd]. rewrite numel_cons in Hp.
    assert (Hm : 0 < numel s) by (destruct (numel s); lia).
    rewrite IH by (apply Nat.mod_upper_bound; lia).
    rewrite numel_cons. pose proof (Nat.div_mod_eq p (numel s)). nia.
Qed.

Lemma ravel_unravel (s : list nat) (p : nat) :
  p < numel s → ravel s (unravel s p) = p.
Proof. intros Hp. unfold ravel. rewrite foldl_ravel by done. lia. Qed.

Lemma unravel_broadcast_axes (s : list nat) :
  ∀ p, p < numel s →
    zip_with (λ d i, if d =? 1 then 0 else i) s (unravel s p) = unravel s p.
Proof.
  induction s as [|d s IH]; intros p Hp; [done|].
  cbn [unravel zip_with]. rewrite numel_cons in Hp.
  assert (Hm : 0 < numel s) by (destruct (numel s); lia).
  rewrite IH by (apply Nat.mod_upper_bound; lia). f_equal.
  destruct (Nat.eqb_spec d 1) as [->|]; [|done].
  symmetry. apply Nat.div_small. lia.
Qed.

Lemma source_position_same_shape (s : list nat) (p : nat) :
  p < numel s → source_position s (unravel s p) = p.
Proof.
  intros Hp. unfold source_position.
  rewrite length_unravel, Nat.sub_diag, drop_0.
  rewrite unravel_broadcast_axes by done. by apply ravel_unravel.
Qed.

(** A well-formed tensor broadcast to its own shape is itself. *)
Lemma broadcast_to_same_shape {A} (t : tensor A) :
  length (data t) = numel (shape t) → broadcast_to t (shape t) = data t.
Proof.
  intros Hlen. unfold broadcast_to. rewrite <- Hlen.
  etrans; [|exact (omap_lookup_seq (data t) [])]. cbn [length app].
  apply list_omap_ext, Forall_Forall2_diag, Forall_forall.
  intros p Hp. apply elem_of_seq in Hp.
  by rewrite source_position_same_shape by lia.
Qed.

Lemma broadcast_axes_same (r : list nat) : broadcast_axes r r = Some r.
Proof.
  induction r as [|a r IH]; [done|].
  cbn [broadcast_axes]. rewrite IH. cbn [mbind option_bind].
  by rewrite decide_True.
Qed.

Lemma broadcast_shapes_same (s : list nat) : broadcast_shapes s s = Some s.
Proof.
  unfold broadcast_shapes. rewrite broadcast_axes_same. cbn.
  by rewrite reverse_involutive.
Qed.

(** An elementwise operation on two well-formed tensors of one shape. *)
Lemma tensor_zip_same_shape {A B C} (f : A → B → C) (a : tensor A) (b : tensor B) :
  shape b = shape a →
  length (data a) = numel (shape a) →
  length (data b) = numel (shape a) →
  tensor_zip f a b = Some (Tensor (shape a) (zip_with f (data a) (data b))).
Proof.
  intros Hs Ha Hb. unfold tensor_zip. rewrite Hs, broadcast_shapes_same.
  cbn [mbind option_bind].
  rewrite (broadcast_to_same_shape a Ha).
  replace (broadcast_to b (shape a)) with (data b); [done|].
  rewrite <- Hs. symmetry. apply broadcast_to_same_shape. by rewrite Hs.
Qed.

(** Where a vector over the last axis is read when it is broadcast over
    the rows of a matrix. *)
Lemma source_position_bias (r k q : nat) :
  q < r * k → source_position [k] (unravel [r; k] q) = q mod k.
Proof.
  intros Hq. unfold source_position.
  cbn [unravel numel foldr length Nat.sub drop zip_with].
  rewrite !Nat.mul_1_r, Nat.div_1_r. unfold ravel. cbn [zip zip_with foldl fst snd].
  destruct (Nat.eqb_spec k 1) as [->|]; [|lia].
  rewrite Nat.mod_1_r. lia.
Qed.

Lemma broadcast_to_bias {A} (b : tensor A) (r k : nat) :
  shape b = [k] →
  length (data b) = k →
  length (broadcast_to b [r; k]) = r * k
  ∧ ∀ q, q < r * k → broadcast_to b [r; k] !! q = data b !! (q mod k).
Proof.
  intros Hs Hlen. unfold broadcast_to. rewrite Hs.
  replace (numel [r; k]) with (r * k) by (cbn; lia).
  assert (Hall : Forall (λ q, is_Some (data b !! source_position [k] (unravel [r; k] q)))
                   (seq 0 (r * k))).
  { apply Forall_forall. intros q Hq. apply elem_of_seq in Hq.
    rewrite source_position_bias by lia. apply lookup_lt_is_Some_2.
    rewrite Hlen. apply Nat.mod_upper_bound. destruct k; lia. }
  split.
  - by rewrite (length_omap_total _ _ Hall), length_seq.
  - intros q Hq. rewrite (omap_lookup_total _ _ Hall), lookup_seq_lt by done.
    cbn [mbind option_bind]. by rewrite source_position_bias.
Qed.

Lemma broadcast_shapes_bias (r k : nat) : broadcast_shapes [r; k] [k] = Some [r; k].
Proof. unfold broadcast_shapes. cbn. rewrite decide_True by done. done. Qed.

(** Adding a bias vector to the rows of a matrix, entry by entry. *)
Lemma add_bias_entries (p b : tensor R) (r k : nat) :
  shape p = [r; k] → shape b = [k] →
  length (data p) = r * k → length (data b) = k →
  ∃ out,
    tensor_zip Rplus p b = Some out
    ∧ shape out = [r; k]
    ∧ length (data out) = r * k
    ∧ ∀ i j v w, i < r → j < k →
        data p !! (i * k + j) = Some v → data b !! j = Some w →
        data out !! (i * k + j) = Some (v + w)%R.
Proof.
  intros Hp Hb Lp Lb. unfold tensor_zip. rewrite Hp, Hb, broadcast_shapes_bias.
  cbn [mbind option_bind].
  eexists. split; [done|]. cbn [shape data].
  replace (broadcast_to p [r; k]) with (data p).
  2:{ rewrite <- Hp. symmetry. apply broadcast_to_same_shape. rewrite Hp. cbn. lia. }
  destruct (broadcast_to_bias b r k Hb Lb) as [Lbb Hbb].
  split; [done|]. split; [rewrite length_zip_with; lia|].
  intros i j v w Hi Hj Hv Hw.
  rewrite lookup_zip_with, Hv. cbn.
  rewrite Hbb by nia.
  replace ((i * k + j) mod k) with j.
  2:{ symmetry. rewrite Nat.add_comm, Nat.Div0.mod_add. apply Nat.mod_small. lia. }
  by rewrite Hw.
Qed.

(** The entries of a product of matrices. *)
Lemma matmul_entries (a b : tensor R) (r c k : nat) :
  shape a = [r; c] → shape b = [c; k] →
  ∃ p,
    matmul a b = Some p
    ∧ shape p = [r; k]
    ∧ length (data p) = r * k
    ∧ ∀ i j, i < r → j < k →
        data p !! (i * k + j) = Some (matmul_entry (data a) (data b) c k i j).
Proof.
  intros Ha Hb. unfold matmul. rewrite Ha, Hb. rewrite decide_True by done.
  eexists. split; [done|]. cbn [shape data].
  set (rows := (λ i, matmul_entry (data a) (data b) c k i <$> seq 0 k) <$> seq 0 r).
  assert (Hrows : Forall (λ l, length l = k) rows).
  { subst rows. apply Forall_fmap, Forall_true. intros i. cbn.
    by rewrite length_fmap, length_seq. }
  split; [done|]. split.
  - rewrite length_join, (sum_list_fmap_same k) by done.
    subst rows. rewrite length_fmap, length_seq. lia.
  - intros i j Hi Hj.
    apply (join_lookup_Some_same_length' k rows i j); [done | done |].
    eexists. split.
    + subst rows. rewrite list_lookup_fmap, lookup_seq_lt by done. done.
    + rewrite list_lookup_fmap, lookup_seq_lt by done. done.
Qed.

(** The entries of a transposed matrix. *)
Lemma transpose_entries {A} (t : tensor A) (r c : nat) :
  shape t = [r; c] →
  length (data t) = r * c →
  ∃ t',
    transpose t = Some t'
    ∧ shape t' = [c; r]
    ∧ length (data t') = c * r
    ∧ ∀ i j, i < r → j < c → data t' !! (j * r + i) = data t !! (i * c + j).
Proof.
  intros Hs Hlen. unfold transpose, permute. rewrite Hs.
  rewrite decide_True by (cbn; apply Permutation_swap).
  change ((λ k, default 0 ([r; c] !! k)) <$> [1; 0]) with [c; r].
  cbn [length].
  set (F := λ p, data t !! ravel [r; c] (inverse_permuted [1; 0] (unravel [c; r] p) 2)).
  assert (Hun : ∀ i j, i < r → j < c → unravel [c; r] (j * r + i) = [j; i]).
  { intros i j Hi Hj. cbn [unravel numel foldr].
    rewrite !Nat.mul_1_r, Nat.div_1_r. f_equal; [|f_equal].
    - rewrite Nat.div_add_l by lia. rewrite (Nat.div_small i r) by lia. lia.
    - rewrite Nat.add_comm, Nat.Div0.mod_add. apply Nat.mod_small. lia. }
  assert (HF : ∀ i j, i < r → j < c → F (j * r + i) = data t !! (i * c + j)).
  { intros i j Hi Hj. subst F. cbv beta. rewrite (Hun i j Hi Hj).
    change (inverse_permuted [1; 0] [j; i] 2) with [i; j].
    unfold ravel. cbn [zip zip_with foldl fst snd]. f_equal. }
  assert (Htot : Forall (λ p, is_Some (F p)) (seq 0 (numel [c; r]))).
  { apply Forall_forall. intros p Hp. apply elem_of_seq in Hp.
    assert (Hp' : p < c * r) by (cbn in Hp; lia).
    assert (Hr : 0 < r) by (destruct r; lia).
    pose proof (Nat.div_mod_eq p r) as Hdm.
    pose proof (Nat.mod_upper_bound p r ltac:(lia)) as Hmod.
    assert (Hdiv : p / r < c) by (apply Nat.Div0.div_lt_upper_bound; lia).
    replace p with (p / r * r + p mod r) by lia.
    rewrite HF by done. apply lookup_lt_is_Some_2. rewrite Hlen. nia. }
  eexists. split; [reflexivity|]. split; [done|]. cbn [data]. split.
  - rewrite (length_omap_total F _ Htot), length_seq. cbn. lia.
  - intros i j Hi Hj.
    rewrite (omap_lookup_total F _ Htot).
    rewrite lookup_seq_lt by (cbn; nia). cbn [mbind option_bind Nat.add].
    by apply HF.
Qed.

(** The entries of [torch.sum(m, dim=0)] of a matrix. *)
Lemma sum_dim0_matrix (m : tensor R) (r k : nat) :
  shape m = [r; k] →
  shape (sum_dim0 m) = [k]
  ∧ length (data (sum_dim0 m)) = k
  ∧ ∀ j, j < k →
      data (sum_dim0 m) !! j
      = Some (Rsum ((λ i, default 0%R (data m !! (i * k + j))) <$> seq 0 r)).
Proof.
  intros Hs. unfold sum_dim0. rewrite Hs. cbn [shape data].
  replace (numel [k]) with k by (cbn; lia).
  split; [done|]. split; [by rewrite length_fmap, length_seq|].
  intros j Hj. by rewrite list_lookup_fmap, lookup_seq_lt.
Qed.
(** ** Affine: the product with the weights and its gradients *)

Section AffineLayer.

Import Affine.

(** The forward pass on a batch of [n] samples with [D] entries each. *)
Lemma Affine_forward_state (self : t) (x : tensor R) (n D K : nat) (rest : list nat) :
  shape x = n :: rest → numel rest = D → 0 < n →
  shape (W self) = [D; K] → shape (b self) = [K] →
  ∃ prod out,
    matmul (Tensor [n; D] (data x)) (W self) = Some prod
    ∧ tensor_zip Rplus prod (b self) = Some out
    ∧ forward self x
      = Some (out, Make (W self) (b self) (Some (Tensor [n; D] (data x)))
                     (Some (shape x)) (dW self) (db self)).
Proof.
  intros Hx HD Hn HW Hb.
  pose proof (reshape_last_inferred x [n] D) as Hre.
  rewrite Hx, (numel_cons n rest), HD in Hre.
  specialize (Hre ltac:(cbn; lia) ltac:(cbn; lia)).
  destruct (matmul_shape (Tensor [n; D] (data x)) (W self) n D K eq_refl HW)
    as (prod & Hprod & Sprod).
  destruct (add_bias_shape prod (b self) n K Sprod Hb) as (out & Hout & _).
  exists prod, out. split; [done|]. split; [done|].
  unfold forward. rewrite Hx. cbn [lookup list_lookup mbind option_bind].
  change [Z.of_nat n; (-1)%Z] with ((Z.of_nat <$> [n]) ++ [(-1)%Z]).
  rewrite <- Hx, Hre. cbn [mbind option_bind app].
  rewrite Hprod. cbn [mbind option_bind]. rewrite Hout. done.
Qed.

(** X13: on a batch of [n > 0] samples of any number of axes, with [D]
    entries per sample, weights of shape (D, K) and a bias of shape (K,),
    Affine.forward returns the (n, K) matrix whose entry (i, j) is the sum
    over [l] of [x[i, l] * W[l, j]], plus [b[j]], and keeps the flattened
    input and the input's shape for backward. *)
Theorem Affine_forward_entries
    (self : t) (x : tensor R) (n D K : nat) (rest : list nat) :
  shape x = n :: rest → numel rest = D → 0 < n →
  shape (W self) = [D; K] →
  shape (b self) = [K] → length (data (b self)) = K →
  ∃ out self',
    forward self x = Some (out, self')
    ∧ shape out = [n; K]
    ∧ length (data out) = n * K
    ∧ (∀ i j w, i < n → j < K → data (b self) !! j = Some w →
         data out !! (i * K + j)
         = Some (matmul_entry (data x) (data (W self)) D K i j + w)%R)
    ∧ Affine.x self' = Some (Tensor [n; D] (data x))
    ∧ original_x_shape self' = Some (shape x)
    ∧ W self' = W self ∧ b self' = b self.
Proof.
  intros Hx HD Hn HW Hb Lb.
  destruct (Affine_forward_state self x n D K rest Hx HD Hn HW Hb)
    as (prod & out & Hprod & Hout & Hrun).
  destruct (matmul_entries (Tensor [n; D] (data x)) (W self) n D K eq_refl HW)
    as (prod' & Hprod' & Sprod & Lprod & Eprod).
  rewrite Hprod in Hprod'. injection Hprod' as <-.
  destruct (add_bias_entries prod (b self) n K Sprod Hb Lprod Lb)
    as (out' & Hout' & Sout & Lout & Eout).
  rewrite Hout in Hout'. injection Hout' as <-.
  exists out. eexists. split; [exact Hrun|].
  split; [done|]. split; [done|]. split; [|done].
  intros i j w Hi Hj Hw. apply Eout; try done. by apply Eprod.
Qed.

Lemma Affine_forward_entries_witness :
  ∃ out self',
    forward affine_example affine_input = Some (out, self')
    ∧ shape out = [2; 1]
    ∧ length (data out) = 2 * 1
    ∧ (∀ i j w, i < 2 → j < 1 → data (b affine_example) !! j = Some w →
         data out !! (i * 1 + j)
         = Some (matmul_entry (data affine_input) (data (W affine_example)) 2 1 i j + w)%R)
    ∧ Affine.x self' = Some (Tensor [2; 2] (data affine_input))
    ∧ original_x_shape self' = Some (shape affine_input)
    ∧ W self' = W affine_example ∧ b self' = b affine_example.
Proof.
  apply (Affine_forward_entries affine_example affine_input 2 2 1 [1; 2]);
    (reflexivity || lia).
Defined.

(** X14: backward after forward, on a gradient of shape (n, K), returns a
    gradient [dx] of the input's original shape and stores [dW] of the
    shape of [W] and [db] of the shape of [b]: [dx] is [dout] times the
    transposed weights, [dW] the transposed flat input times [dout], and
    [db] the column sums of [dout]. *)
Theorem Affine_backward_gradients
    (self : t) (x dout : tensor R) (n D K : nat) (rest : list nat) :
  shape x = n :: rest → numel rest = D → 0 < n →
  length (data x) = n * D →
  shape (W self) = [D; K] → length (data (W self)) = D * K →
  shape (b self) = [K] →
  shape dout = [n; K] →
  ∃ out self1 dx self2 gW gb,
    forward self x = Some (out, self1)
    ∧ backward self1 dout = Some (dx, self2)
    ∧ dW self2 = Some gW ∧ db self2 = Some gb
    ∧ shape dx = shape x
    ∧ shape gW = shape (W self)
    ∧ shape gb = shape (b self)
    ∧ (∀ i l, i < n → l < D →
         data dx !! (i * D + l)
         = Some (Rsum ((λ j, Rmult (default 0%R (data dout !! (i * K + j)))
                               (default 0%R (data (W self) !! (l * K + j))))
                         <$> seq 0 K)))
    ∧ (∀ l j, l < D → j < K →
         data gW !! (l * K + j)
         = Some (Rsum ((λ i, Rmult (default 0%R (data x !! (i * D + l)))
                               (default 0%R (data dout !! (i * K + j))))
                         <$> seq 0 n)))
    ∧ (∀ j, j < K →
         data gb !! j
         = Some (Rsum ((λ i, default 0%R (data dout !! (i * K + j))) <$> seq 0 n))).
Proof.
  intros Hx HD Hn Lx HW LW Hb Hdout.
  destruct (Affine_forward_state self x n D K rest Hx HD Hn HW Hb)
    as (prod & out & _ & _ & Hrun).
  destruct (transpose_entries (W self) D K HW LW) as (WT & HWT & SWT & LWT & EWT).
  destruct (matmul_entries dout WT n K D Hdout SWT) as (dx0 & Hdx0 & Sdx0 & Ldx0 & Edx0).
  destruct (transpose_entries (Tensor [n; D] (data x)) n D eq_refl Lx)
    as (xT & HxT & SxT & LxT & ExT).
  destruct (matmul_entries xT dout D n K SxT Hdout) as (gW & HgW & SgW & LgW & EgW).
  destruct (sum_dim0_matrix dout n K Hdout) as (Sgb & Lgb & Egb).
  assert (Hre : reshape dx0 (Z.of_nat <$> shape x) = Some (Tensor (shape x) (data dx0))).
  { apply reshape_exact. rewrite Sdx0, Hx, (numel_cons n rest), HD. cbn. lia. }
  exists out. eexists. exists (Tensor (shape x) (data dx0)). eexists. exists gW, (sum_dim0 dout).
  split; [exact Hrun|]. split.
  { unfold backward. cbn [W b Affine.x original_x_shape dW db].
    rewrite HWT. cbn [mbind option_bind]. rewrite Hdx0. cbn [mbind option_bind].
    rewrite HxT. cbn [mbind option_bind]. rewrite HgW. cbn [mbind option_bind].
    rewrite Hre. cbn [mbind option_bind]. reflexivity. }
  cbn [dW db shape data].
  split; [done|]. split; [done|]. split; [done|]. split; [by rewrite HW|].
  split; [by rewrite Hb|]. split; [|split; [|exact Egb]].
  - intros i l Hi Hl. rewrite (Edx0 i l Hi Hl). f_equal. unfold matmul_entry.
    f_equal. apply list_fmap_ext. intros j ? Hj.
    apply lookup_seq in Hj as [-> Hj]. cbn [Nat.add].
    by rewrite (EWT l j Hl Hj).
  - intros l j Hl Hj. rewrite (EgW l j Hl Hj). f_equal. unfold matmul_entry.
    f_equal. apply list_fmap_ext. intros i ? Hi.
    apply lookup_seq in Hi as [-> Hi]. cbn [Nat.add].
    by rewrite (ExT i l Hi Hl).
Qed.

Lemma Affine_backward_gradients_witness :
  ∃ out self1 dx self2 gW gb,
    forward affine_example affine_input = Some (out, self1)
    ∧ backward self1 affine_gradient = Some (dx, self2)
    ∧ dW self2 = Some gW ∧ db self2 = Some gb
    ∧ shape dx = shape affine_input
    ∧ shape gW = shape (W affine_example)
    ∧ shape gb = shape (b affine_example)
    ∧ (∀ i l, i < 2 → l < 2 →
         data dx !! (i * 2 + l)
         = Some (Rsum ((λ j, Rmult (default 0%R (data affine_gradient !! (i * 1 + j)))
                               (default 0%R (data (W affine_example) !! (l * 1 + j))))
                         <$> seq 0 1)))
    ∧ (∀ l j, l < 2 → j < 1 →
         data gW !! (l * 1 + j)
         = Some (Rsum ((λ i, Rmult (default 0%R (data affine_input !! (i * 2 + l)))
                               (default 0%R (data affine_gradient !! (i * 1 + j))))
                         <$> seq 0 2)))
    ∧ (∀ j, j < 1 →
         data gb !! j
         = Some (Rsum ((λ i, default 0%R (data affine_gradient !! (i * 1 + j)))
                         <$> seq 0 2))).
Proof.
  apply (Affine_backward_gradients affine_example affine_input affine_gradient
           2 2 1 [1; 2]); (reflexivity || lia).
Defined.

End AffineLayer.
(** ** Dropout: the mask of the training pass *)

Section DropoutLayer.

Import Dropout.

Lemma times_mask_select (v : R) (m : bool) : times_mask v m = if m then v else 0%R.
Proof. unfold times_mask. destruct m; lra. Qed.

(** X15: a training pass on a well-formed tensor keeps the entries at the
    positions where the number drawn is above the dropout ratio and puts 0
    at the others, without rescaling; backward on a gradient of the same
    shape lets the gradient through at exactly those positions.  The pass
    takes as many numbers from the generator as the input has entries. *)
Theorem Dropout_training_mask (self : t) (x dout : tensor R) :
  length (data x) = numel (shape x) →
  shape dout = shape x →
  length (data dout) = numel (shape x) →
  ∃ out self' dx,
    forward self x true = Some (out, self')
    ∧ backward self' dout = Some dx
    ∧ shape out = shape x ∧ shape dx = shape x
    ∧ (∀ i v, data x !! i = Some v →
         data out !! i
         = Some (if Rltb (dropout_ratio self) (rng self i) then v else 0%R))
    ∧ (∀ i g, data dout !! i = Some g →
         data dx !! i
         = Some (if Rltb (dropout_ratio self) (rng self i) then g else 0%R))
    ∧ dropout_ratio self' = dropout_ratio self
    ∧ ∀ i, rng self' i = rng self (numel (shape x) + i).
Proof.
  intros Lx Sd Ld.
  set (m := Tensor (shape x)
              ((λ u, Rltb (dropout_ratio self) u) <$> (rng self <$> seq 0 (numel (shape x))))).
  assert (Lm : length (data m) = numel (shape x)).
  { subst m. cbn [data]. by rewrite !length_fmap, length_seq. }
  assert (Em : ∀ i, i < numel (shape x) →
                 data m !! i = Some (Rltb (dropout_ratio self) (rng self i))).
  { intros i Hi. subst m. cbn [data].
    by rewrite !list_lookup_fmap, lookup_seq_lt. }
  exists (Tensor (shape x) (zip_with times_mask (data x) (data m))).
  eexists.
  exists (Tensor (shape x) (zip_with times_mask (data dout) (data m))).
  split; [|split].
  - unfold forward. fold m.
    rewrite (tensor_zip_same_shape times_mask x m eq_refl Lx Lm). reflexivity.
  - unfold backward. cbn [mask mbind option_bind]. fold m.
    rewrite (tensor_zip_same_shape times_mask dout m) by (by rewrite ?Sd).
    by rewrite Sd.
  - cbn [shape data dropout_ratio rng].
    split; [done|]. split; [done|]. split; [|split; [|done]].
    + intros i v Hv. rewrite lookup_zip_with, Hv. cbn [mbind option_bind].
      rewrite Em by (apply lookup_lt_Some in Hv; lia).
      cbn [mbind option_bind]. by rewrite times_mask_select.
    + intros i g Hg. rewrite lookup_zip_with, Hg. cbn [mbind option_bind].
      rewrite Em by (apply lookup_lt_Some in Hg; lia).
      cbn [mbind option_bind]. by rewrite times_mask_select.
Qed.

Lemma Dropout_training_mask_witness :
  ∃ out self' dx,
    forward dropout_example dout_example true = Some (out, self')
    ∧ backward self' relu_gradient = Some dx
    ∧ shape out = shape dout_example ∧ shape dx = shape dout_example
    ∧ (∀ i v, data dout_example !! i = Some v →
         data out !! i
         = Some (if Rltb (dropout_ratio dropout_example) (rng dropout_example i)
                 then v else 0%R))
    ∧ (∀ i g, data relu_gradient !! i = Some g →
         data dx !! i
         = Some (if Rltb (dropout_ratio dropout_example) (rng dropout_example i)
                 then g else 0%R))
    ∧ dropout_ratio self' = dropout_ratio dropout_example
    ∧ ∀ i, rng self' i = rng dropout_example (numel (shape dout_example) + i).
Proof.
  apply (Dropout_training_mask dropout_example dout_example relu_gradient);
    reflexivity.
Defined.

End DropoutLayer.
(** ** Convolution: the gradients of backward *)

Lemma matmul_inv (a b p : tensor R) :
  matmul a b = Some p →
  ∃ r c k, shape a = [r; c] ∧ shape b = [c; k] ∧ shape p = [r; k].
Proof.
  unfold matmul. intros H.
  destruct (shape a) as [|r [|c [|? ?]]]; try done.
  destruct (shape b) as [|c' [|k [|? ?]]]; try done.
  destruct (decide (c = c')) as [<-|]; [|done].
  injection H as <-. by exists r, c, k.
Qed.

(** [t.reshape(a, -1)] that succeeds. *)
Lemma reshape_rows_inv {A} (t t' : tensor A) (a : nat) :
  reshape t [Z.of_nat a; (-1)%Z] = Some t' →
  0 < a ∧ shape t' = [a; numel (shape t) / a]
  ∧ numel (shape t) = a * (numel (shape t) / a).
Proof.
  intros H. destruct a as [|a].
  { unfold reshape in H. cbn in H. done. }
  destruct (decide (numel (shape t) mod S a = 0)) as [Hmod|Hmod].
  - pose proof (Nat.div_mod_eq (numel (shape t)) (S a)) as Hdm.
    pose proof (reshape_last_inferred t [S a] (numel (shape t) / S a)) as Hre.
    change ((Z.of_nat <$> [S a]) ++ [(-1)%Z]) with [Z.of_nat (S a); (-1)%Z] in Hre.
    rewrite Hre in H by (cbn [numel foldr]; lia). injection H as <-. cbn [app shape].
    split; [lia|]. split; [done|]. lia.
  - exfalso. unfold reshape in H.
    replace (forallb (λ d, (-1 <=? d)%Z) [Z.of_nat (S a); (-1)%Z]) with true in H.
    2:{ cbn [forallb]. destruct (Z.leb_spec (-1) (Z.of_nat (S a))); [done | lia]. }
    cbn [negb] in H.
    assert (Hf1 : filter (λ d, d = (-1)%Z) [Z.of_nat (S a); (-1)%Z] = [(-1)%Z]).
    { rewrite filter_cons_False by lia. done. }
    assert (Hf2 : filter (λ d, d ≠ (-1)%Z) [Z.of_nat (S a); (-1)%Z] = [Z.of_nat (S a)]).
    { rewrite filter_cons_True by lia. done. }
    rewrite Hf1, Hf2 in H. cbn [length Zprod foldr] in H.
    destruct (Z.eqb_spec (Z.of_nat (numel (shape t)) mod (Z.of_nat (S a) * 1)) 0)
      as [Hz|Hz].
    + apply Hmod. rewrite Z.mul_1_r, <- Nat2Z.inj_mod in Hz. lia.
    + by rewrite andb_false_r in H.
Qed.

(** [t.reshape(-1, a)] on a tensor of [m * a] entries. *)
Lemma reshape_first_inferred {A} (t : tensor A) (m a : nat) :
  numel (shape t) = m * a →
  0 < a →
  reshape t [(-1)%Z; Z.of_nat a] = Some (Tensor [m; a] (data t)).
Proof.
  intros Hn Ha. unfold reshape.
  replace (forallb (λ d, (-1 <=? d)%Z) [(-1)%Z; Z.of_nat a]) with true.
  2:{ cbn [forallb]. destruct (Z.leb_spec (-1) (Z.of_nat a)); [done | lia]. }
  cbn [negb].
  assert (Hf1 : filter (λ d, d = (-1)%Z) [(-1)%Z; Z.of_nat a] = [(-1)%Z]).
  { rewrite filter_cons_True by done. rewrite filter_cons_False by lia. done. }
  assert (Hf2 : filter (λ d, d ≠ (-1)%Z) [(-1)%Z; Z.of_nat a] = [Z.of_nat a]).
  { rewrite filter_cons_False by (intros ?; done). rewrite filter_cons_True by lia. done. }
  rewrite Hf1, Hf2. cbn [length Zprod foldr]. rewrite Z.mul_1_r, Hn.
  rewrite Nat2Z.inj_mul, Z.mod_mul by lia.
  destruct (Z.ltb_spec 0 (Z.of_nat a)); [|lia]. cbn [andb Z.eqb].
  cbn [fmap list_fmap]. rewrite decide_True by done.
  rewrite decide_False by lia.
  rewrite Z.div_mul by lia. by rewrite !Nat2Z.id.
Qed.

Section ConvolutionBackward.

Import Convolution.

Variable im2col : tensor R → Z → Z → Z → Z → option (tensor R).
Variable col2im : tensor R → list nat → Z → Z → Z → Z → option (tensor R).

(** What a forward pass that returns leaves in the layer. *)
Lemma Convolution_forward_inv
    (self self' : t) (x out : tensor R) (FN C FH FW : nat) :
  shape (W self) = [FN; C; FH; FW] →
  shape (b self) = [FN] →
  forward im2col self x = Some (out, self') →
  ∃ (col cw : tensor R) (M : nat),
    self' = Make (W self) (b self) (stride self) (pad self)
              (Some x) (Some col) (Some cw)
    ∧ 0 < FN
    ∧ shape col = [M; C * FH * FW]
    ∧ shape cw = [C * FH * FW; FN]
    ∧ length (shape out) = 4
    ∧ numel (shape out) = M * FN.
Proof.
  intros HW Hb Hrun. unfold forward in Hrun. rewrite HW in Hrun.
  destruct (shape x) as [|N [|C' [|H [|W_ [|? ?]]]]]; try done.
  destruct (py_int_div (Z.of_nat H + 2 * pad self - Z.of_nat FH) (stride self))
    as [qh|]; cbn [mbind option_bind] in Hrun; [|done].
  destruct (py_int_div (Z.of_nat W_ + 2 * pad self - Z.of_nat FW) (stride self))
    as [qw|]; cbn [mbind option_bind] in Hrun; [|done].
  destruct (im2col _ _ _ _ _) as [col|]; cbn [mbind option_bind] in Hrun; [|done].
  destruct (reshape (W self) _) as [w2|] eqn:Hw2; cbn [mbind option_bind] in Hrun; [|done].
  destruct (transpose w2) as [cw|] eqn:Hcw; cbn [mbind option_bind] in Hrun; [|done].
  destruct (matmul col cw) as [prod|] eqn:Hprod; cbn [mbind option_bind] in Hrun; [|done].
  destruct (tensor_zip Rplus prod (b self)) as [o1|] eqn:Ho1; cbn [mbind option_bind] in Hrun; [|done].
  destruct (reshape o1 _) as [o2|] eqn:Ho2; cbn [mbind option_bind] in Hrun; [|done].
  destruct (permute o2 [0; 3; 1; 2]) as [o3|] eqn:Ho3; cbn [mbind option_bind] in Hrun; [|done]. injection Hrun as <- <-.
  destruct (reshape_rows_inv _ _ _ Hw2) as (HFN & Sw2 & Hnum).
  rewrite HW in Sw2, Hnum.
  assert (Hq : numel [FN; C; FH; FW] / FN = C * FH * FW).
  { cbn [numel foldr].
    replace (FN * (C * (FH * (FW * 1)))) with (C * FH * FW * FN) by lia.
    apply Nat.div_mul. lia. }
  rewrite Hq in Sw2.
  destruct (transpose_shape w2 _ _ Sw2) as (cw' & Hcw' & Scw).
  rewrite Hcw in Hcw'. injection Hcw' as <-.
  destruct (matmul_inv _ _ _ Hprod) as (M & c & k & Scol & Scw' & Sprod).
  rewrite Scw in Scw'. injection Scw' as <- <-.
  destruct (add_bias_shape prod (b self) M FN Sprod Hb) as (o1' & Ho1' & So1).
  rewrite Ho1 in Ho1'. injection Ho1' as <-.
  destruct (reshape_keeps_entries _ _ _ Ho2) as (_ & Lo2 & No2).
  destruct (permute_keeps_numel_4 o2 o3 [0; 3; 1; 2] Lo2 (or_introl eq_refl) Ho3)
    as [Lo3 No3].
  exists col, cw, M. split; [done|]. split; [done|]. split; [done|].
  split; [done|]. split; [done|].
  rewrite No3, No2, So1. cbn. lia.
Qed.

(** X17: after a forward pass that returned, backward on a gradient of
    the output's shape computes [dW] with the shape of the kernels [W],
    [db] with one entry per filter, and hands to col2im a matrix of the
    shape of the matrix im2col returned, together with the shape of the
    input and the layer's kernel size, stride and padding. *)
Theorem Convolution_backward_shapes
    (self self' : t) (x out dout : tensor R) (FN C FH FW : nat) :
  shape (W self) = [FN; C; FH; FW] →
  shape (b self) = [FN] →
  forward im2col self x = Some (out, self') →
  shape dout = shape out →
  ∃ col dcol dW db,
    Convolution.col self' = Some col
    ∧ shape dcol = shape col
    ∧ shape dW = shape (W self)
    ∧ shape db = shape (b self)
    ∧ backward col2im self' dout
      = (dx ← col2im dcol (shape x) (Z.of_nat FH) (Z.of_nat FW)
               (stride self) (pad self);
         Some (dx, dW, db)).
Proof.
  intros HW Hb Hrun Hdout.
  destruct (Convolution_forward_inv self self' x out FN C FH FW HW Hb Hrun)
    as (col & cw & M & -> & HFN & Scol & Scw & Lout & Nout).
  destruct (permute_is_Some dout [0; 2; 3; 1]) as [dperm Hperm].
  { rewrite Hdout, Lout. apply (bool_decide_unpack _). vm_compute. exact I. }
  destruct (permute_keeps_numel_4 dout dperm [0; 2; 3; 1]) as [_ Nperm];
    [by rewrite Hdout | by right | done |].
  rewrite Hdout, Nout in Nperm.
  pose proof (reshape_first_inferred dperm M FN Nperm HFN) as Hres.
  destruct (transpose_shape col _ _ Scol) as (colT & HcolT & ScolT).
  destruct (matmul_shape colT (Tensor [M; FN] (data dperm)) _ _ _ ScolT eq_refl)
    as (g0 & Hg0 & Sg0).
  destruct (transpose_shape g0 _ _ Sg0) as (g1 & Hg1 & Sg1).
  assert (Hg2 : reshape g1 (Z.of_nat <$> [FN; C; FH; FW])
                = Some (Tensor [FN; C; FH; FW] (data g1))).
  { apply reshape_exact. rewrite Sg1. cbn. lia. }
  destruct (transpose_shape cw _ _ Scw) as (cwT & HcwT & ScwT).
  destruct (matmul_shape (Tensor [M; FN] (data dperm)) cwT _ _ _ eq_refl ScwT)
    as (dcol & Hdcol & Sdcol).
  exists col, dcol, (Tensor [FN; C; FH; FW] (data g1)),
    (sum_dim0 (Tensor [M; FN] (data dperm))).
  split; [done|]. split; [by rewrite Sdcol, Scol|]. split; [by rewrite HW|].
  split.
  { destruct (sum_dim0_matrix (Tensor [M; FN] (data dperm)) M FN eq_refl) as [-> _].
    by rewrite Hb. }
  unfold backward.
  cbn [W b stride pad Convolution.x Convolution.col col_W].
  rewrite HW, Hperm. cbn [mbind option_bind]. rewrite Hres. cbn [mbind option_bind].
  rewrite HcolT. cbn [mbind option_bind]. rewrite Hg0. cbn [mbind option_bind].
  rewrite Hg1. cbn [mbind option_bind].
  change [Z.of_nat FN; Z.of_nat C; Z.of_nat FH; Z.of_nat FW]
    with (Z.of_nat <$> [FN; C; FH; FW]).
  rewrite Hg2. cbn [mbind option_bind]. rewrite HcwT. cbn [mbind option_bind].
  rewrite Hdcol. cbn [mbind option_bind]. reflexivity.
Qed.

End ConvolutionBackward.

Lemma Convolution_backward_shapes_witness :
  ∃ col dcol dW db,
    Convolution.col toy_conv_pass.2 = Some col
    ∧ shape dcol = shape col
    ∧ shape dW = shape (Convolution.W toy_conv)
    ∧ shape db = shape (Convolution.b toy_conv)
    ∧ Convolution.backward toy_col2im toy_conv_pass.2 toy_conv_gradient
      = (dx ← toy_col2im dcol (shape toy_image) (Z.of_nat 2) (Z.of_nat 2)
               (Convolution.stride toy_conv) (Convolution.pad toy_conv);
         Some (dx, dW, db)).
Proof.
  apply (Convolution_backward_shapes toy_im2col toy_col2im toy_conv toy_conv_pass.2
           toy_image toy_conv_pass.1 toy_conv_gradient 2 1 2 2); reflexivity.
Defined.
